(** * API Gateway Simulator: token-bucket limiter, provider health and selection

    A shallow embedding of [ratelimiter.go] (the token-bucket [RateLimiter])
    and of [gateway.go] (provider selection, failure marking and cooldown
    computation), followed by the properties established about them.

    Conventions of the embedding:
    - [int64] and [int] values are integers of [Z] kept in the signed 64-bit
      range by an explicit wrap-around ([Int64.wrap]);
    - [float64] values are IEEE 754 binary64 numbers, represented by the
      standard library's [spec_float] with 53 bits of precision, so every
      float operation below rounds exactly as the hardware does;
    - [time.Now()] is an input of each operation: one call reads the clock
      once, the readings taken inside a single call are identified;
    - [rand.Float64()] and [rand.Int63n(n)] are inputs as well. *)

From Stdlib Require Import ZArith Lia List Bool.
From Stdlib Require Import SpecFloat.
From stdpp Require Import gmap strings.

Open Scope Z_scope.

(** ** Signed 64-bit integers *)

Module Int64.

Definition min_int : Z := - 2 ^ 63.
Definition max_int : Z := 2 ^ 63 - 1.

(** Two's complement wrap-around of an integer into the [int64] range. *)
Definition wrap (z : Z) : Z := (z + 2 ^ 63) mod 2 ^ 64 - 2 ^ 63.

Definition in_range (z : Z) : bool := (min_int <=? z) && (z <=? max_int).

Definition add (a b : Z) : Z := wrap (a + b).
Definition sub (a b : Z) : Z := wrap (a - b).
Definition mul (a b : Z) : Z := wrap (a * b).

(** Subtraction that saturates at the ends of the range, as
    [time.Time.Sub] does for the [Duration] it returns. *)
Definition sub_sat (a b : Z) : Z := Z.max min_int (Z.min max_int (a - b)).

End Int64.

(** ** Binary64 floating point *)

Module F64.

Definition prec : Z := 53.
Definition emax : Z := 1024.

Abbreviation float64 := spec_float.

Definition add : float64 -> float64 -> float64 := SFadd prec emax.
Definition sub : float64 -> float64 -> float64 := SFsub prec emax.
Definition mul : float64 -> float64 -> float64 := SFmul prec emax.
Definition div : float64 -> float64 -> float64 := SFdiv prec emax.

Definition eqb : float64 -> float64 -> bool := SFeqb.
Definition ltb : float64 -> float64 -> bool := SFltb.
Definition leb : float64 -> float64 -> bool := SFleb.
Definition gtb (x y : float64) : bool := SFltb y x.
Definition geb (x y : float64) : bool := SFleb y x.

Definition valid : float64 -> bool := valid_binary prec emax.

(** [float64(n)] for an integer [n]: the nearest binary64 number. *)
Definition of_Z (n : Z) : float64 := binary_normalize prec emax n 0 false.

(** A decimal constant [n/d] of the source text. Go converts an untyped
    constant to the nearest [float64]; the correctly rounded quotient of
    two exactly representable integers is that number. *)
Definition dec (n d : Z) : float64 := div (of_Z n) (of_Z d).

Definition is_nan (x : float64) : bool :=
  match x with S754_nan => true | _ => false end.

Definition is_inf (x : float64) (negative : bool) : bool :=
  match x with S754_infinity s => Bool.eqb s negative | _ => false end.

Definition signbit (x : float64) : bool :=
  match x with
  | S754_zero s | S754_infinity s | S754_finite s _ _ => s
  | S754_nan => false
  end.

(** The integer part of a finite float, rounded toward zero. *)
Definition trunc (x : float64) : option Z :=
  match x with
  | S754_zero _ => Some 0
  | S754_finite s m e =>
      let a := Z.shiftl (Z.pos m) e in
      Some (if s then - a else a)
  | S754_infinity _ | S754_nan => None
  end.

(** [int64(x)] for a float [x]. Go truncates toward zero; when the value
    does not fit (or is an infinity or a NaN) the language leaves the
    result to the implementation. The value chosen here is the one the
    amd64 conversion instruction produces, [-2^63]. *)
Definition to_int64 (x : float64) : Z :=
  match trunc x with
  | Some z => if Int64.in_range z then z else Int64.min_int
  | None => Int64.min_int
  end.

Definition zero : float64 := S754_zero false.
Definition one : float64 := of_Z 1.
Definition nan : float64 := S754_nan.
Definition inf : float64 := S754_infinity false.
Definition neg_inf : float64 := S754_infinity true.

End F64.

Import F64.

(** ** The functions of package [math] the program calls *)

(** [math.Max]: [+Inf] and NaN first, then the signed zeros, then the
    comparison. *)
Definition math_Max (x y : float64) : float64 :=
  if is_inf x false || is_inf y false then inf
  else if is_nan x || is_nan y then nan
  else if eqb x zero && eqb x y then (if signbit x then y else x)
  else if gtb x y then x else y.

(** [math.Min]. *)
Definition math_Min (x y : float64) : float64 :=
  if is_inf x true || is_inf y true then neg_inf
  else if is_nan x || is_nan y then nan
  else if eqb x zero && eqb x y then (if signbit x then x else y)
  else if ltb x y then x else y.

(** ** Package [time]: durations are [int64] nanosecond counts *)

Definition Nanosecond : Z := 1.
Definition Millisecond : Z := 1000000.
Definition Second : Z := 1000000000.
Definition Minute : Z := 60 * Second.
Definition Hour : Z := 60 * Minute.

(** [Duration.Seconds]: whole seconds and the remaining nanoseconds are
    converted separately and added. Go's integer division truncates. *)
Definition Duration_Seconds (d : Z) : float64 :=
  let sec := Z.quot d Second in
  let nsec := Z.rem d Second in
  add (of_Z sec) (div (of_Z nsec) (of_Z 1000000000)).

(** ** [ratelimiter.go] *)

(** The float constant [1e9]. *)
Definition c1e9 : float64 := of_Z 1000000000.

Record RateLimiter : Type := mkRateLimiter {
  rate : float64;        (* tokens per second *)
  capacity : float64;
  tokens : Z;            (* int64, in units of 1e-9 token *)
  lastUpdate : Z         (* int64, Unix time in nanoseconds *)
}.

(** [NewRateLimiter(rps)], constructed when the clock reads [now]. *)
Definition NewRateLimiter (rps : float64) (now : Z) : RateLimiter :=
  let capacity := math_Max (of_Z 10) (mul rps (dec 1 10)) in
  {| rate := rps;
     capacity := capacity;
     tokens := to_int64 (mul capacity c1e9);
     lastUpdate := now |}.

(** [Allow], run without interference from other callers; [now] is the
    value of [time.Now().UnixNano()]. *)
Definition Allow (rl : RateLimiter) (now : Z) : RateLimiter * bool :=
  let last := lastUpdate rl in
  let elapsed := div (of_Z (Int64.sub now last)) c1e9 in
  let refill := mul elapsed (rate rl) in
  let currentTokens := div (of_Z (tokens rl)) c1e9 in
  let newTokens := math_Min (capacity rl) (add currentTokens refill) in
  if geb newTokens one then
    let newTokens := sub newTokens one in
    ({| rate := rate rl; capacity := capacity rl;
        tokens := to_int64 (mul newTokens c1e9);
        lastUpdate := now |}, true)
  else
    ({| rate := rate rl; capacity := capacity rl;
        tokens := tokens rl;
        lastUpdate := now |}, false).

(** [AllowMutex]: the same computation under the lock, with the elapsed
    time obtained from [time.Time.Sub] and [Duration.Seconds]. *)
Definition AllowMutex (rl : RateLimiter) (now : Z) : RateLimiter * bool :=
  let elapsed := Int64.sub_sat now (lastUpdate rl) in
  let refill := mul (Duration_Seconds elapsed) (rate rl) in
  let currentTokens := div (of_Z (tokens rl)) c1e9 in
  let newTokens := math_Min (capacity rl) (add currentTokens refill) in
  if geb newTokens one then
    let newTokens := sub newTokens one in
    ({| rate := rate rl; capacity := capacity rl;
        tokens := to_int64 (mul newTokens c1e9);
        lastUpdate := now |}, true)
  else
    ({| rate := rate rl; capacity := capacity rl;
        tokens := tokens rl;
        lastUpdate := now |}, false).

(** Successive calls of [Allow], one per clock reading of [nows]. *)
Fixpoint Allow_seq (rl : RateLimiter) (nows : list Z) : RateLimiter * list bool :=
  match nows with
  | [] => (rl, [])
  | now :: rest =>
      let '(rl1, ok) := Allow rl now in
      let '(rl2, oks) := Allow_seq rl1 rest in
      (rl2, ok :: oks)
  end.

(** *** Concurrent callers of [Allow]

    [Allow] touches the shared fields through four separate atomic
    operations: it loads [lastUpdate], loads [tokens], and then either
    stores [tokens] and [lastUpdate] (admitted) or stores [lastUpdate]
    alone (denied). Go's atomics are sequentially consistent, so an
    execution of several callers is an interleaving of these operations.
    A caller is a small state machine whose local variables live in its
    program point. *)

Inductive caller : Type :=
  | AtEntry (now : Z)                          (* [now] read from the clock *)
  | LoadedLast (now last : Z)                  (* [lastUpdate] loaded *)
  | LoadedTokens (now : Z) (newTokens : float64) (* [tokens] loaded, [newTokens] computed *)
  | StoredTokens (now : Z)                     (* admitted: [tokens] stored *)
  | Returned (ok : bool).

(** One atomic operation of a caller on the shared limiter. *)
Definition caller_step (rl : RateLimiter) (c : caller) : RateLimiter * caller :=
  match c with
  | AtEntry now => (rl, LoadedLast now (lastUpdate rl))
  | LoadedLast now last =>
      let elapsed := div (of_Z (Int64.sub now last)) c1e9 in
      let refill := mul elapsed (rate rl) in
      let currentTokens := div (of_Z (tokens rl)) c1e9 in
      (rl, LoadedTokens now (math_Min (capacity rl) (add currentTokens refill)))
  | LoadedTokens now newTokens =>
      if geb newTokens one then
        ({| rate := rate rl; capacity := capacity rl;
            tokens := to_int64 (mul (sub newTokens one) c1e9);
            lastUpdate := lastUpdate rl |}, StoredTokens now)
      else
        ({| rate := rate rl; capacity := capacity rl;
            tokens := tokens rl; lastUpdate := now |}, Returned false)
  | StoredTokens now =>
      ({| rate := rate rl; capacity := capacity rl;
          tokens := tokens rl; lastUpdate := now |}, Returned true)
  | Returned ok => (rl, Returned ok)
  end.

(** A configuration is the shared limiter and the callers in flight; a
    schedule names, step by step, the caller that performs its next
    operation. *)
Definition config : Type := (RateLimiter * list caller)%type.

Definition sched_step (cfg : config) (i : nat) : config :=
  let '(rl, cs) := cfg in
  match cs !! i with
  | Some c => let '(rl', c') := caller_step rl c in (rl', <[i := c']> cs)
  | None => cfg
  end.

Definition run (schedule : list nat) (cfg : config) : config :=
  fold_left sched_step schedule cfg.

Definition admitted (c : caller) : bool :=
  match c with Returned true => true | _ => false end.

Definition returned (c : caller) : bool :=
  match c with Returned _ => true | _ => false end.

Definition admissions (cfg : config) : nat := length (filter (fun c => admitted c = true) (snd cfg)).

(** ** [gateway.go] *)

(** A [time.Time] is the number of nanoseconds since the zero [Time]; the
    zero value of a struct field of that type is [0], and every clock
    reading is later. *)
Definition Time_Before (t u : Z) : bool := t <? u.
Definition Time_After (t u : Z) : bool := u <? t.
Definition Time_Add (t d : Z) : Z := t + d.

Record Provider : Type := mkProvider {
  ID : string;
  Weight : Z;            (* int64 *)
  Latency : Z;           (* time.Duration *)
  ErrorRate : float64
}.

Record ProviderHealth : Type := mkProviderHealth {
  ErrorCount : Z;        (* int *)
  LastFailure : Z;       (* time.Time *)
  CooldownUntil : Z;     (* time.Time *)
  DisabledUntil : Z      (* time.Time *)
}.

Record Gateway : Type := mkGateway {
  providers : list Provider;
  health : gmap string ProviderHealth;
  limiter : RateLimiter;
  totalWeight : Z        (* int64 *)
}.

(** A call either returns or panics (a nil dereference, or the argument
    check of [rand.Int63n]). A [*Provider] result is [None] when nil. *)
Inductive outcome (A : Type) : Type :=
  | Panic
  | Return (a : A).
Arguments Panic {A}.
Arguments Return {A} a.

(** The zero [ProviderHealth], as [&ProviderHealth{}] allocates it. *)
Definition zeroHealth : ProviderHealth :=
  {| ErrorCount := 0; LastFailure := 0; CooldownUntil := 0; DisabledUntil := 0 |}.

(** The body of [NewGateway] for a given provider list: one fresh health
    record per provider and the running sum of the weights. [unixNow] is
    the clock reading the limiter is constructed with. *)
Definition NewGatewayWith (ps : list Provider) (unixNow : Z) : Gateway :=
  let '(health, totalWeight) :=
    fold_left (fun (acc : gmap string ProviderHealth * Z) p =>
                 (<[ID p := zeroHealth]> (fst acc), Int64.add (snd acc) (Weight p)))
              ps (∅, 0) in
  {| providers := ps;
     health := health;
     limiter := NewRateLimiter (of_Z 1000) unixNow;
     totalWeight := totalWeight |}.

Definition provider1 : Provider :=
  {| ID := "provider1"; Weight := 70; Latency := 100 * Millisecond; ErrorRate := dec 5 100 |}.
Definition provider2 : Provider :=
  {| ID := "provider2"; Weight := 20; Latency := 500 * Millisecond; ErrorRate := dec 10 100 |}.
Definition provider3 : Provider :=
  {| ID := "provider3"; Weight := 10; Latency := 2 * Second; ErrorRate := dec 20 100 |}.

Definition NewGateway (unixNow : Z) : Gateway :=
  NewGatewayWith [provider1; provider2; provider3] unixNow.

(** [isInCooldown]: the health record of an unknown provider is nil. *)
Definition isInCooldown (g : Gateway) (providerID : string) (now : Z) : outcome bool :=
  match health g !! providerID with
  | None => Panic
  | Some h => Return (Time_Before now (CooldownUntil h) || Time_Before now (DisabledUntil h))
  end.

(** The later of the two deadlines of a health record. *)
Definition expiry_of (h : ProviderHealth) : Z :=
  if Time_After (DisabledUntil h) (CooldownUntil h) then DisabledUntil h
  else CooldownUntil h.

(** The loop of [selectSoonestExpiring] over the remaining providers. *)
Fixpoint soonest_loop (g : Gateway) (ps : list Provider)
    (selected : option Provider) (soonest : Z) : outcome (option Provider) :=
  match ps with
  | [] => Return selected
  | p :: rest =>
      match health g !! ID p with
      | None => Panic
      | Some h =>
          let expiry := expiry_of h in
          if Time_Before expiry soonest
          then soonest_loop g rest (Some p) expiry
          else soonest_loop g rest selected soonest
      end
  end.

Definition selectSoonestExpiring (g : Gateway) (now : Z) : outcome (option Provider) :=
  soonest_loop g (providers g) None (Time_Add now (24 * Hour)).

(** The first loop of [SelectProvider]: the providers not in cooldown, in
    configuration order. *)
Fixpoint available_loop (g : Gateway) (ps : list Provider) (now : Z)
  : outcome (list Provider) :=
  match ps with
  | [] => Return []
  | p :: rest =>
      match isInCooldown g (ID p) now with
      | Panic => Panic
      | Return inCooldown =>
          match available_loop g rest now with
          | Panic => Panic
          | Return l => Return (if inCooldown then l else p :: l)
          end
      end
  end.

(** The second loop: the running sum of the weights against [r]. *)
Fixpoint weighted_loop (available : list Provider) (r currentSum : Z)
  : option Provider :=
  match available with
  | [] => None
  | p :: rest =>
      let currentSum := Int64.add currentSum (Weight p) in
      if r <? currentSum then Some p else weighted_loop rest r currentSum
  end.

(** [SelectProvider]; [r] is the value [rand.Int63n(g.totalWeight)]
    returns, a call that panics when its argument is not positive. *)
Definition SelectProvider (g : Gateway) (now : Z) (r : Z) : outcome (option Provider) :=
  match available_loop g (providers g) now with
  | Panic => Panic
  | Return [] => selectSoonestExpiring g now
  | Return (first :: rest) =>
      if totalWeight g <=? 0 then Panic
      else match weighted_loop (first :: rest) r 0 with
           | Some p => Return (Some p)
           | None => Return (Some first)
           end
  end.

(** [math.Pow(x, y)] for a whole-number exponent [y >= 0], by repeated
    multiplication. The powers the program asks for, [5^0] to [5^3], are
    exact, so this is the value [math.Pow] returns for them; other
    exponents are not covered and yield NaN here. *)
Definition math_Pow (x y : float64) : float64 :=
  match trunc y with
  | Some n => if (0 <=? n) && eqb (of_Z n) y then Z.iter n (mul x) one else nan
  | None => nan
  end.

(** [calculateCooldown]; [rnd] is the value of [rand.Float64()]. The
    conversion [time.Duration(...)] is applied to the jitter factor
    before the multiplication by [cooldown]. *)
Definition calculateCooldown (errorCount : Z) (errorType : string) (rnd : float64) : Z :=
  let base := 1 * Minute in
  if errorCount <=? 0 then 0
  else
    let exponent := math_Min (of_Z (Int64.sub errorCount 1)) (of_Z 3) in
    let multiplier := math_Pow (of_Z 5) exponent in
    let cooldown := to_int64 (mul (of_Z base) multiplier) in
    let jitter := Int64.mul (to_int64 (sub (mul rnd (dec 6 10)) (dec 3 10))) cooldown in
    let cooldown := Int64.add cooldown jitter in
    if 1 * Hour <? cooldown then 1 * Hour else cooldown.

(** [MarkFailure]. *)
Definition MarkFailure (g : Gateway) (providerID errorType : string)
    (now : Z) (rnd : float64) : outcome Gateway :=
  match health g !! providerID with
  | None => Panic
  | Some h =>
      let errorCount := Int64.add (ErrorCount h) 1 in
      let cooldown := calculateCooldown errorCount errorType rnd in
      let h' :=
        if String.eqb errorType "billing" then
          {| ErrorCount := errorCount; LastFailure := now;
             CooldownUntil := CooldownUntil h;
             DisabledUntil := Time_Add now cooldown |}
        else
          {| ErrorCount := errorCount; LastFailure := now;
             CooldownUntil := Time_Add now cooldown;
             DisabledUntil := DisabledUntil h |} in
      Return {| providers := providers g;
                health := <[providerID := h']> (health g);
                limiter := limiter g;
                totalWeight := totalWeight g |}
  end.

(** [Duration.Milliseconds]: the integer division truncates. *)
Definition Duration_Milliseconds (d : Z) : Z := Z.quot d Millisecond.

(** [time.Since(start)] when the clock reads [now]. *)
Definition Time_Since (start now : Z) : Z := Int64.sub_sat now start.

(** The calls a request makes on the Prometheus collectors of
    [metrics.go], in the order it makes them. *)
Inductive metric : Type :=
  | rateLimitHits_Inc
  | providerErrors_Inc (provider error_type : string)
  | requestsTotal_Inc (provider status : string)
  | requestDuration_Observe (provider : string) (seconds : float64).

(** The values a response body holds. *)
Inductive json : Type :=
  | JString (s : string)
  | JNumber (n : Z).

(** [c.JSON(code, gin.H{...})]. *)
Record response : Type := mkResponse {
  code : Z;
  body : list (string * json)
}.

(** What one request reads from the clock and from [math/rand], in the
    order [HandleRequest] asks for it. The readings taken inside one
    callee are identified; the sleep of [simulateProviderCall] shows as
    the distance between [startNow] and [sinceNow]. *)
Record request_env : Type := mkEnv {
  allowNow : Z;          (* time.Now().UnixNano() in Allow *)
  selectNow : Z;         (* time.Now() in SelectProvider *)
  pick : Z;              (* rand.Int63n(g.totalWeight) *)
  startNow : Z;          (* start := time.Now() *)
  failDraw : float64;    (* rand.Float64() in simulateProviderCall *)
  sinceNow : Z;          (* the clock read by time.Since(start) *)
  markNow : Z;           (* time.Now() in MarkFailure *)
  jitterDraw : float64   (* rand.Float64() in calculateCooldown *)
}.

(** [simulateProviderCall]: [true] stands for the simulated error. A nil
    provider is dereferenced by [p.Latency]. *)
Definition simulateProviderCall (p : option Provider) (rnd : float64) : outcome bool :=
  match p with
  | None => Panic
  | Some p => Return (ltb rnd (ErrorRate p))
  end.

(** [HandleRequest], one request at a time: the new state of the gateway,
    the response written and the metric calls made. *)
Definition HandleRequest (g : Gateway) (env : request_env)
  : outcome (Gateway * response * list metric) :=
  let g1 := {| providers := providers g; health := health g;
               limiter := fst (Allow (limiter g) (allowNow env));
               totalWeight := totalWeight g |} in
  if negb (snd (Allow (limiter g) (allowNow env))) then
    Return (g1, mkResponse 429 [("error"%string, JString "Rate limit exceeded")],
            [rateLimitHits_Inc])
  else
    match SelectProvider g1 (selectNow env) (pick env) with
    | Panic => Panic
    | Return provider =>
        match simulateProviderCall provider (failDraw env), provider with
        | Return err, Some p =>
            let duration := Time_Since (startNow env) (sinceNow env) in
            if err then
              match MarkFailure g1 (ID p) "rate_limit" (markNow env) (jitterDraw env) with
              | Panic => Panic
              | Return g2 =>
                  Return (g2, mkResponse 502 [("error"%string, JString "Upstream error")],
                          [providerErrors_Inc (ID p) "rate_limit";
                           requestsTotal_Inc (ID p) "error"])
              end
            else
              Return (g1,
                      mkResponse 200 [("provider"%string, JString (ID p));
                                      ("latency"%string,
                                       JNumber (Duration_Milliseconds duration))],
                      [requestDuration_Observe (ID p) (Duration_Seconds duration);
                       requestsTotal_Inc (ID p) "success"])
        | _, _ => Panic
        end
    end.

(** Requests served one after the other. *)
Fixpoint serve (g : Gateway) (envs : list request_env)
  : outcome (Gateway * list response * list metric) :=
  match envs with
  | [] => Return (g, [], [])
  | env :: rest =>
      match HandleRequest g env with
      | Panic => Panic
      | Return (g1, resp, ms) =>
          match serve g1 rest with
          | Panic => Panic
          | Return (g2, resps, ms') => Return (g2, resp :: resps, ms ++ ms')
          end
      end
  end.

(** ** Notions used to state the properties *)

(** The balance a call of [Allow] reads, in tokens. *)
Definition balance (rl : RateLimiter) : float64 :=
  div (of_Z (tokens rl)) c1e9.

(** The refilled and capped balance of a call of [Allow] at [now]. *)
Definition candidate (rl : RateLimiter) (now : Z) : float64 :=
  let elapsed := div (of_Z (Int64.sub now (lastUpdate rl))) c1e9 in
  math_Min (capacity rl) (add (balance rl) (mul elapsed (rate rl))).

(** The same for [AllowMutex]. *)
Definition candidateMutex (rl : RateLimiter) (now : Z) : float64 :=
  let elapsed := Duration_Seconds (Int64.sub_sat now (lastUpdate rl)) in
  math_Min (capacity rl) (add (balance rl) (mul elapsed (rate rl))).

(** Exactly [k] consecutive calls at the instant [now] are admitted and
    the next one is denied. *)
Definition burst (rl : RateLimiter) (now : Z) (k : nat) : Prop :=
  snd (Allow_seq rl (repeat now (S k))) = repeat true k ++ [false].

(** The number of admitted calls in a list of answers. *)
Definition count_admitted (oks : list bool) : nat :=
  length (filter (fun ok => ok = true) oks).

(** The sum of the configured weights, as mathematical integers. *)
Definition sum_weights (ps : list Provider) : Z :=
  fold_right (fun p acc => Weight p + acc) 0 ps.

(** [max(cooldownUntil, disabledUntil)] of a provider, [0] when it has no
    health record. *)
Definition Expiry (g : Gateway) (p : Provider) : Z :=
  match health g !! ID p with
  | Some h => Z.max (CooldownUntil h) (DisabledUntil h)
  | None => 0
  end.

(** A provider is unavailable at [now] when [now] precedes one of its
    deadlines. *)
Definition unavailable (g : Gateway) (now : Z) (p : Provider) : bool :=
  match health g !! ID p with
  | Some h => Time_Before now (CooldownUntil h) || Time_Before now (DisabledUntil h)
  | None => false
  end.

(** The walk over the available providers as the specification words it:
    the first one whose cumulative weight exceeds [r], if there is one. *)
Fixpoint first_exceeding (available : list Provider) (r acc : Z) : option Provider :=
  match available with
  | [] => None
  | p :: rest =>
      if r <? acc + Weight p then Some p
      else first_exceeding rest r (acc + Weight p)
  end.

(** The cooldown as the specification words it: the backoff multiplied by
    [1 + u] for [u = rnd * 0.6 - 0.3], then capped at one hour. *)
Definition jittered_cooldown (errorCount : Z) (rnd : float64) : Z :=
  let exponent := Z.min (errorCount - 1) 3 in
  let duration := mul (of_Z (Minute * 5 ^ exponent))
                      (add one (sub (mul rnd (dec 6 10)) (dec 3 10))) in
  Z.min (to_int64 duration) Hour.

(** The states a gateway over the providers [ps] goes through. The index
    is the latest clock reading so far: the gateway is constructed, time
    passes, failures are marked, and the limiter answers calls. *)
Inductive reachable (ps : list Provider) : Z -> Gateway -> Prop :=
  | reach_new unixNow t :
      0 <= t ->
      reachable ps t (NewGatewayWith ps unixNow)
  | reach_later t t' g :
      reachable ps t g -> t <= t' ->
      reachable ps t' g
  | reach_mark t g providerID errorType rnd g' :
      reachable ps t g ->
      MarkFailure g providerID errorType t rnd = Return g' ->
      reachable ps t g'
  | reach_allow t g unixNow :
      reachable ps t g ->
      reachable ps t {| providers := providers g; health := health g;
                        limiter := fst (Allow (limiter g) unixNow);
                        totalWeight := totalWeight g |}.

(** The two accumulators of the loop of [NewGatewayWith]. *)
Definition add_health (h : gmap string ProviderHealth) (p : Provider)
  : gmap string ProviderHealth := <[ID p := zeroHealth]> h.
Definition add_weight (w : Z) (p : Provider) : Z := Int64.add w (Weight p).

(** What every reachable state satisfies at the clock reading [t]. *)
Record gateway_inv (ps : list Provider) (t : Z) (g : Gateway) : Prop := {
  inv_providers : providers g = ps;
  inv_health : forall p, In p ps -> is_Some (health g !! ID p);
  inv_deadlines : forall id h, health g !! id = Some h ->
      CooldownUntil h <= t + Hour /\ DisabledUntil h <= t + Hour;
  inv_weight : totalWeight g = fold_left add_weight ps 0
}.

(** The limiter with its clock field set to [t]. *)
Definition at_instant (rl : RateLimiter) (t : Z) : RateLimiter :=
  {| rate := rate rl; capacity := capacity rl; tokens := tokens rl; lastUpdate := t |}.

(** The admission rule with the new balance read literally: an admitted
    call leaves [candidate - 1] as the balance the next call reads. *)
Definition persist_claim (rl : RateLimiter) (now : Z) : Prop :=
  let c := candidate rl now in
  snd (Allow rl now) = geb c one /\
  lastUpdate (fst (Allow rl now)) = now /\
  (geb c one = true -> balance (fst (Allow rl now)) = sub c one) /\
  (geb c one = false -> tokens (fst (Allow rl now)) = tokens rl).

(** A limiter constructed at [now] with rate [rps] admits exactly
    [floor(capacity)] calls at that instant. *)
Definition burst_claim (rps : float64) (now : Z) : Prop :=
  let rl := NewRateLimiter rps now in
  match trunc (capacity rl) with
  | Some k => burst rl now (Z.to_nat k)
  | None => False
  end.

(** The same, decided by running the calls. *)
Definition burst_check (rps : float64) : bool :=
  let rl := NewRateLimiter rps 0 in
  match trunc (capacity rl) with
  | Some k =>
      bool_decide (snd (Allow_seq rl (repeat 0 (S (Z.to_nat k))))
                   = repeat true (Z.to_nat k) ++ [false])
  | None => false
  end.

(** The weighted walk read literally: some available provider has a
    cumulative weight above [r], and the first such one is returned. *)
Definition weighted_walk_claim (g : Gateway) (now r : Z) : Prop :=
  forall available,
    available_loop g (providers g) now = Return available ->
    available <> [] ->
    0 <= r < totalWeight g ->
    exists p, first_exceeding available r 0 = Some p /\
              SelectProvider g now r = Return (Some p).

(** Bounds on the magnitude of a float, in units of [2^-60]:
    [belowZ B m e] reads [m * 2^e <= B / 2^60] for an exponent [e <= 0]. *)
Definition belowZ (B m e : Z) : Prop := m * 2 ^ 60 <= B * 2 ^ (- e).

Definition small (B : Z) (x : float64) : Prop :=
  match x with
  | S754_zero _ => True
  | S754_finite _ m e => e <= 0 /\ belowZ B (Z.pos m) e
  | S754_infinity _ | S754_nan => False
  end.

(** [rounded s m2 e1 r]: the float [r] has the sign [s] and the value
    [m2 * 2^e1]; it is a zero when [m2 = 0]. *)
Definition rounded (s : bool) (m2 e1 : Z) (r : float64) : Prop :=
  (m2 = 0 /\ r = S754_zero s) \/
  (exists q e', r = S754_finite s q e' /\ e1 <= e' /\
                Z.pos q * 2 ^ (e' - e1) = m2 /\ valid r = true).

(** A non-negative float [x] with [lo <= x < hi], for integers [lo] and
    [hi]. *)
Definition fbetween (lo hi : Z) (x : float64) : Prop :=
  match x with
  | S754_zero _ => lo <= 0 < hi
  | S754_finite false m e =>
      valid x = true /\ e <= 0 /\ lo * 2 ^ (- e) <= Z.pos m < hi * 2 ^ (- e)
  | _ => False
  end.

(** A float that is neither an infinity nor a NaN. *)
Definition is_finite (x : float64) : bool :=
  match x with S754_zero _ | S754_finite _ _ _ => true | _ => false end.

(** The state of a limiter that still holds [i] whole tokens, its
    capacity holding [K], read by a call at the instant [t] of the last
    update. *)
Definition limiter_inv (K t i : Z) (rl : RateLimiter) : Prop :=
  is_finite (rate rl) = true /\
  fbetween K (K + 1) (capacity rl) /\
  lastUpdate rl = t /\
  i * 1000000000 <= tokens rl < (i + 1) * 1000000000.

(** The clock readings of successive requests never go back: [t] is the
    latest reading before the first request of [envs]. *)
Fixpoint clock_ordered (t : Z) (envs : list request_env) : Prop :=
  match envs with
  | [] => True
  | env :: rest =>
      t <= selectNow env /\ selectNow env <= markNow env /\
      clock_ordered (markNow env) rest
  end.

(** Metric calls and responses of a given kind. *)
Definition is_rateLimitHit (m : metric) : bool :=
  match m with rateLimitHits_Inc => true | _ => false end.
Definition is_requestsTotal (status : string) (m : metric) : bool :=
  match m with requestsTotal_Inc _ s => String.eqb s status | _ => false end.
Definition is_providerError (m : metric) : bool :=
  match m with providerErrors_Inc _ _ => true | _ => false end.
Definition is_observation (m : metric) : bool :=
  match m with requestDuration_Observe _ _ => true | _ => false end.
Definition has_code (c : Z) (r : response) : bool := code r =? c.
Definition count {A} (f : A -> bool) (l : list A) : nat := length (List.filter f l).

(** A float that is not negative: its sign bit is clear, or it is a NaN. *)
Definition not_negative (x : float64) : Prop :=
  match x with
  | S754_zero s | S754_infinity s | S754_finite s _ _ => s = false
  | S754_nan => True
  end.

(** A valid non-negative float [x] with [x <= B / 2^60]. *)
Definition fle (B : Z) (x : float64) : Prop :=
  match x with
  | S754_zero _ => True
  | S754_finite false m e => valid x = true /\ e <= 0 /\ belowZ B (Z.pos m) e
  | _ => False
  end.

(** A bound after one rounding to nearest: one unit in the last place
    above a value of at most [B / 2^60]. *)
Definition up (B : Z) : Z := B + B / 2 ^ 52 + 2.

(** The bound through one call of [Allow]: the balance read from [T]
    nano-tokens plus the refill for [d] nanoseconds at a rate of at most
    [Br / 2^60]. *)
Definition candidate_bound (T d Br : Z) : Z :=
  up (up (T * 2 ^ 60 / 1000000000 + 1) +
      up (up (d * 2 ^ 60 / 1000000000 + 1) * Br / 2 ^ 60 + 1)).

(** The capacity is the one [NewRateLimiter] computes from the rate. *)
Definition built (rl : RateLimiter) : Prop :=
  capacity rl = math_Max (of_Z 10) (mul (rate rl) (dec 1 10)).

(** The clock readings of calls made [gaps] apart, after the reading [t]. *)
Fixpoint arrivals (t : Z) (gaps : list Z) : list Z :=
  match gaps with
  | [] => []
  | d :: rest => (t + d) :: arrivals (t + d) rest
  end.

(** Calls made one after the other on a clock that does not go back:
    each reading is at or after the previous one, less than [2^53]
    nanoseconds (104 days) later. *)
Fixpoint clock_steps (t : Z) (nows : list Z) : Prop :=
  match nows with
  | [] => True
  | now :: rest => 0 <= now - t < 2 ^ 53 /\ clock_steps now rest
  end.

(** The gateway's limiter after the burst that empties it, at [t]. *)
Definition exhausted (t : Z) : RateLimiter :=
  at_instant (fst (Allow_seq (NewRateLimiter (of_Z 1000) 0) (repeat 0 100%nat))) t.

(** A non-negative float [x] with [L / 2^60 <= x]. *)
Definition fge (L : Z) (x : float64) : Prop :=
  match x with
  | S754_zero _ => L <= 0
  | S754_finite false m e => L * 2 ^ (- e) <= Z.pos m * 2 ^ 60
  | _ => False
  end.

(** A bound after one rounding to nearest, from below. *)
Definition down (L : Z) : Z := L - L / 2 ^ 52 - 2.

(** The lower bound through one call of [Allow], for a rate of at least
    [Lr / 2^60]. *)
Definition candidate_lower (T d Lr : Z) : Z :=
  down (Z.max 0 (down (down (T * 2 ^ 60 / 1000000000))) +
        Z.max 0 (down (Z.max 0 (down (down (d * 2 ^ 60 / 1000000000))) * Lr / 2 ^ 60))).

(** The increments of [providerErrors] for the provider [id]. *)
Definition is_errorOf (id : string) (m : metric) : bool :=
  match m with providerErrors_Inc p _ => String.eqb p id | _ => false end.

(** ** Concrete runs *)

(** A Unix clock reading in nanoseconds, and a [time.Time] reading. *)
Definition unix0 : Z := 1700000000000000000.
Definition clock0 : Z := 63900000000000000000.

(** One request per two seconds, after one admitted call. *)
Definition half_rate_limiter : RateLimiter :=
  fst (Allow (NewRateLimiter (dec 1 2) unix0) unix0).

(** 101 callers of the gateway's limiter: the first 99 run one after the
    other, the last two load both fields before either stores. *)
Definition race_schedule : list nat :=
  concat (map (fun i => [i; i; i; i]) (seq 0 99))
  ++ [99; 100; 99; 100; 99; 100; 99; 100]%nat.

(** [MarkFailure] on a provider that is known to have a health record. *)
Definition mark (g : Gateway) (providerID errorType : string) (now : Z)
    (rnd : float64) : Gateway :=
  match MarkFailure g providerID errorType now rnd with
  | Return g' => g'
  | Panic => g
  end.

(** The default gateway after a failure of [provider1]. *)
Definition gw_one_down : Gateway :=
  mark (NewGateway unix0) "provider1" "rate_limit" clock0 (dec 1 2).

(** The default gateway after two failures of [provider1], a billing
    failure of [provider2] and a failure of [provider3]. *)
Definition gw_all_down : Gateway :=
  mark (mark (mark gw_one_down "provider1" "rate_limit" (clock0 + Second) (dec 1 4))
             "provider2" "billing" (clock0 + 2 * Second) (dec 3 4))
       "provider3" "rate_limit" (clock0 + 3 * Second) (dec 1 2).

(** A state that no run produces: every provider has a deadline two days
    ahead of [clock0]. *)
Definition gw_far_deadlines : Gateway :=
  let h := {| ErrorCount := 1; LastFailure := clock0;
              CooldownUntil := clock0 + 48 * Hour; DisabledUntil := 0 |} in
  let g := NewGateway unix0 in
  {| providers := providers g;
     health := <["provider1"%string := h]>
                 (<["provider2"%string := h]> (<["provider3"%string := h]> ∅));
     limiter := limiter g;
     totalWeight := totalWeight g |}.

(** A request that reaches provider1 and fails there, and a later one
    that reaches provider2 and succeeds. *)
Definition request1 : request_env :=
  {| allowNow := unix0; selectNow := clock0; pick := 10; startNow := clock0;
     failDraw := dec 1 100; sinceNow := clock0 + 100 * Millisecond;
     markNow := clock0 + 100 * Millisecond; jitterDraw := dec 1 2 |}.
Definition request2 : request_env :=
  {| allowNow := unix0 + Second; selectNow := clock0 + Second; pick := 10;
     startNow := clock0 + Second; failDraw := dec 1 2;
     sinceNow := clock0 + Second + 500 * Millisecond;
     markNow := clock0 + Second + 500 * Millisecond; jitterDraw := dec 1 2 |}.

(** What serving the two requests on a fresh gateway produces. *)
Definition served : Gateway * list response * list metric :=
  match serve (NewGateway unix0) [request1; request2] with
  | Return x => x
  | Panic => (NewGateway unix0, [], [])
  end.

(** A burst of 100 requests at the instant the gateway is constructed,
    followed by two requests 0.4 ms and then 0.999999 ms later; no
    provider call fails. *)
Definition burst_request : request_env :=
  {| allowNow := unix0; selectNow := clock0; pick := 10; startNow := clock0;
     failDraw := dec 1 2; sinceNow := clock0 + 100 * Millisecond;
     markNow := clock0 + 100 * Millisecond; jitterDraw := dec 1 2 |}.
Definition late_request (unixNow : Z) : request_env :=
  {| allowNow := unixNow; selectNow := clock0 + Second; pick := 10;
     startNow := clock0 + Second; failDraw := dec 1 2;
     sinceNow := clock0 + Second + 100 * Millisecond;
     markNow := clock0 + Second + 100 * Millisecond; jitterDraw := dec 1 2 |}.
Definition overload_requests : list request_env :=
  repeat burst_request 100 ++ [late_request (unix0 + 400000);
                               late_request (unix0 + 400000 + 999999)].
Definition overload_run : Gateway * list response * list metric :=
  match serve (NewGateway unix0) overload_requests with
  | Return x => x
  | Panic => (NewGateway unix0, [], [])
  end.

(** * Properties *)

(** ** Integer wrap-around, durations, construction and reachable states *)

(** ** Integer wrap-around *)

Lemma wrap_small z : Int64.min_int <= z <= Int64.max_int -> Int64.wrap z = z.
Proof.
  unfold Int64.min_int, Int64.max_int, Int64.wrap. intros Hz.
  rewrite Z.mod_small; lia.
Qed.

Lemma Hour_value : Hour = 3600000000000.
Proof. reflexivity. Qed.

Lemma Minute_value : Minute = 60000000000.
Proof. reflexivity. Qed.

(** ** The cooldown never exceeds the cap *)

Lemma calculateCooldown_le_Hour errorCount errorType rnd :
  calculateCooldown errorCount errorType rnd <= Hour.
Proof.
  unfold calculateCooldown.
  destruct (errorCount <=? 0); [rewrite Hour_value; lia|].
  match goal with |- context [1 * Hour <? ?c] => generalize c end.
  intros c. destruct (Z.ltb_spec (1 * Hour) c); lia.
Qed.

(** ** Construction *)


Lemma NewGatewayWith_fold ps h w :
  fold_left (fun (acc : gmap string ProviderHealth * Z) p =>
               (<[ID p := zeroHealth]> (fst acc), Int64.add (snd acc) (Weight p)))
            ps (h, w)
  = (fold_left add_health ps h, fold_left add_weight ps w).
Proof.
  revert h w. induction ps as [|p ps IH]; intros h w; simpl; [reflexivity|].
  apply IH.
Qed.

Lemma add_health_lookup ps : forall (h : gmap string ProviderHealth) id x,
  fold_left add_health ps h !! id = Some x ->
  x = zeroHealth \/ h !! id = Some x.
Proof.
  induction ps as [|p ps IH]; intros h id x Hx; simpl in *; [now right|].
  apply IH in Hx as [->|Hx]; [now left|].
  unfold add_health in Hx.
  destruct (decide (ID p = id)) as [Heq|Hne].
  - subst id. rewrite lookup_insert_eq in Hx. left. congruence.
  - rewrite lookup_insert_ne in Hx by exact Hne. now right.
Qed.

Lemma add_health_keeps ps : forall (h : gmap string ProviderHealth) id,
  is_Some (h !! id) -> is_Some (fold_left add_health ps h !! id).
Proof.
  induction ps as [|p ps IH]; intros h id Hs; simpl; [exact Hs|].
  apply IH. unfold add_health.
  destruct (decide (ID p = id)) as [Heq|Hne].
  - subst id. rewrite lookup_insert_eq. eauto.
  - rewrite lookup_insert_ne by exact Hne. exact Hs.
Qed.

Lemma add_health_covers ps : forall (h : gmap string ProviderHealth) p,
  In p ps -> is_Some (fold_left add_health ps h !! ID p).
Proof.
  induction ps as [|q ps IH]; intros h p Hin; simpl in *; [contradiction|].
  destruct Hin as [->|Hin].
  - apply add_health_keeps. unfold add_health. rewrite lookup_insert_eq. eauto.
  - now apply IH.
Qed.

Lemma NewGatewayWith_inv ps unixNow t :
  0 <= t -> gateway_inv ps t (NewGatewayWith ps unixNow).
Proof.
  intros Ht. unfold NewGatewayWith. rewrite NewGatewayWith_fold.
  split; simpl.
  - reflexivity.
  - intros p Hp. now apply add_health_covers.
  - intros id h Hh. apply add_health_lookup in Hh as [->|Hh].
    + simpl. rewrite Hour_value. lia.
    + rewrite lookup_empty in Hh. discriminate.
  - reflexivity.
Qed.

Lemma gateway_inv_later ps t t' g :
  gateway_inv ps t g -> t <= t' -> gateway_inv ps t' g.
Proof.
  intros [Hp Hh Hd Hw] Hle. split; try assumption.
  intros id h Hl. destruct (Hd id h Hl). lia.
Qed.

Lemma MarkFailure_inv ps t g providerID errorType rnd g' :
  gateway_inv ps t g ->
  MarkFailure g providerID errorType t rnd = Return g' ->
  gateway_inv ps t g'.
Proof.
  intros [Hp Hh Hd Hw] HM. unfold MarkFailure in HM.
  destruct (health g !! providerID) as [h|] eqn:Hl; [|discriminate].
  injection HM as <-.
  pose proof (calculateCooldown_le_Hour (Int64.add (ErrorCount h) 1) errorType rnd) as Hc.
  destruct (Hd _ _ Hl) as [Hc1 Hc2].
  split; simpl; try assumption.
  - intros p Hin. destruct (decide (providerID = ID p)) as [Heq|Hne].
    + rewrite Heq, lookup_insert_eq. eauto.
    + rewrite lookup_insert_ne by exact Hne. now apply Hh.
  - intros id x Hx. destruct (decide (providerID = id)) as [Heq|Hne].
    + subst id. rewrite lookup_insert_eq in Hx. injection Hx as <-.
      unfold Time_Add. destruct (String.eqb errorType "billing"); simpl; lia.
    + rewrite lookup_insert_ne in Hx by exact Hne. now apply Hd with id.
Qed.

Lemma reachable_inv ps t g : reachable ps t g -> gateway_inv ps t g.
Proof.
  induction 1 as [unixNow t Ht | t t' g _ IH Hle | t g id ty rnd g' _ IH HM | t g unixNow _ IH].
  - now apply NewGatewayWith_inv.
  - now apply gateway_inv_later with t.
  - now apply MarkFailure_inv with g id ty rnd.
  - destruct IH as [Hp Hh Hd Hw]. split; assumption.
Qed.

(** ** Provider selection *)

Lemma expiry_of_max h : expiry_of h = Z.max (CooldownUntil h) (DisabledUntil h).
Proof.
  unfold expiry_of, Time_After.
  destruct (Z.ltb_spec (CooldownUntil h) (DisabledUntil h)); lia.
Qed.

(** ** The two loops of [SelectProvider] *)

Lemma available_loop_filter g now l :
  (forall p, In p l -> is_Some (health g !! ID p)) ->
  available_loop g l now = Return (List.filter (fun p => negb (unavailable g now p)) l).
Proof.
  induction l as [|p l IH]; intros Hh; simpl; [reflexivity|].
  rewrite IH by (intros q Hq; apply Hh; now right).
  unfold isInCooldown, unavailable.
  destruct (Hh p (or_introl eq_refl)) as [h Hl]. rewrite Hl.
  now destruct (Time_Before now (CooldownUntil h) || Time_Before now (DisabledUntil h)).
Qed.

Lemma weighted_loop_In l : forall r acc p,
  weighted_loop l r acc = Some p -> In p l.
Proof.
  induction l as [|q l IH]; intros r acc p H; simpl in H; [discriminate|].
  destruct (r <? Int64.add acc (Weight q)).
  - injection H as ->. now left.
  - right. eapply IH, H.
Qed.

Lemma sum_weights_nonneg l :
  Forall (fun p => 0 < Weight p) l -> 0 <= sum_weights l.
Proof. induction 1; simpl; lia. Qed.

Lemma sum_weights_filter_le (f : Provider -> bool) l :
  Forall (fun p => 0 < Weight p) l ->
  sum_weights (List.filter f l) <= sum_weights l.
Proof.
  induction 1 as [|p l Hp Hl IH]; simpl; [lia|].
  destruct (f p); simpl; lia.
Qed.

Lemma Forall_filter_weights (f : Provider -> bool) l :
  Forall (fun p => 0 < Weight p) l ->
  Forall (fun p => 0 < Weight p) (List.filter f l).
Proof.
  induction 1 as [|p l Hp Hl IH]; simpl; [constructor|].
  destruct (f p); [constructor|]; assumption.
Qed.

Lemma fold_add_weight l : forall acc,
  Forall (fun p => 0 < Weight p) l ->
  0 <= acc -> acc + sum_weights l <= Int64.max_int ->
  fold_left add_weight l acc = acc + sum_weights l.
Proof.
  induction l as [|p l IH]; intros acc Hw Hacc Hmax; simpl in *; [lia|].
  inversion Hw as [|? ? Hp Hl]; subst.
  pose proof (sum_weights_nonneg l Hl) as Hs.
  unfold add_weight at 2. unfold Int64.add.
  rewrite wrap_small by (unfold Int64.min_int; lia).
  rewrite IH by (try assumption; lia). lia.
Qed.

Lemma weighted_loop_first_exceeding l : forall r acc,
  Forall (fun p => 0 < Weight p) l ->
  0 <= acc -> acc + sum_weights l <= Int64.max_int ->
  weighted_loop l r acc = first_exceeding l r acc.
Proof.
  induction l as [|p l IH]; intros r acc Hw Hacc Hmax; simpl in *; [reflexivity|].
  inversion Hw as [|? ? Hp Hl]; subst.
  pose proof (sum_weights_nonneg l Hl) as Hs.
  unfold Int64.add. rewrite wrap_small by (unfold Int64.min_int; lia).
  destruct (r <? acc + Weight p); [reflexivity|].
  apply IH; try assumption; lia.
Qed.

(** ** The fallback loop *)

Lemma Expiry_le ps t g p :
  gateway_inv ps t g -> In p ps -> Expiry g p <= t + Hour.
Proof.
  intros [Hp Hh Hd Hw] Hin. unfold Expiry.
  destruct (Hh p Hin) as [h Hl]. rewrite Hl.
  destruct (Hd _ _ Hl). lia.
Qed.

Lemma soonest_loop_spec g l : forall selected soonest,
  (forall p, In p l -> is_Some (health g !! ID p)) ->
  exists sel,
    soonest_loop g l selected soonest = Return sel /\
    ((sel = selected /\ forall q, In q l -> soonest <= Expiry g q) \/
     (exists p l1 l2,
        sel = Some p /\ l = l1 ++ p :: l2 /\ Expiry g p < soonest /\
        (forall q, In q l1 -> Expiry g p < Expiry g q) /\
        (forall q, In q l2 -> Expiry g p <= Expiry g q))).
Proof.
  induction l as [|p0 l IH]; intros selected soonest Hh; simpl.
  - exists selected. split; [reflexivity|]. left. split; [reflexivity|]. intros q [].
  - destruct (Hh p0 (or_introl eq_refl)) as [h0 Hl0]. rewrite Hl0.
    assert (He0 : Expiry g p0 = expiry_of h0)
      by (unfold Expiry; now rewrite Hl0, expiry_of_max).
    assert (Hh' : forall p, In p l -> is_Some (health g !! ID p))
      by (intros q Hq; apply Hh; now right).
    unfold Time_Before. destruct (Z.ltb_spec (expiry_of h0) soonest) as [Hlt|Hge].
    + destruct (IH (Some p0) (expiry_of h0) Hh') as (sel & Hrun & Hcase).
      exists sel. split; [exact Hrun|]. right.
      destruct Hcase as [[-> Hall]|(p & l1 & l2 & -> & -> & Hp & H1 & H2)].
      * exists p0, [], l. rewrite He0. repeat split; try assumption.
        intros q [].
      * exists p, (p0 :: l1), l2. repeat split; try assumption; try lia.
        intros q [<-|Hq]; [lia|now apply H1].
    + destruct (IH selected soonest Hh') as (sel & Hrun & Hcase).
      exists sel. split; [exact Hrun|].
      destruct Hcase as [[-> Hall]|(p & l1 & l2 & -> & -> & Hp & H1 & H2)].
      * left. split; [reflexivity|]. intros q [<-|Hq]; [lia|now apply Hall].
      * right. exists p, (p0 :: l1), l2. repeat split; try assumption.
        intros q [<-|Hq]; [lia|now apply H1].
Qed.

Lemma selectSoonestExpiring_spec ps t g now :
  gateway_inv ps t g -> ps <> [] -> t <= now ->
  exists p l1 l2,
    selectSoonestExpiring g now = Return (Some p) /\ ps = l1 ++ p :: l2 /\
    (forall q, In q l1 -> Expiry g p < Expiry g q) /\
    (forall q, In q l2 -> Expiry g p <= Expiry g q).
Proof.
  intros Hinv Hne Hle. pose proof Hinv as [Hp Hh Hd Hw].
  unfold selectSoonestExpiring. rewrite Hp.
  destruct (soonest_loop_spec g ps None (Time_Add now (24 * Hour)) Hh)
    as (sel & Hrun & [[-> Hall]|(p & l1 & l2 & -> & -> & _ & H1 & H2)]).
  - destruct ps as [|q ps]; [contradiction|].
    specialize (Hall q (or_introl eq_refl)).
    pose proof (Expiry_le _ _ _ q Hinv (or_introl eq_refl)) as Hq.
    unfold Time_Add in Hall. rewrite Hour_value in *. lia.
  - exists p, l1, l2. repeat split; assumption.
Qed.

Lemma totalWeight_sum ps t g :
  gateway_inv ps t g ->
  Forall (fun p => 0 < Weight p) ps -> sum_weights ps <= Int64.max_int ->
  totalWeight g = sum_weights ps.
Proof.
  intros [Hp Hh Hd Hw] Hpos Hmax. rewrite Hw.
  rewrite fold_add_weight by (try assumption; lia). lia.
Qed.

Lemma sum_weights_pos ps :
  ps <> [] -> Forall (fun p => 0 < Weight p) ps -> 0 < sum_weights ps.
Proof.
  intros Hne Hpos. destruct Hpos as [|p l Hp Hl]; [contradiction|].
  pose proof (sum_weights_nonneg l Hl). simpl. lia.
Qed.

Lemma filter_In_providers (f : Provider -> bool) (p : Provider) l :
  In p (List.filter f l) -> In p l.
Proof. intros H. now apply List.filter_In in H as [H _]. Qed.

Lemma first_exceeding_None l : forall r acc,
  Forall (fun p => 0 < Weight p) l -> acc <= r ->
  (first_exceeding l r acc = None <-> acc + sum_weights l <= r).
Proof.
  induction l as [|p l IH]; intros r acc Hpos Hacc; simpl.
  - split; [intros _|reflexivity]. lia.
  - inversion Hpos as [|? ? Hp Hl]; subst.
    pose proof (sum_weights_nonneg l Hl) as Hs.
    destruct (Z.ltb_spec r (acc + Weight p)) as [Hlt|Hge].
    + split; [discriminate|lia].
    + rewrite IH by assumption. lia.
Qed.

(** C7: for every gateway configured with at least one target (of
    positive weights whose sum fits an [int64]), in every state it can
    reach, [SelectProvider] returns one of the configured targets: it
    neither panics nor returns nil, whatever the draw [r] and also when
    every target is in cooldown or disabled. *)
Theorem SelectProvider_never_fails ps t g now r :
  reachable ps t g -> t <= now -> ps <> [] ->
  Forall (fun p => 0 < Weight p) ps -> sum_weights ps <= Int64.max_int ->
  exists p, SelectProvider g now r = Return (Some p) /\ In p ps.
Proof.
  intros Hreach Hle Hne Hpos Hmax.
  pose proof (reachable_inv _ _ _ Hreach) as Hinv.
  pose proof Hinv as [Hp Hh Hd Hw].
  unfold SelectProvider. rewrite Hp, (available_loop_filter g now ps Hh).
  destruct (List.filter _ ps) as [|first rest] eqn:Hf.
  - destruct (selectSoonestExpiring_spec ps t g now Hinv Hne Hle)
      as (p & l1 & l2 & Hsel & -> & _).
    exists p. split; [exact Hsel|]. apply in_or_app. right. now left.
  - rewrite (totalWeight_sum ps t g Hinv Hpos Hmax).
    pose proof (sum_weights_pos ps Hne Hpos) as Hs.
    destruct (Z.leb_spec (sum_weights ps) 0) as [Hbad|_]; [lia|].
    destruct (weighted_loop (first :: rest) r 0) as [p|] eqn:Hw'.
    + exists p. split; [reflexivity|].
      apply weighted_loop_In in Hw'. rewrite <- Hf in Hw'.
      eapply filter_In_providers, Hw'.
    + exists first. split; [reflexivity|].
      eapply filter_In_providers. rewrite Hf. now left.
Qed.

(** C8: when every configured target is unavailable at [now], the result of
    [SelectProvider] does not depend on the random draw, and it is the
    target whose [max(cooldownUntil, disabledUntil)] is the earliest (the
    first such target in configuration order when several share it). *)
Theorem SelectProvider_all_unavailable ps t g now :
  reachable ps t g -> t <= now -> ps <> [] ->
  (forall p, In p ps -> unavailable g now p = true) ->
  exists p l1 l2,
    (forall r, SelectProvider g now r = Return (Some p)) /\
    ps = l1 ++ p :: l2 /\
    (forall q, In q l1 -> Expiry g p < Expiry g q) /\
    (forall q, In q l2 -> Expiry g p <= Expiry g q).
Proof.
  intros Hreach Hle Hne Hall.
  pose proof (reachable_inv _ _ _ Hreach) as Hinv.
  pose proof Hinv as [Hp Hh Hd Hw].
  destruct (selectSoonestExpiring_spec ps t g now Hinv Hne Hle)
    as (p & l1 & l2 & Hsel & Hps & H1 & H2).
  exists p, l1, l2. repeat split; try assumption.
  intros r. unfold SelectProvider.
  rewrite Hp, (available_loop_filter g now ps Hh).
  replace (List.filter (fun p0 => negb (unavailable g now p0)) ps) with (@nil Provider);
    [exact Hsel|].
  symmetry. clear -Hall. induction ps as [|q ps IH]; simpl; [reflexivity|].
  rewrite (Hall q (or_introl eq_refl)). simpl.
  apply IH. intros p Hin. apply Hall. now right.
Qed.

(** C9 (as amended): when at least one target is available, with [r] drawn
    from [[0, totalWeight)] and [totalWeight] the sum of the weights of all
    configured targets, [SelectProvider] walks the available targets in
    configuration order and returns the first one whose cumulative weight
    exceeds [r]; when none does, that is when [r] is at least the sum of
    the available weights, it returns the first available target. *)
Theorem SelectProvider_weighted_walk ps t g now r first rest :
  reachable ps t g ->
  Forall (fun p => 0 < Weight p) ps -> sum_weights ps <= Int64.max_int ->
  available_loop g (providers g) now = Return (first :: rest) ->
  0 <= r < totalWeight g ->
  totalWeight g = sum_weights ps /\
  first :: rest = List.filter (fun p => negb (unavailable g now p)) ps /\
  (first_exceeding (first :: rest) r 0 = None <-> sum_weights (first :: rest) <= r) /\
  SelectProvider g now r =
    Return (Some (match first_exceeding (first :: rest) r 0 with
                  | Some p => p
                  | None => first
                  end)).
Proof.
  intros Hreach Hpos Hmax Hav Hr.
  pose proof (reachable_inv _ _ _ Hreach) as Hinv.
  pose proof Hinv as [Hp Hh Hd Hw].
  pose proof (totalWeight_sum ps t g Hinv Hpos Hmax) as Htw.
  assert (Hf : first :: rest = List.filter (fun p => negb (unavailable g now p)) ps).
  { rewrite Hp, (available_loop_filter g now ps Hh) in Hav. now injection Hav. }
  assert (Hposf : Forall (fun p => 0 < Weight p) (first :: rest))
    by (rewrite Hf; now apply Forall_filter_weights).
  assert (Hsumf : sum_weights (first :: rest) <= sum_weights ps)
    by (rewrite Hf; now apply sum_weights_filter_le).
  split; [exact Htw|]. split; [exact Hf|]. split.
  - rewrite first_exceeding_None by (try exact Hposf; lia). lia.
  - unfold SelectProvider. rewrite Hav.
    destruct (Z.leb_spec (totalWeight g) 0) as [Hbad|_]; [lia|].
    rewrite weighted_loop_first_exceeding by (try assumption; lia).
    now destruct (first_exceeding (first :: rest) r 0).
Qed.

(** C6: [MarkFailure] for a known provider increments [ErrorCount] and sets
    [LastFailure] to [now]; with the error type ["billing"] it writes the
    deadline [now + cooldown] to [DisabledUntil] and leaves [CooldownUntil]
    as it was, with any other type it writes it to [CooldownUntil] and
    leaves [DisabledUntil] as it was. Nothing else changes. *)
Theorem MarkFailure_effect g providerID errorType now rnd h :
  health g !! providerID = Some h ->
  Int64.min_int <= ErrorCount h < Int64.max_int ->
  exists g' h',
    MarkFailure g providerID errorType now rnd = Return g' /\
    health g' !! providerID = Some h' /\
    ErrorCount h' = ErrorCount h + 1 /\
    LastFailure h' = now /\
    (errorType = "billing"%string ->
       DisabledUntil h' = now + calculateCooldown (ErrorCount h') errorType rnd /\
       CooldownUntil h' = CooldownUntil h) /\
    (errorType <> "billing"%string ->
       CooldownUntil h' = now + calculateCooldown (ErrorCount h') errorType rnd /\
       DisabledUntil h' = DisabledUntil h) /\
    (forall id, id <> providerID -> health g' !! id = health g !! id) /\
    providers g' = providers g /\ totalWeight g' = totalWeight g /\
    limiter g' = limiter g.
Proof.
  intros Hl Hrange. unfold MarkFailure. rewrite Hl.
  assert (Hinc : Int64.add (ErrorCount h) 1 = ErrorCount h + 1).
  { unfold Int64.add. apply wrap_small. unfold Int64.min_int, Int64.max_int in *. lia. }
  eexists. eexists. split; [reflexivity|]. simpl.
  split; [apply lookup_insert_eq|].
  destruct (String.eqb_spec errorType "billing") as [Heq|Hne]; simpl;
    rewrite Hinc; unfold Time_Add;
    (split; [reflexivity|]); (split; [reflexivity|]);
    (split; [intros Hb; try contradiction; split; reflexivity|]);
    (split; [intros Hb; try contradiction; split; reflexivity|]);
    (split; [intros id Hid; apply lookup_insert_ne; congruence|]);
    repeat split.
Qed.

(** ** The token bucket *)

(** C1 (as amended): for every call of [Allow], and of [AllowMutex], with
    [c] the candidate [min(capacity, tokens + elapsed * rate)]: the call
    answers [c >= 1.0] and stores [now] in [lastUpdate]; when it admits it
    stores [int64((c - 1) * 1e9)] in [tokens], that is [c - 1] truncated
    to a whole number of nano-tokens; when it denies it leaves [tokens]
    unchanged. *)
Theorem Allow_admission rl now :
  let c := candidate rl now in
  let cm := candidateMutex rl now in
  Allow rl now =
    ({| rate := rate rl; capacity := capacity rl;
        tokens := if geb c one then to_int64 (mul (sub c one) c1e9) else tokens rl;
        lastUpdate := now |}, geb c one) /\
  AllowMutex rl now =
    ({| rate := rate rl; capacity := capacity rl;
        tokens := if geb cm one then to_int64 (mul (sub cm one) c1e9) else tokens rl;
        lastUpdate := now |}, geb cm one).
Proof.
  intros c cm. split.
  - unfold Allow. fold (balance rl). fold (candidate rl now). fold c.
    now destruct (geb c one).
  - unfold AllowMutex. fold (balance rl). fold (candidateMutex rl now). fold cm.
    now destruct (geb cm one).
Qed.

(** C1 as stated fails: at one request per two seconds, one nanosecond
    after an admitted call, the candidate is [9.0000000005] tokens and the
    balance left for the next call is [8] tokens, not [8.0000000005]. *)
Lemma Allow_persist_counterexample : ~ persist_claim half_rate_limiter (unix0 + 1).
Proof.
  intros (_ & _ & H & _).
  assert (Hadm : geb (candidate half_rate_limiter (unix0 + 1)) one = true)
    by (vm_compute; reflexivity).
  specialize (H Hadm). vm_compute in H. discriminate H.
Qed.

Lemma Allow_at_instant rl t :
  Allow (at_instant rl t) t =
    (at_instant (fst (Allow (at_instant rl 0) 0)) t, snd (Allow (at_instant rl 0) 0)).
Proof.
  unfold Allow, at_instant. cbn [rate capacity tokens lastUpdate].
  unfold Int64.sub. rewrite !Z.sub_diag.
  match goal with |- context [geb ?c one] => destruct (geb c one) end; reflexivity.
Qed.

Lemma Allow_seq_at_instant n : forall rl t,
  snd (Allow_seq (at_instant rl t) (repeat t n)) =
  snd (Allow_seq (at_instant rl 0) (repeat 0 n)).
Proof.
  induction n as [|n IH]; intros rl t; simpl; [reflexivity|].
  rewrite (Allow_at_instant rl t).
  destruct (Allow (at_instant rl 0) 0) as [rl1 ok] eqn:H0. simpl.
  specialize (IH rl1 t).
  destruct (Allow_seq (at_instant rl1 t) (repeat t n)) as [ra oka].
  assert (Hrl1 : rl1 = at_instant rl1 0).
  { pose proof (f_equal fst H0) as Hf. simpl in Hf. rewrite <- Hf.
    unfold Allow, at_instant. cbn [rate capacity tokens lastUpdate].
    match goal with |- context [geb ?c one] => destruct (geb c one) end; reflexivity. }
  rewrite Hrl1.
  destruct (Allow_seq (at_instant rl1 0) (repeat 0 n)) as [rb okb].
  simpl in *. now rewrite IH.
Qed.

Lemma burst_check_sound rps now : burst_check rps = true -> burst_claim rps now.
Proof.
  unfold burst_check, burst_claim, burst.
  change (capacity (NewRateLimiter rps now)) with (capacity (NewRateLimiter rps 0)).
  destruct (trunc (capacity (NewRateLimiter rps 0))) as [k|]; [|discriminate].
  intros H. apply bool_decide_eq_true in H.
  change (NewRateLimiter rps now) with (at_instant (NewRateLimiter rps 0) now).
  rewrite Allow_seq_at_instant. exact H.
Qed.

(** The gateway's own limiter, run on the model: a rate of 1000 admits
    100 calls and denies the next. *)
Lemma burst_check_gateway_rate : burst_check (of_Z 1000) = true.
Proof. vm_compute. reflexivity. Qed.



(** A caller that runs its four operations without interruption behaves
    as [Allow]. *)
Lemma caller_alone rl now :
  run [0; 0; 0; 0]%nat (rl, [AtEntry now]) =
  (fst (Allow rl now), [Returned (snd (Allow rl now))]).
Proof.
  unfold run, Allow.
  cbn [fold_left sched_step lookup list_lookup caller_step insert list_insert
       rate capacity tokens lastUpdate].
  match goal with |- context [geb ?c one] => destruct (geb c one) end; reflexivity.
Qed.

(** C3 (fails on [Allow]): on the gateway's limiter, rate 1000 and capacity
    100, take 101 callers at one instant. When the last two both load
    [tokens] before either stores it, all 101 calls are admitted; the
    single-threaded limiter admits 100 of them, which is also the bound
    [capacity + rate * T] for a window of length [T = 0]. *)
Theorem Allow_race_over_admits :
  let rl := NewRateLimiter (of_Z 1000) unix0 in
  let cfg := run race_schedule (rl, repeat (AtEntry unix0) 101) in
  snd cfg = repeat (Returned true) 101 /\
  admissions cfg = 101%nat /\
  count_admitted (snd (Allow_seq rl (repeat unix0 101))) = 100%nat /\
  trunc (capacity rl) = Some 100.
Proof. vm_compute. repeat split; reflexivity. Qed.

(** ** Rounding to binary64: the integer arithmetic behind it *)

Lemma digits2_bounds p :
  2 ^ (Z.pos (digits2_pos p) - 1) <= Z.pos p < 2 ^ Z.pos (digits2_pos p).
Proof.
  induction p as [p IH|p IH|]; simpl digits2_pos.
  - rewrite Pos2Z.inj_succ, (Pos2Z.inj_xI p).
    replace (Z.succ (Z.pos (digits2_pos p)) - 1) with (Z.succ (Z.pos (digits2_pos p) - 1)) by lia.
    rewrite !Z.pow_succ_r by lia. lia.
  - rewrite Pos2Z.inj_succ, (Pos2Z.inj_xO p).
    replace (Z.succ (Z.pos (digits2_pos p)) - 1) with (Z.succ (Z.pos (digits2_pos p) - 1)) by lia.
    rewrite !Z.pow_succ_r by lia. lia.
  - simpl. lia.
Qed.

Lemma pow2_pos n : 0 < 2 ^ n \/ n < 0.
Proof. destruct (Z.lt_ge_cases n 0); [now right|left; now apply Z.pow_pos_nonneg]. Qed.

Lemma pow2_lt_exp a b : 0 <= b -> 2 ^ a < 2 ^ b -> a < b.
Proof. intros Hb H. apply Z.pow_lt_mono_r_iff in H; lia. Qed.

Lemma digits2_le p k : 0 <= k -> Z.pos p < 2 ^ k -> Z.pos (digits2_pos p) <= k.
Proof.
  intros Hk Hp. pose proof (digits2_bounds p) as [Hlo _].
  assert (H : 2 ^ (Z.pos (digits2_pos p) - 1) < 2 ^ k) by lia.
  apply pow2_lt_exp in H; lia.
Qed.

Lemma shr_m_shr_1 mrs : 0 <= shr_m mrs -> shr_m (shr_1 mrs) = shr_m mrs / 2.
Proof.
  destruct mrs as [m r s]. simpl. intros Hm.
  rewrite <- Z.div2_div.
  destruct m as [|p|p]; [reflexivity| |lia].
  destruct p; reflexivity.
Qed.

Lemma shr_m_iter p : forall mrs,
  0 <= shr_m mrs -> shr_m (SpecFloat.iter_pos shr_1 p mrs) = shr_m mrs / 2 ^ Z.pos p.
Proof.
  assert (Hnn : forall a b, 0 <= a -> 0 < b -> 0 <= a / b)
    by (intros; now apply Z.div_pos).
  induction p as [p IH|p IH|]; intros mrs Hm; simpl SpecFloat.iter_pos.
  - assert (H2 : 0 < 2 ^ Z.pos p) by (apply Z.pow_pos_nonneg; lia).
    rewrite IH, IH, shr_m_shr_1 by
      (rewrite ?IH, ?shr_m_shr_1 by (rewrite ?shr_m_shr_1 by assumption; auto with zarith);
       auto with zarith).
    rewrite !Z.div_div by lia.
    f_equal. rewrite (Pos2Z.inj_xI p).
    replace (2 * Z.pos p + 1) with (1 + Z.pos p + Z.pos p) by lia.
    rewrite !Z.pow_add_r by lia. lia.
  - assert (H2 : 0 < 2 ^ Z.pos p) by (apply Z.pow_pos_nonneg; lia).
    rewrite IH, IH by (rewrite ?IH by assumption; auto with zarith).
    rewrite !Z.div_div by lia.
    f_equal. rewrite (Pos2Z.inj_xO p).
    replace (2 * Z.pos p) with (Z.pos p + Z.pos p) by lia.
    rewrite !Z.pow_add_r by lia. lia.
  - rewrite shr_m_shr_1 by assumption. reflexivity.
Qed.

Lemma shr_nonpos mrs e n : n <= 0 -> shr mrs e n = (mrs, e).
Proof. destruct n; [reflexivity|lia|reflexivity]. Qed.

Lemma shr_pos mrs e n :
  0 < n -> 0 <= shr_m mrs ->
  shr_m (fst (shr mrs e n)) = shr_m mrs / 2 ^ n /\ snd (shr mrs e n) = e + n.
Proof.
  intros Hn Hm. destruct n as [|p|p]; try lia. simpl.
  split; [now apply shr_m_iter|reflexivity].
Qed.

Lemma round_nearest_even_bounds m l :
  m <= round_nearest_even m l <= m + 1.
Proof.
  destruct l as [|[| |]]; simpl; try lia.
  destruct (Z.even m); lia.
Qed.

Lemma mul_le_cancel_r a c k : 0 < k -> a * k <= c * k -> a <= c.
Proof. intros Hk H. now apply Z.mul_le_mono_pos_r in H. Qed.

Lemma fexp_value x : fexp prec emax x = Z.max (x - 53) (-1074).
Proof. reflexivity. Qed.

(** Dropping [k] low bits keeps a bound of the form [belowZ]. *)
Lemma belowZ_shift B q e k :
  0 <= q -> 0 < k -> e + k <= 0 -> 0 <= B ->
  belowZ B q e -> belowZ B (q / 2 ^ k) (e + k).
Proof.
  unfold belowZ. intros Hq Hk He HB H.
  assert (Hk2 : 0 < 2 ^ k) by (apply Z.pow_pos_nonneg; lia).
  replace (- e) with (- (e + k) + k) in H by lia.
  rewrite Z.pow_add_r in H by lia.
  pose proof (Z.mul_div_le q (2 ^ k) Hk2) as Hdiv.
  apply mul_le_cancel_r with (2 ^ k); [exact Hk2|].
  assert (H60 : 0 < 2 ^ 60) by lia.
  nia.
Qed.

Lemma belowZ_digits B p e :
  e <= 0 -> 0 <= B <= 2 ^ 60 -> belowZ B (Z.pos p) e ->
  Z.pos (digits2_pos p) + e <= 1.
Proof.
  unfold belowZ. intros He HB H.
  assert (He2 : 0 < 2 ^ (- e)) by (apply Z.pow_pos_nonneg; lia).
  assert (Hp : Z.pos p <= 2 ^ (- e)) by nia.
  assert (Hp2 : Z.pos p < 2 ^ (- e + 1)) by (rewrite Z.pow_add_r by lia; lia).
  apply digits2_le in Hp2; lia.
Qed.

(** One normalisation stage on an exact mantissa. *)
Lemma shr_fexp_below B m e :
  0 <= m -> e <= 0 -> 0 <= B <= 2 ^ 60 -> belowZ B m e ->
  exists mrs e',
    shr_fexp prec emax m e loc_Exact = (mrs, e') /\
    0 <= shr_m mrs /\ e' <= 0 /\ belowZ B (shr_m mrs) e' /\
    ((mrs = Build_shr_record m false false /\ e' = e) \/ (e' <= -52)).
Proof.
  intros Hm He HB Hb. unfold shr_fexp. simpl shr_record_of_loc.
  set (n := fexp prec emax (Zdigits2 m + e) - e).
  destruct (Z_le_gt_dec n 0) as [Hn|Hn].
  - rewrite shr_nonpos by exact Hn.
    eexists _, _. split; [reflexivity|]. simpl. repeat split; try assumption.
    left. split; reflexivity.
  - assert (Hd : Zdigits2 m + e <= 1).
    { destruct m as [|p|p]; simpl; [lia| |lia]. now apply belowZ_digits with B. }
    assert (He1 : e + n <= -52) by (unfold n; rewrite fexp_value; lia).
    destruct (shr_pos (Build_shr_record m false false) e n) as [H1 H2];
      [lia|simpl; lia|].
    destruct (shr (Build_shr_record m false false) e n) as [mrs e'] eqn:Hs.
    simpl in H1, H2. subst e'.
    exists mrs, (e + n). split; [reflexivity|]. rewrite H1.
    assert (Hk2 : 0 < 2 ^ n) by (apply Z.pow_pos_nonneg; lia).
    split; [apply Z.div_pos; lia|]. split; [lia|].
    split; [apply belowZ_shift; (lia || assumption)|].
    right. lia.
Qed.

(** Rounding a number bounded by [B / 2^60 <= 1 - 2^-52] gives a float
    bounded by [(B + 2^8) / 2^60]. *)
Lemma binary_round_aux_small B s m e :
  e <= 0 -> 0 <= B -> B + 2 ^ 8 <= 2 ^ 60 -> belowZ B (Z.pos m) e ->
  small (B + 2 ^ 8) (binary_round_aux prec emax s (Z.pos m) e loc_Exact).
Proof.
  intros He HB0 HB Hb. unfold binary_round_aux.
  destruct (shr_fexp_below B (Z.pos m) e) as (mrs1 & e1 & -> & Hm1 & He1 & Hb1 & Hc1);
    [lia|lia|lia|exact Hb|].
  set (m2 := round_nearest_even (shr_m mrs1) (loc_of_shr_record mrs1)).
  assert (Hm2 : 0 <= m2 /\ belowZ (B + 2 ^ 8) m2 e1).
  { pose proof (round_nearest_even_bounds (shr_m mrs1) (loc_of_shr_record mrs1)) as Hr.
    fold m2 in Hr. split; [lia|].
    unfold belowZ in *.
    assert (Hp : 0 < 2 ^ (- e1)) by (apply Z.pow_pos_nonneg; lia).
    destruct Hc1 as [[-> ->]|Hlow].
    - unfold m2. simpl. simpl in Hb1. nia.
    - assert (H52 : 2 ^ 52 <= 2 ^ (- e1)) by (apply Z.pow_le_mono_r; lia).
      nia. }
  destruct Hm2 as [Hm2 Hb2].
  destruct (shr_fexp_below (B + 2 ^ 8) m2 e1) as (mrs2 & e2 & -> & Hm3 & He2 & Hb3 & _);
    [lia|lia|lia|exact Hb2|].
  destruct (shr_m mrs2) as [|q|q] eqn:Hq; [exact I| |lia].
  destruct (Z.leb_spec e2 (emax - prec)) as [_|Hbad].
  - simpl. split; assumption.
  - unfold emax, prec in Hbad. lia.
Qed.

Lemma small_trunc B x : B < 2 ^ 60 -> small B x -> trunc x = Some 0.
Proof.
  intros HB Hx. destruct x as [s|s| |s m e]; simpl in *; try contradiction; [reflexivity|].
  destruct Hx as [He Hb]. unfold belowZ in Hb.
  assert (Hp : 0 < 2 ^ (- e)) by (apply Z.pow_pos_nonneg; lia).
  assert (Hm : Z.pos m < 2 ^ (- e)) by nia.
  assert (He' : e < 0).
  { destruct (Z.eq_dec e 0) as [->|]; [simpl in Hm; lia|lia]. }
  rewrite Z.shiftl_div_pow2 by lia.
  rewrite Z.div_small by lia. now destruct s.
Qed.

Lemma small_mono B B' x : B <= B' -> small B x -> small B' x.
Proof.
  intros HB. destruct x as [s|s| |s m e]; simpl; try tauto.
  unfold belowZ. intros [He Hb]. split; [exact He|].
  assert (Hp : 0 < 2 ^ (- e)) by (apply Z.pow_pos_nonneg; lia). nia.
Qed.

Lemma pos_iter_xO m d : Z.pos (Pos.iter xO m d) = Z.pos m * 2 ^ Z.pos d.
Proof.
  induction d as [|d IH] using Pos.peano_ind.
  - simpl Pos.iter. rewrite (Pos2Z.inj_xO m). lia.
  - rewrite Pos.iter_succ, (Pos2Z.inj_xO (Pos.iter xO m d)), IH, Pos2Z.inj_succ.
    rewrite Z.pow_succ_r by lia. lia.
Qed.

Lemma shl_align_spec m e e' :
  snd (shl_align m e e') <= e /\
  (e' <= e -> snd (shl_align m e e') = e') /\
  Z.pos (fst (shl_align m e e')) = Z.pos m * 2 ^ (e - snd (shl_align m e e')).
Proof.
  unfold shl_align. destruct (e' - e) as [|d|d] eqn:Hd; simpl.
  - rewrite Z.sub_diag. simpl. lia.
  - rewrite Z.sub_diag. simpl. lia.
  - rewrite pos_iter_xO. replace (e - e') with (Z.pos d) by lia. lia.
Qed.

Lemma belowZ_align B m e e' :
  e' <= e -> e <= 0 -> belowZ B m e -> belowZ B (m * 2 ^ (e - e')) e'.
Proof.
  unfold belowZ. intros Hle He H.
  replace (- e') with (- e + (e - e')) by lia.
  rewrite Z.pow_add_r by lia.
  assert (Hp : 0 < 2 ^ (e - e')) by (apply Z.pow_pos_nonneg; lia).
  nia.
Qed.

Lemma belowZ_add B1 B2 a b e :
  belowZ B1 a e -> belowZ B2 b e -> belowZ (B1 + B2) (a + b) e.
Proof. unfold belowZ. lia. Qed.

Lemma belowZ_le B a b e : 0 <= b <= a -> belowZ B a e -> belowZ B b e.
Proof.
  unfold belowZ. intros Hb H.
  assert (H60 : 0 < 2 ^ 60) by lia. nia.
Qed.

Lemma binary_round_small B s a e :
  e <= 0 -> 0 <= B -> B + 2 ^ 8 <= 2 ^ 60 -> belowZ B (Z.pos a) e ->
  small (B + 2 ^ 8) (binary_round prec emax s a e).
Proof.
  intros He HB0 HB Hb. unfold binary_round.
  destruct (shl_align_spec a e (fexp prec emax (Z.pos (digits2_pos a) + e)))
    as (Hle & _ & Hm).
  destruct (shl_align a e _) as [mz ez]. simpl in Hle, Hm.
  apply binary_round_aux_small; try lia.
  rewrite Hm. now apply belowZ_align.
Qed.

Lemma binary_normalize_small B a e :
  e <= 0 -> 0 <= B -> B + 2 ^ 8 <= 2 ^ 60 -> belowZ B (Z.abs a) e ->
  small (B + 2 ^ 8) (binary_normalize prec emax a e false).
Proof.
  intros He HB0 HB Hb. destruct a as [|p|p]; simpl in *.
  - exact I.
  - now apply binary_round_small.
  - now apply binary_round_small.
Qed.

(** The constants of the jitter expression. *)
Lemma c06_value : dec 6 10 = S754_finite false 5404319552844595 (-53).
Proof. vm_compute. reflexivity. Qed.
Lemma c03_value : dec 3 10 = S754_finite false 5404319552844595 (-54).
Proof. vm_compute. reflexivity. Qed.
Lemma one_value : one = S754_finite false 4503599627370496 (-52).
Proof. vm_compute. reflexivity. Qed.

(** A valid float below one has its mantissa below [2^-e]. *)
Lemma below_one_mantissa m e :
  valid (S754_finite false m e) = true ->
  ltb (S754_finite false m e) one = true ->
  e <= 0 /\ Z.pos m < 2 ^ (- e).
Proof.
  unfold valid, valid_binary, bounded, canonical_mantissa, ltb, SFltb.
  rewrite one_value, fexp_value. unfold SFcompare.
  intros Hv Hlt. apply andb_prop in Hv as [Hc _]. apply Z.eqb_eq in Hc.
  pose proof (digits2_bounds m) as [_ Hd].
  destruct (Z.compare_spec e (-52)) as [->|Hlt'|Hgt]; try discriminate.
  - split; [lia|]. change (- -52) with 52.
    destruct (Pos.compare_cont Eq m 4503599627370496) eqn:Hcmp; try discriminate.
    assert (Hlt2 : (m < 4503599627370496)%positive) by exact Hcmp.
    clear - Hlt2. apply Pos2Z.pos_lt_pos in Hlt2. lia.
  - split; [lia|].
    assert (Hd53 : Z.pos (digits2_pos m) <= 53) by lia.
    assert (H1 : 2 ^ Z.pos (digits2_pos m) <= 2 ^ 53) by (apply Z.pow_le_mono_r; lia).
    assert (H2 : 2 ^ 53 <= 2 ^ (- e)) by (apply Z.pow_le_mono_r; lia).
    lia.
Qed.

(** The product with [0.6] of a float of the unit interval. *)
Lemma mul_c06_small u :
  valid u = true -> leb zero u = true -> ltb u one = true ->
  small (5404319552844595 * 2 ^ 7 + 2 ^ 8) (mul u (dec 6 10)).
Proof.
  intros Hv H0 H1. rewrite c06_value.
  destruct u as [s|[|]| |[|] m e];
    [exact I | discriminate H0 | discriminate H1 | discriminate H1 | discriminate H0 | ].
  destruct (below_one_mantissa m e Hv H1) as [He Hm].
  unfold mul, SFmul. apply binary_round_aux_small; try lia.
  unfold belowZ. rewrite Pos2Z.inj_mul.
  replace (- (e + -53)) with (- e + 53) by lia.
  rewrite Z.pow_add_r by lia. nia.
Qed.

(** Subtracting [0.3] from a small float. *)
Lemma sub_c03_small B p :
  0 <= B -> B + 5404319552844595 * 2 ^ 6 + 2 ^ 8 <= 2 ^ 60 -> small B p ->
  small (B + 5404319552844595 * 2 ^ 6 + 2 ^ 8) (sub p (dec 3 10)).
Proof.
  intros HB0 HB Hp. rewrite c03_value.
  destruct p as [s|s| |s m e]; simpl in Hp; try contradiction.
  - simpl. split; [lia|]. unfold belowZ. simpl. lia.
  - destruct Hp as [He Hb]. unfold sub, SFsub.
    set (ez := Z.min e (-54)).
    destruct (shl_align_spec m e ez) as (_ & H1 & H1').
    destruct (shl_align_spec 5404319552844595 (-54) ez) as (_ & H3 & H3').
    rewrite H1 in H1' by lia. rewrite H3 in H3' by lia.
    apply binary_normalize_small; try lia.
    assert (Ha : belowZ B (Z.pos (fst (shl_align m e ez))) ez)
      by (rewrite H1'; apply belowZ_align; (lia || assumption)).
    assert (Hc : belowZ (5404319552844595 * 2 ^ 6)
                        (Z.pos (fst (shl_align 5404319552844595 (-54) ez))) ez).
    { rewrite H3'. apply belowZ_align; try lia. unfold belowZ. simpl. lia. }
    apply belowZ_le with (Z.pos (fst (shl_align m e ez))
                          + Z.pos (fst (shl_align 5404319552844595 (-54) ez))).
    + unfold cond_Zopp. destruct s; lia.
    + now apply belowZ_add.
Qed.

(** The jitter factor truncates to zero. *)
Lemma jitter_factor_zero u :
  valid u = true -> leb zero u = true -> ltb u one = true ->
  to_int64 (sub (mul u (dec 6 10)) (dec 3 10)) = 0.
Proof.
  intros Hv H0 H1. unfold to_int64.
  rewrite (small_trunc (5404319552844595 * 2 ^ 7 + 2 ^ 8 + 5404319552844595 * 2 ^ 6 + 2 ^ 8)).
  - reflexivity.
  - lia.
  - apply sub_c03_small; [lia|lia|]. now apply mul_c06_small.
Qed.

Lemma digits2_unique p k :
  2 ^ (k - 1) <= Z.pos p < 2 ^ k -> Z.pos (digits2_pos p) = k.
Proof.
  intros [Hlo Hhi]. pose proof (digits2_bounds p) as [Hlo' Hhi'].
  assert (Hk : 0 < k).
  { destruct (Z_lt_le_dec 0 k) as [|Hk]; [assumption|].
    destruct (Z.eq_dec k 0) as [->|]; [simpl in Hhi; lia|].
    rewrite (Z.pow_neg_r 2 k) in Hhi by lia. lia. }
  assert (H1 : 2 ^ (Z.pos (digits2_pos p) - 1) < 2 ^ k) by lia.
  assert (H2 : 2 ^ (k - 1) < 2 ^ Z.pos (digits2_pos p)) by lia.
  apply pow2_lt_exp in H1; [|lia]. apply pow2_lt_exp in H2; lia.
Qed.

Lemma shl_align_above m e e' : e <= e' -> shl_align m e e' = (m, e).
Proof. unfold shl_align. intros H. destruct (e' - e) eqn:Hd; try reflexivity. lia. Qed.

(** [float64(n)] for [n >= 4] is a positive float of exponent at least
    [-50] (or an overflow to [+Inf]). *)
Lemma of_Z_large n :
  4 <= n ->
  of_Z n = inf \/ exists m e, of_Z n = S754_finite false m e /\ -50 <= e.
Proof.
  intros Hn. destruct n as [|p|p]; try lia.
  unfold of_Z, binary_normalize, binary_round.
  pose proof (digits2_bounds p) as [Hlo Hhi].
  set (d := Z.pos (digits2_pos p)) in *.
  assert (Hd3 : 3 <= d).
  { destruct (Z_lt_le_dec d 3) as [Hd|]; [|assumption].
    assert (2 ^ d <= 2 ^ 2) by (apply Z.pow_le_mono_r; lia). lia. }
  rewrite Z.add_0_r, fexp_value.
  destruct (Z_le_gt_dec d 53) as [Hd|Hd].
  - (* at most 53 bits: the mantissa is shifted left, nothing is lost *)
    destruct (shl_align_spec p 0 (Z.max (d - 53) (-1074))) as (_ & He & Hm).
    assert (Hmax : Z.max (d - 53) (-1074) <= 0) by lia.
    specialize (He Hmax). rewrite He in Hm.
    destruct (shl_align p 0 (Z.max (d - 53) (-1074))) as [mz ez].
    simpl in He, Hm. subst ez.
    replace (Z.max (d - 53) (-1074)) with (d - 53) in * by lia.
    replace (0 - (d - 53)) with (53 - d) in Hm by lia.
    assert (Hp53 : 0 < 2 ^ (53 - d)) by (apply Z.pow_pos_nonneg; lia).
    assert (Hdz : Z.pos (digits2_pos mz) = 53).
    { apply digits2_unique. rewrite Hm.
      assert (E1 : 2 ^ (53 - 1) = 2 ^ (d - 1) * 2 ^ (53 - d))
        by (rewrite <- Z.pow_add_r by lia; f_equal; lia).
      assert (E2 : 2 ^ 53 = 2 ^ d * 2 ^ (53 - d))
        by (rewrite <- Z.pow_add_r by lia; f_equal; lia).
      rewrite E1, E2. split.
      - apply Z.mul_le_mono_nonneg_r; lia.
      - apply Z.mul_lt_mono_pos_r; lia. }
    right. exists mz, (d - 53). split; [|lia].
    unfold binary_round_aux, shr_fexp. simpl Zdigits2. rewrite Hdz, fexp_value.
    rewrite shr_nonpos by lia. simpl. rewrite Hdz, fexp_value.
    rewrite shr_nonpos by lia. simpl.
    destruct (Z.leb_spec (d - 53) (emax - prec)) as [_|Hbad]; [reflexivity|].
    unfold emax, prec in Hbad. lia.
  - (* more than 53 bits: the low bits are rounded away *)
    rewrite shl_align_above by lia.
    unfold binary_round_aux, shr_fexp. simpl Zdigits2. fold d. rewrite fexp_value.
    simpl shr_record_of_loc.
    destruct (shr_pos (Build_shr_record (Z.pos p) false false) 0 (Z.max (d + 0 - 53) (-1074) - 0))
      as [H1 H2]; [lia|simpl; lia|].
    destruct (shr (Build_shr_record (Z.pos p) false false) 0 _) as [mrs1 e1].
    simpl in H1, H2. subst e1.
    replace (Z.max (d + 0 - 53) (-1074) - 0) with (d - 53) in * by lia.
    replace (0 + (d - 53)) with (d - 53) by lia.
    assert (Hk : 0 < 2 ^ (d - 53)) by (apply Z.pow_pos_nonneg; lia).
    assert (Hm1 : 2 ^ 52 <= shr_m mrs1 < 2 ^ 53).
    { assert (E1 : 2 ^ (d - 1) = 2 ^ (d - 53) * 2 ^ 52)
        by (rewrite <- Z.pow_add_r by lia; f_equal; lia).
      assert (E2 : 2 ^ d = 2 ^ (d - 53) * 2 ^ 53)
        by (rewrite <- Z.pow_add_r by lia; f_equal; lia).
      rewrite H1. split.
      - apply Z.div_le_lower_bound; lia.
      - apply Z.div_lt_upper_bound; lia. }
    pose proof (round_nearest_even_bounds (shr_m mrs1) (loc_of_shr_record mrs1)) as Hr.
    set (m2 := round_nearest_even (shr_m mrs1) (loc_of_shr_record mrs1)) in *.
    destruct m2 as [|q|q] eqn:Hq; try lia.
    simpl Zdigits2. rewrite fexp_value. simpl shr_record_of_loc.
    pose proof (digits2_bounds q) as [Hqlo Hqhi].
    set (d2 := Z.pos (digits2_pos q)) in *.
    assert (Hd2 : 53 <= d2 <= 54).
    { split.
      - destruct (Z_lt_le_dec d2 53) as [Hlt|]; [|assumption].
        assert (2 ^ d2 <= 2 ^ 52) by (apply Z.pow_le_mono_r; lia). lia.
      - destruct (Z_lt_le_dec 54 d2) as [Hlt|]; [|assumption].
        assert (2 ^ 54 <= 2 ^ (d2 - 1)) by (apply Z.pow_le_mono_r; lia). lia. }
    destruct (Z.eq_dec d2 53) as [H53|H54].
    + rewrite shr_nonpos by lia. simpl shr_m.
      destruct (Z.leb_spec (d - 53) (emax - prec)); [right|left; reflexivity].
      exists q, (d - 53). split; [reflexivity|lia].
    + destruct (shr_pos (Build_shr_record (Z.pos q) false false) (d - 53)
                        (Z.max (d2 + (d - 53) - 53) (-1074) - (d - 53)))
        as [H3 H4]; [lia|simpl; lia|].
      destruct (shr (Build_shr_record (Z.pos q) false false) (d - 53) _) as [mrs2 e2].
      simpl in H3, H4. subst e2.
      replace (Z.max (d2 + (d - 53) - 53) (-1074) - (d - 53)) with 1 in * by lia.
      assert (Hm3 : 2 ^ 51 <= shr_m mrs2).
      { rewrite H3. apply Z.div_le_lower_bound; lia. }
      destruct (shr_m mrs2) as [|q3|q3]; try lia.
      destruct (Z.leb_spec (d - 53 + 1) (emax - prec)); [right|left; reflexivity].
      exists q3, (d - 53 + 1). split; [reflexivity|lia].
Qed.

Lemma three_value : of_Z 3 = S754_finite false 6755399441055744 (-51).
Proof. vm_compute. reflexivity. Qed.

(** The exponent saturates at [3]. *)
Lemma math_Min_saturates n : 4 <= n -> math_Min (of_Z n) (of_Z 3) = of_Z 3.
Proof.
  intros Hn. rewrite three_value.
  destruct (of_Z_large n Hn) as [->|(m & e & -> & He)]; [reflexivity|].
  unfold math_Min, is_inf, is_nan, eqb, ltb, SFeqb, SFltb, SFcompare, zero.
  cbn [orb andb].
  destruct (Z.compare_spec e (-51)) as [Heq|Hlt|Hgt]; try lia. reflexivity.
Qed.

(** The backoff before jitter, for the four exponents. *)
Lemma backoff_values :
  to_int64 (mul (of_Z (1 * Minute)) (math_Pow (of_Z 5) (math_Min (of_Z 0) (of_Z 3)))) = Minute /\
  to_int64 (mul (of_Z (1 * Minute)) (math_Pow (of_Z 5) (math_Min (of_Z 1) (of_Z 3)))) = 5 * Minute /\
  to_int64 (mul (of_Z (1 * Minute)) (math_Pow (of_Z 5) (math_Min (of_Z 2) (of_Z 3)))) = 25 * Minute /\
  to_int64 (mul (of_Z (1 * Minute)) (math_Pow (of_Z 5) (math_Min (of_Z 3) (of_Z 3)))) = 125 * Minute /\
  to_int64 (mul (of_Z (1 * Minute)) (math_Pow (of_Z 5) (of_Z 3))) = 125 * Minute.
Proof. vm_compute. repeat split; reflexivity. Qed.

Lemma calculateCooldown_closed_form errorCount errorType rnd :
  valid rnd = true -> leb zero rnd = true -> ltb rnd one = true ->
  errorCount <= Int64.max_int ->
  calculateCooldown errorCount errorType rnd =
    if errorCount <=? 0 then 0
    else Z.min (Minute * 5 ^ Z.min (errorCount - 1) 3) Hour.
Proof.
  intros Hv H0 H1 Hmax. unfold calculateCooldown.
  destruct (Z.leb_spec errorCount 0) as [|Hpos]; [reflexivity|].
  rewrite (jitter_factor_zero rnd Hv H0 H1).
  assert (Hsub : Int64.sub errorCount 1 = errorCount - 1).
  { unfold Int64.sub. apply wrap_small.
    unfold Int64.min_int, Int64.max_int in *. lia. }
  rewrite Hsub.
  destruct backoff_values as (B0 & B1 & B2 & B3 & B4).
  assert (Hcases : errorCount = 1 \/ errorCount = 2 \/ errorCount = 3 \/
                   errorCount = 4 \/ 5 <= errorCount) by lia.
  destruct Hcases as [->|[->|[->|[->|Hbig]]]].
  - change (1 - 1) with 0. rewrite B0. reflexivity.
  - change (2 - 1) with 1. rewrite B1. reflexivity.
  - change (3 - 1) with 2. rewrite B2. reflexivity.
  - change (4 - 1) with 3. rewrite B3. reflexivity.
  - rewrite math_Min_saturates by lia. rewrite B4.
    rewrite (Z.min_r (errorCount - 1) 3) by lia. reflexivity.
Qed.

(** ** The cooldown computed by [calculateCooldown] *)

(** C10: for a draw [rnd] of [rand.Float64()], a float of [[0, 1)], the
    jitter factor [time.Duration(rnd * 0.6 - 0.3)] is the zero duration,
    so the cooldown does not depend on the draw: for [errorCount >= 1] it
    is [min(1 minute * 5^min(errorCount - 1, 3), 1 hour)], and for
    [errorCount <= 0] it is [0]. *)
Theorem calculateCooldown_ignores_random errorCount errorType rnd rnd' :
  valid rnd = true -> leb zero rnd = true -> ltb rnd one = true ->
  valid rnd' = true -> leb zero rnd' = true -> ltb rnd' one = true ->
  errorCount <= Int64.max_int ->
  to_int64 (sub (mul rnd (dec 6 10)) (dec 3 10)) = 0 /\
  calculateCooldown errorCount errorType rnd = calculateCooldown errorCount errorType rnd' /\
  calculateCooldown errorCount errorType rnd =
    if errorCount <=? 0 then 0
    else Z.min (Minute * 5 ^ Z.min (errorCount - 1) 3) Hour.
Proof.
  intros Hv H0 H1 Hv' H0' H1' Hmax.
  split; [now apply jitter_factor_zero|].
  rewrite (calculateCooldown_closed_form errorCount errorType rnd) by assumption.
  rewrite (calculateCooldown_closed_form errorCount errorType rnd') by assumption.
  split; reflexivity.
Qed.

Lemma calculateCooldown_ignores_random_witness :
  to_int64 (sub (mul (dec 9 10) (dec 6 10)) (dec 3 10)) = 0 /\
  calculateCooldown 2 "rate_limit" (dec 9 10) = calculateCooldown 2 "rate_limit" (dec 1 10) /\
  calculateCooldown 2 "rate_limit" (dec 9 10) =
    if 2 <=? 0 then 0 else Z.min (Minute * 5 ^ Z.min (2 - 1) 3) Hour.
Proof.
  apply (calculateCooldown_ignores_random 2 "rate_limit" (dec 9 10) (dec 1 10));
    try (vm_compute; reflexivity).
  vm_compute. discriminate.
Defined.

(** C5: [calculateCooldown] at [errorCount = 1] returns a duration within
    [[0.7, 1.3]] minutes, and at [errorCount = 5] a duration within
    [[0.7, 1.3]] hours that does not exceed one hour. *)
Theorem calculateCooldown_ranges errorType rnd :
  valid rnd = true -> leb zero rnd = true -> ltb rnd one = true ->
  (7 * Minute <= 10 * calculateCooldown 1 errorType rnd <= 13 * Minute) /\
  (7 * Hour <= 10 * calculateCooldown 5 errorType rnd <= 13 * Hour /\
   calculateCooldown 5 errorType rnd <= Hour).
Proof.
  intros Hv H0 H1.
  rewrite (calculateCooldown_closed_form 1 errorType rnd) by (try assumption; vm_compute; discriminate).
  rewrite (calculateCooldown_closed_form 5 errorType rnd) by (try assumption; vm_compute; discriminate).
  vm_compute. repeat split; discriminate.
Qed.

Lemma calculateCooldown_ranges_witness :
  (7 * Minute <= 10 * calculateCooldown 1 "rate_limit" (dec 1 2) <= 13 * Minute) /\
  (7 * Hour <= 10 * calculateCooldown 5 "rate_limit" (dec 1 2) <= 13 * Hour /\
   calculateCooldown 5 "rate_limit" (dec 1 2) <= Hour).
Proof.
  apply (calculateCooldown_ranges "rate_limit" (dec 1 2)); vm_compute; reflexivity.
Defined.

(** C4 (fails on [calculateCooldown]): after a first failure the cooldown is
    exactly one minute for the draws [0.9] and [0.1] alike, where the
    backoff multiplied by [1 + u], [u = rnd * 0.6 - 0.3], would be 74.4
    and 45.6 seconds. *)
Theorem calculateCooldown_without_jitter :
  calculateCooldown 1 "rate_limit" (dec 9 10) = 60000000000 /\
  calculateCooldown 1 "rate_limit" (dec 1 10) = 60000000000 /\
  jittered_cooldown 1 (dec 9 10) = 74400000000 /\
  jittered_cooldown 1 (dec 1 10) = 45600000000.
Proof. vm_compute. repeat split; reflexivity. Qed.

(** ** The burst of a fresh limiter *)

(** ** Round to nearest: the half-unit bound *)

Lemma iter_pos_comm {A} (f : A -> A) p : forall x,
  SpecFloat.iter_pos f p (f x) = f (SpecFloat.iter_pos f p x).
Proof.
  induction p as [p IH|p IH|]; intros x; simpl; [|now rewrite !IH|reflexivity].
  now rewrite !IH.
Qed.

Lemma iter_pos_succ {A} (f : A -> A) p x :
  SpecFloat.iter_pos f (Pos.succ p) x = f (SpecFloat.iter_pos f p x).
Proof.
  revert x. induction p as [p IH|p IH|]; intros x; simpl.
  - rewrite !IH. now rewrite !iter_pos_comm.
  - now rewrite !iter_pos_comm.
  - reflexivity.
Qed.

Lemma shr_r_shr_1 mrs : 0 <= shr_m mrs -> shr_r (shr_1 mrs) = Z.odd (shr_m mrs).
Proof.
  destruct mrs as [m r s]. simpl. intros Hm.
  destruct m as [|p|p]; [reflexivity| |lia]. destruct p; reflexivity.
Qed.

(** The round bit after [p] shifts is bit [p - 1] of the mantissa. *)
Lemma shr_r_iter p : forall mrs,
  0 <= shr_m mrs ->
  shr_r (SpecFloat.iter_pos shr_1 p mrs) = Z.odd (shr_m mrs / 2 ^ (Z.pos p - 1)).
Proof.
  induction p as [|p IH] using Pos.peano_ind; intros mrs Hm.
  - simpl SpecFloat.iter_pos. rewrite shr_r_shr_1 by assumption.
    change (2 ^ (1 - 1)) with 1. now rewrite Z.div_1_r.
  - rewrite iter_pos_succ, shr_r_shr_1.
    + rewrite shr_m_iter by assumption. f_equal. f_equal. f_equal. lia.
    + rewrite shr_m_iter by assumption. apply Z.div_pos; [assumption|].
      apply Z.pow_pos_nonneg; lia.
Qed.

(** A set bit [n - 1] puts the dropped part at one half or more. *)
Lemma odd_div_half m n :
  0 <= m -> 0 < n -> Z.odd (m / 2 ^ (n - 1)) = true ->
  2 * (m / 2 ^ n + 1) * 2 ^ n <= 2 * m + 2 ^ n.
Proof.
  intros Hm Hn Hodd.
  assert (Hp : 0 < 2 ^ (n - 1)) by (apply Z.pow_pos_nonneg; lia).
  assert (E : 2 ^ n = 2 * 2 ^ (n - 1)).
  { replace n with (Z.succ (n - 1)) at 1 by lia. rewrite Z.pow_succ_r by lia. lia. }
  set (a := m / 2 ^ (n - 1)) in *.
  assert (Ha : m / 2 ^ n = a / 2).
  { rewrite E. unfold a. rewrite Z.mul_comm, Z.div_div by lia. reflexivity. }
  pose proof (Z.div_mod m (2 ^ (n - 1)) ltac:(lia)) as Hdm. fold a in Hdm.
  pose proof (Z.mod_pos_bound m (2 ^ (n - 1)) Hp) as Hr.
  rewrite Z.odd_spec in Hodd. destruct Hodd as [b Hb].
  assert (Hb2 : a / 2 = b).
  { rewrite Hb. rewrite Z.mul_comm. rewrite Z.div_add_l by lia.
    change (1 / 2) with 0. lia. }
  rewrite Ha, Hb2, E. nia.
Qed.

Lemma round_nearest_even_up mrs :
  round_nearest_even (shr_m mrs) (loc_of_shr_record mrs) <> shr_m mrs ->
  shr_r mrs = true.
Proof.
  destruct mrs as [m [|] [|]]; simpl; try tauto; intros H; now elim H.
Qed.

(** Rounding [m] after a right shift by [n >= 0] from an exact record. *)
Lemma round_shift_exact m e n :
  0 <= m -> 0 <= n ->
  let mrs := fst (shr (Build_shr_record m false false) e n) in
  let m2 := round_nearest_even (shr_m mrs) (loc_of_shr_record mrs) in
  snd (shr (Build_shr_record m false false) e n) = e + n /\
  m / 2 ^ n <= m2 <= m / 2 ^ n + 1 /\
  2 * m2 * 2 ^ n <= 2 * m + 2 ^ n.
Proof.
  intros Hm Hn mrs m2.
  destruct (Z.eq_dec n 0) as [->|Hn0].
  - unfold m2, mrs. simpl. rewrite Z.div_1_r. lia.
  - destruct (shr_pos (Build_shr_record m false false) e n) as [H1 H2]; [lia|simpl; lia|].
    fold mrs in H1. simpl in H1.
    pose proof (round_nearest_even_bounds (shr_m mrs) (loc_of_shr_record mrs)) as Hb.
    fold m2 in Hb. rewrite H1 in Hb.
    split; [exact H2|]. split; [exact Hb|].
    assert (Hp : 0 < 2 ^ n) by (apply Z.pow_pos_nonneg; lia).
    pose proof (Z.mul_div_le m (2 ^ n) Hp) as Hdiv.
    destruct (Z.eq_dec m2 (shr_m mrs)) as [Heq|Hne].
    + rewrite Heq, H1. nia.
    + assert (Hr : shr_r mrs = true) by (apply round_nearest_even_up; exact Hne).
      assert (Hm2 : m2 = m / 2 ^ n + 1) by (rewrite H1 in Hne; lia).
      unfold mrs in Hr. destruct n as [|p|p]; try lia.
      simpl in Hr. rewrite shr_r_iter in Hr by (simpl; lia). simpl shr_m in Hr.
      rewrite Hm2. apply odd_div_half; [assumption|lia|exact Hr].
Qed.

(** Rounding after a right shift from any record: one unit at most. *)
Lemma round_shift_any m l e n :
  0 <= m -> 0 <= n ->
  let mrs := fst (shr (shr_record_of_loc m l) e n) in
  let m2 := round_nearest_even (shr_m mrs) (loc_of_shr_record mrs) in
  snd (shr (shr_record_of_loc m l) e n) = e + n /\
  m / 2 ^ n <= m2 <= m / 2 ^ n + 1.
Proof.
  intros Hm Hn mrs m2.
  assert (Hsm : shr_m (shr_record_of_loc m l) = m) by (destruct l as [|[| |]]; reflexivity).
  pose proof (round_nearest_even_bounds (shr_m mrs) (loc_of_shr_record mrs)) as Hb.
  fold m2 in Hb.
  destruct (Z.eq_dec n 0) as [->|Hn0].
  - unfold mrs in *. simpl in *. rewrite Hsm in Hb. rewrite Z.div_1_r. lia.
  - destruct (shr_pos (shr_record_of_loc m l) e n) as [H1 H2]; [lia|rewrite Hsm; lia|].
    fold mrs in H1. rewrite Hsm in H1. rewrite H1 in Hb. split; assumption.
Qed.

Lemma valid_finite s m e :
  valid (S754_finite s m e) = true <->
  Z.max (Z.pos (digits2_pos m) + e - 53) (-1074) = e /\ e <= 971.
Proof.
  unfold valid, valid_binary, bounded, canonical_mantissa.
  rewrite fexp_value, andb_true_iff, Z.eqb_eq, Z.leb_le. reflexivity.
Qed.

(** The second normalisation of [binary_round_aux], on a rounded mantissa
    of at most 54 bits. *)
Lemma renormalize s m2 e1 :
  0 <= m2 <= 2 ^ 53 -> -1074 <= e1 < 971 ->
  (e1 = -1074 \/ 2 ^ 52 <= m2) ->
  rounded s m2 e1
    (let '(mrs, e') := shr_fexp prec emax m2 e1 loc_Exact in
     match shr_m mrs with
     | 0 => S754_zero s
     | Z.pos m => if e' <=? emax - prec then S754_finite s m e' else S754_infinity s
     | Z.neg _ => S754_nan
     end).
Proof.
  intros Hm2 He1 Hc. unfold shr_fexp. simpl shr_record_of_loc. rewrite fexp_value.
  destruct m2 as [|q|q]; [| |lia].
  - simpl Zdigits2. rewrite shr_nonpos by lia. simpl. left. split; reflexivity.
  - simpl Zdigits2. pose proof (digits2_bounds q) as [Hlo Hhi].
    destruct (Z.eq_dec (Z.pos q) (2 ^ 53)) as [Heq|Hne].
    + assert (Hd : Z.pos (digits2_pos q) = 54) by (apply digits2_unique; rewrite Heq; lia).
      rewrite Hd.
      destruct (shr_pos (Build_shr_record (Z.pos q) false false) e1
                        (Z.max (54 + e1 - 53) (-1074) - e1)) as [H1 H2]; [lia|simpl; lia|].
      destruct (shr (Build_shr_record (Z.pos q) false false) e1 _) as [mrs e'].
      simpl in H1, H2. subst e'.
      replace (Z.max (54 + e1 - 53) (-1074) - e1) with 1 in * by lia.
      rewrite Heq in H1. change (2 ^ 53 / 2 ^ 1) with (2 ^ 52) in H1. rewrite H1.
      change (2 ^ 52) with (Z.pos 4503599627370496).
      destruct (Z.leb_spec (e1 + 1) (emax - prec)) as [_|Hbad];
        [|unfold emax, prec in Hbad; lia].
      right. exists 4503599627370496%positive, (e1 + 1).
      split; [reflexivity|]. split; [lia|]. split.
      * replace (e1 + 1 - e1) with 1 by lia. rewrite Heq. reflexivity.
      * apply valid_finite. change (Z.pos (digits2_pos 4503599627370496)) with 53. lia.
    + assert (Hd : Z.pos (digits2_pos q) <= 53) by (apply digits2_le; lia).
      rewrite shr_nonpos by lia. simpl shr_m.
      destruct (Z.leb_spec e1 (emax - prec)) as [_|Hbad];
        [|unfold emax, prec in Hbad; lia].
      right. exists q, e1. split; [reflexivity|]. split; [lia|]. split.
      * rewrite Z.sub_diag. simpl. lia.
      * apply valid_finite. split; [|lia].
        destruct Hc as [->|Hbig]; [lia|].
        assert (Hd53 : Z.pos (digits2_pos q) = 53) by (apply digits2_unique; lia).
        lia.
Qed.

(** [binary_round_aux] on a mantissa that is at or below its grid: the
    result is the mantissa shifted to the grid and rounded, by at most one
    unit, and by at most half a unit when the input is exact. *)
Lemma binary_round_aux_spec s m e l :
  let e1 := fexp prec emax (Z.pos (digits2_pos m) + e) in
  e <= e1 -> e1 < 971 ->
  exists m2,
    Z.pos m / 2 ^ (e1 - e) <= m2 <= Z.pos m / 2 ^ (e1 - e) + 1 /\
    (l = loc_Exact -> 2 * m2 * 2 ^ (e1 - e) <= 2 * Z.pos m + 2 ^ (e1 - e)) /\
    rounded s m2 e1 (binary_round_aux prec emax s (Z.pos m) e l).
Proof.
  intros e1 Hle Hmax. unfold binary_round_aux.
  unfold shr_fexp at 1. simpl Zdigits2. fold e1.
  destruct (round_shift_any (Z.pos m) l e (e1 - e)) as [Hsnd Hb]; [lia|lia|].
  assert (Hhalf : l = loc_Exact ->
                  2 * round_nearest_even
                        (shr_m (fst (shr (shr_record_of_loc (Z.pos m) l) e (e1 - e))))
                        (loc_of_shr_record (fst (shr (shr_record_of_loc (Z.pos m) l) e (e1 - e))))
                    * 2 ^ (e1 - e) <= 2 * Z.pos m + 2 ^ (e1 - e)).
  { intros ->. apply (round_shift_exact (Z.pos m) e (e1 - e)); lia. }
  destruct (shr (shr_record_of_loc (Z.pos m) l) e (e1 - e)) as [mrs1 e1'].
  simpl in Hsnd, Hb, Hhalf. subst e1'.
  replace (e + (e1 - e)) with e1 by lia.
  set (m2 := round_nearest_even (shr_m mrs1) (loc_of_shr_record mrs1)) in *.
  exists m2. split; [exact Hb|]. split; [exact Hhalf|].
  pose proof (digits2_bounds m) as [Hlo Hhi].
  set (d := Z.pos (digits2_pos m)) in *.
  assert (He1 : e1 = Z.max (d + e - 53) (-1074)) by reflexivity.
  assert (Hp : 0 < 2 ^ (e1 - e)) by (apply Z.pow_pos_nonneg; lia).
  assert (Hm1 : 0 <= Z.pos m / 2 ^ (e1 - e) < 2 ^ 53).
  { split; [apply Z.div_pos; lia|].
    apply Z.div_lt_upper_bound; [lia|].
    assert (2 ^ d <= 2 ^ (e1 - e + 53)) by (apply Z.pow_le_mono_r; lia).
    rewrite Z.pow_add_r in H by lia. lia. }
  apply renormalize; try lia.
  destruct (Z.eq_dec e1 (-1074)) as [|Hne]; [now left|right].
  assert (Hn : e1 - e = d - 53) by lia.
  assert (2 ^ 52 <= Z.pos m / 2 ^ (e1 - e)); [|lia].
  apply Z.div_le_lower_bound; [lia|]. rewrite Hn.
  assert (E : 2 ^ (d - 1) = 2 ^ (d - 53) * 2 ^ 52)
    by (rewrite <- Z.pow_add_r by lia; f_equal; lia).
  lia.
Qed.

Lemma valid_mantissa s m e :
  valid (S754_finite s m e) = true ->
  -1074 <= e <= 971 /\ Z.pos m < 2 ^ 53 /\ (-1074 < e -> 2 ^ 52 <= Z.pos m).
Proof.
  rewrite valid_finite. intros [Hc He].
  pose proof (digits2_bounds m) as [Hlo Hhi].
  set (d := Z.pos (digits2_pos m)) in *.
  split; [lia|]. split.
  - assert (2 ^ d <= 2 ^ 53) by (apply Z.pow_le_mono_r; lia). lia.
  - intros Hn. assert (d = 53) by lia. subst d. rewrite H in Hlo. exact Hlo.
Qed.

(** Comparison of valid positive floats is comparison of their values. *)
Lemma SFcompare_value m1 e1 m2 e2 :
  valid (S754_finite false m1 e1) = true ->
  valid (S754_finite false m2 e2) = true ->
  SFcompare (S754_finite false m1 e1) (S754_finite false m2 e2) =
    Some (Z.compare (Z.pos m1 * 2 ^ (e1 + 1074)) (Z.pos m2 * 2 ^ (e2 + 1074))).
Proof.
  intros H1 H2.
  destruct (valid_mantissa _ _ _ H1) as (He1 & Hm1 & Hn1).
  destruct (valid_mantissa _ _ _ H2) as (He2 & Hm2 & Hn2).
  unfold SFcompare. f_equal.
  destruct (Z.compare_spec e1 e2) as [->|Hlt|Hgt].
  - assert (Hp : 0 < 2 ^ (e2 + 1074)) by (apply Z.pow_pos_nonneg; lia).
    change (Pos.compare_cont Eq m1 m2) with (Pos.compare m1 m2).
    destruct (Pos.compare_spec m1 m2) as [->|H|H]; symmetry.
    + apply Z.compare_refl.
    + apply Z.compare_lt_iff. apply Z.mul_lt_mono_pos_r; [exact Hp|].
      now apply Pos2Z.pos_lt_pos.
    + apply Z.compare_gt_iff. apply Z.mul_lt_mono_pos_r; [exact Hp|].
      now apply Pos2Z.pos_lt_pos.
  - symmetry. apply Z.compare_lt_iff.
    assert (Hp : 0 < 2 ^ (e1 + 1074)) by (apply Z.pow_pos_nonneg; lia).
    assert (E : 2 ^ (e2 + 1074) = 2 ^ (e1 + 1074) * 2 ^ (e2 - e1))
      by (rewrite <- Z.pow_add_r by lia; f_equal; lia).
    assert (H2' : 2 ^ 1 <= 2 ^ (e2 - e1)) by (apply Z.pow_le_mono_r; lia).
    specialize (Hn2 ltac:(lia)). rewrite E. change (2 ^ 1) with 2 in H2'.
    change (2 ^ 53) with (2 * 2 ^ 52) in Hm1. nia.
  - symmetry. apply Z.compare_gt_iff.
    assert (Hp : 0 < 2 ^ (e2 + 1074)) by (apply Z.pow_pos_nonneg; lia).
    assert (E : 2 ^ (e1 + 1074) = 2 ^ (e2 + 1074) * 2 ^ (e1 - e2))
      by (rewrite <- Z.pow_add_r by lia; f_equal; lia).
    assert (H2' : 2 ^ 1 <= 2 ^ (e1 - e2)) by (apply Z.pow_le_mono_r; lia).
    specialize (Hn1 ltac:(lia)). rewrite E. change (2 ^ 1) with 2 in H2'.
    change (2 ^ 53) with (2 * 2 ^ 52) in Hm2. nia.
Qed.

(** The same with both exponents at or below zero, cross-multiplied. *)
Lemma SFltb_value m1 e1 m2 e2 :
  valid (S754_finite false m1 e1) = true ->
  valid (S754_finite false m2 e2) = true ->
  e1 <= 0 -> e2 <= 0 ->
  (SFltb (S754_finite false m1 e1) (S754_finite false m2 e2) = true <->
   Z.pos m1 * 2 ^ (- e2) < Z.pos m2 * 2 ^ (- e1)).
Proof.
  intros H1 H2 He1 He2. unfold SFltb. rewrite SFcompare_value by assumption.
  destruct (valid_mantissa _ _ _ H1) as (Hr1 & _).
  destruct (valid_mantissa _ _ _ H2) as (Hr2 & _).
  assert (E1 : 2 ^ 1074 = 2 ^ (e1 + 1074) * 2 ^ (- e1))
    by (rewrite <- Z.pow_add_r by lia; f_equal; lia).
  assert (E2 : 2 ^ 1074 = 2 ^ (e2 + 1074) * 2 ^ (- e2))
    by (rewrite <- Z.pow_add_r by lia; f_equal; lia).
  assert (P1 : 0 < 2 ^ (e1 + 1074)) by (apply Z.pow_pos_nonneg; lia).
  assert (P2 : 0 < 2 ^ (e2 + 1074)) by (apply Z.pow_pos_nonneg; lia).
  assert (Q1 : 0 < 2 ^ (- e1)) by (apply Z.pow_pos_nonneg; lia).
  assert (Q2 : 0 < 2 ^ (- e2)) by (apply Z.pow_pos_nonneg; lia).
  set (a := Z.pos m1 * 2 ^ (e1 + 1074)). set (b := Z.pos m2 * 2 ^ (e2 + 1074)).
  assert (Ha : a * (2 ^ (- e1) * 2 ^ (- e2)) = Z.pos m1 * 2 ^ (- e2) * 2 ^ 1074)
    by (unfold a; rewrite E1; ring).
  assert (Hb : b * (2 ^ (- e1) * 2 ^ (- e2)) = Z.pos m2 * 2 ^ (- e1) * 2 ^ 1074)
    by (unfold b; rewrite E2; ring).
  assert (P : 0 < 2 ^ 1074) by (apply Z.pow_pos_nonneg; lia).
  assert (Q : 0 < 2 ^ (- e1) * 2 ^ (- e2)) by (apply Z.mul_pos_pos; assumption).
  destruct (Z.compare_spec a b) as [Heq|Hlt|Hgt].
  - split; [discriminate|]. intros H. exfalso.
    rewrite Heq, Hb in Ha.
    apply Z.mul_cancel_r in Ha; lia.
  - split; [intros _|reflexivity].
    apply (Z.mul_lt_mono_pos_r (2 ^ 1074)); [exact P|].
    rewrite <- Ha, <- Hb. apply Z.mul_lt_mono_pos_r; assumption.
  - split; [discriminate|]. intros H. exfalso.
    apply (Z.mul_lt_mono_pos_r (2 ^ 1074)) in H; [|exact P].
    rewrite <- Ha, <- Hb in H. apply Z.mul_lt_mono_pos_r in H; [lia|exact Q].
Qed.

Lemma trunc_finite m e :
  e <= 0 -> trunc (S754_finite false m e) = Some (Z.pos m / 2 ^ (- e)).
Proof.
  intros He. unfold trunc. f_equal.
  destruct (Z.eq_dec e 0) as [->|Hne].
  - simpl. now rewrite Z.div_1_r.
  - now rewrite Z.shiftl_div_pow2 by lia.
Qed.

(** A rounded mantissa inside integer bounds is a float [fbetween] them. *)
Lemma rounded_between lo hi m2 e1 r :
  rounded false m2 e1 r -> e1 <= 0 -> 0 <= lo -> 0 < hi <= 2 ^ 52 ->
  lo * 2 ^ (- e1) <= m2 < hi * 2 ^ (- e1) ->
  fbetween lo hi r.
Proof.
  intros [[-> ->]|(q & e' & -> & He' & Hq & Hv)] He1 Hlo Hhi Hb.
  - simpl. assert (0 < 2 ^ (- e1)) by (apply Z.pow_pos_nonneg; lia). nia.
  - simpl. destruct (valid_mantissa _ _ _ Hv) as (Hr & Hm & Hn).
    assert (P1 : 0 < 2 ^ (- e1)) by (apply Z.pow_pos_nonneg; lia).
    assert (P2 : 0 < 2 ^ (e' - e1)) by (apply Z.pow_pos_nonneg; lia).
    assert (He0 : e' <= 0).
    { destruct (Z_le_gt_dec e' 0) as [|Hpos]; [assumption|exfalso].
      specialize (Hn ltac:(lia)).
      assert (E : 2 ^ (e' - e1) = 2 ^ e' * 2 ^ (- e1))
        by (rewrite <- Z.pow_add_r by lia; f_equal; lia).
      assert (2 ^ 1 <= 2 ^ e') by (apply Z.pow_le_mono_r; lia).
      change (2 ^ 1) with 2 in H. rewrite E in Hq. nia. }
    split; [exact Hv|]. split; [exact He0|].
    assert (E : 2 ^ (- e1) = 2 ^ (- e') * 2 ^ (e' - e1))
      by (rewrite <- Z.pow_add_r by lia; f_equal; lia).
    rewrite E in Hb. rewrite <- Hq in Hb.
    assert (P3 : 0 < 2 ^ (- e')) by (apply Z.pow_pos_nonneg; lia).
    split.
    + apply (mul_le_cancel_r _ _ (2 ^ (e' - e1))); [exact P2|]. lia.
    + apply (Z.mul_lt_mono_pos_r (2 ^ (e' - e1))); [exact P2|]. lia.
Qed.

(** [binary_round]: the mantissa is first brought to its grid when it is
    above it, then rounded. *)
Lemma binary_round_spec s a e :
  let e1 := fexp prec emax (Z.pos (digits2_pos a) + e) in
  e1 < 971 ->
  exists m2,
    rounded s m2 e1 (binary_round prec emax s a e) /\
    (e1 <= e -> m2 = Z.pos a * 2 ^ (e - e1)) /\
    (e < e1 -> Z.pos a / 2 ^ (e1 - e) <= m2 <= Z.pos a / 2 ^ (e1 - e) + 1 /\
               2 * m2 * 2 ^ (e1 - e) <= 2 * Z.pos a + 2 ^ (e1 - e)).
Proof.
  intros e1 Hmax. unfold binary_round. fold e1.
  destruct (Z_le_gt_dec e1 e) as [Hle|Hgt].
  - destruct (shl_align_spec a e e1) as (_ & He & Hm).
    specialize (He Hle). rewrite He in Hm.
    destruct (shl_align a e e1) as [mz ez]. simpl in He, Hm. subst ez.
    pose proof (digits2_bounds a) as [Hlo Hhi].
    assert (P : 0 < 2 ^ (e - e1)) by (apply Z.pow_pos_nonneg; lia).
    assert (Hdz : Z.pos (digits2_pos mz) = Z.pos (digits2_pos a) + (e - e1)).
    { apply digits2_unique. rewrite Hm.
      replace (Z.pos (digits2_pos a) + (e - e1) - 1)
        with ((Z.pos (digits2_pos a) - 1) + (e - e1)) by lia.
      rewrite !Z.pow_add_r by lia. split.
      - apply Z.mul_le_mono_nonneg_r; lia.
      - apply Z.mul_lt_mono_pos_r; lia. }
    destruct (binary_round_aux_spec s mz e1 loc_Exact) as (m2 & Hb & Hh & Hr).
    + rewrite Hdz. replace (Z.pos (digits2_pos a) + (e - e1) + e1)
        with (Z.pos (digits2_pos a) + e) by lia. fold e1. lia.
    + rewrite Hdz. replace (Z.pos (digits2_pos a) + (e - e1) + e1)
        with (Z.pos (digits2_pos a) + e) by lia. fold e1. lia.
    + rewrite Hdz in Hb, Hh, Hr.
      replace (Z.pos (digits2_pos a) + (e - e1) + e1)
        with (Z.pos (digits2_pos a) + e) in Hb, Hh, Hr by lia.
      fold e1 in Hb, Hh, Hr. rewrite Z.sub_diag in Hb, Hh.
      change (2 ^ 0) with 1 in Hb, Hh. rewrite Z.div_1_r in Hb.
      specialize (Hh eq_refl).
      exists m2. split; [exact Hr|]. split; [intros _; lia|intros Hbad; lia].
  - rewrite shl_align_above by lia.
    destruct (binary_round_aux_spec s a e loc_Exact) as (m2 & Hb & Hh & Hr);
      [fold e1; lia|fold e1; lia|].
    fold e1 in Hb, Hh, Hr.
    exists m2. split; [exact Hr|]. split; [intros Hbad; lia|].
    intros _. split; [exact Hb|now apply Hh].
Qed.

(** [float64(t)] is exact below [2^53]. *)
Lemma of_Z_exact t :
  0 < t < 2 ^ 53 ->
  exists m e, of_Z t = S754_finite false m e /\ valid (of_Z t) = true /\
              -52 <= e <= 0 /\ Z.pos m = t * 2 ^ (- e).
Proof.
  intros Ht. destruct t as [|p|p]; try lia.
  unfold of_Z, binary_normalize.
  pose proof (digits2_bounds p) as [Hlo Hhi].
  set (d := Z.pos (digits2_pos p)) in *.
  assert (Hd : 1 <= d <= 53).
  { split; [unfold d; lia|].
    destruct (Z_le_gt_dec d 53) as [|Hgt]; [assumption|exfalso].
    assert (2 ^ 53 <= 2 ^ (d - 1)) by (apply Z.pow_le_mono_r; lia). lia. }
  destruct (binary_round_spec false p 0) as (m2 & Hr & Hex & _).
  - fold d. rewrite fexp_value. lia.
  - fold d in Hr, Hex. rewrite fexp_value in Hr, Hex.
    replace (Z.max (d + 0 - 53) (-1074)) with (d - 53) in Hr, Hex by lia.
    specialize (Hex ltac:(lia)).
    assert (P : 0 < 2 ^ (0 - (d - 53))) by (apply Z.pow_pos_nonneg; lia).
    destruct Hr as [[Hz _]|(q & e' & Heq & He' & Hq & Hv)]; [lia|].
    rewrite Heq in Hv |- *. exists q, e'. split; [reflexivity|]. split; [exact Hv|].
    destruct (valid_mantissa _ _ _ Hv) as (Hre & Hmq & Hnq).
    assert (He'eq : e' = d - 53).
    { destruct (Z.eq_dec e' (d - 53)) as [|Hne]; [assumption|exfalso].
      assert (P2 : 2 ^ 1 <= 2 ^ (e' - (d - 53))) by (apply Z.pow_le_mono_r; lia).
      change (2 ^ 1) with 2 in P2. specialize (Hnq ltac:(lia)).
      assert (Hm2 : m2 < 2 ^ 53).
      { rewrite Hex. replace (0 - (d - 53)) with (53 - d) by lia.
        assert (E : 2 ^ 53 = 2 ^ d * 2 ^ (53 - d))
          by (rewrite <- Z.pow_add_r by lia; f_equal; lia).
        rewrite E. apply Z.mul_lt_mono_pos_r; [apply Z.pow_pos_nonneg|]; lia. }
      change (2 ^ 53) with (2 * 2 ^ 52) in Hm2. nia. }
    subst e'. split; [lia|].
    rewrite Z.sub_diag in Hq. change (2 ^ 0) with 1 in Hq.
    rewrite Z.mul_1_r in Hq. rewrite Hq, Hex.
    replace (0 - (d - 53)) with (- (d - 53)) by lia. reflexivity.
Qed.

Lemma c1e9_value : c1e9 = S754_finite false 8388608000000000 (-23).
Proof. vm_compute. reflexivity. Qed.

Lemma pow2_split a b : 0 <= a -> 0 <= b -> 2 ^ (a + b) = 2 ^ a * 2 ^ b.
Proof. intros. now apply Z.pow_add_r. Qed.

Lemma digits2_ge p k : 0 <= k -> 2 ^ k <= Z.pos p -> k + 1 <= Z.pos (digits2_pos p).
Proof.
  intros Hk Hp. pose proof (digits2_bounds p) as [_ Hhi].
  assert (H : 2 ^ k < 2 ^ Z.pos (digits2_pos p)) by lia.
  apply pow2_lt_exp in H; lia.
Qed.

(** Multiplying a float of [[j, j+1)] by [1e9]. *)
Lemma mul_1e9_between j x :
  0 <= j -> j + 1 <= 2 ^ 20 -> fbetween j (j + 1) x ->
  fbetween (j * 1000000000) ((j + 1) * 1000000000) (mul x c1e9).
Proof.
  intros Hj Hj1 Hx. rewrite c1e9_value.
  destruct x as [s|s| |[|] m e]; unfold fbetween in Hx; try contradiction.
  - simpl. lia.
  - destruct Hx as (Hv & He & Hlo & Hhi).
    destruct (valid_mantissa _ _ _ Hv) as (Hre & Hm53 & _).
    unfold mul, SFmul. simpl xorb.
    remember (m * 8388608000000000)%positive as M eqn:HMdef.
    assert (HM : Z.pos M = Z.pos m * (1000000000 * 2 ^ 23))
      by (rewrite HMdef, Pos2Z.inj_mul; reflexivity).
    clear HMdef.
    set (E := e + -23).
    assert (Pe : 0 < 2 ^ (- e)) by (apply Z.pow_pos_nonneg; lia).
    assert (HE : 2 ^ (- E) = 2 ^ (- e) * 2 ^ 23)
      by (unfold E; rewrite <- pow2_split by lia; f_equal; lia).
    assert (HMlo : j * 1000000000 * 2 ^ (- E) <= Z.pos M) by (rewrite HE, HM; nia).
    assert (HMhi : Z.pos M <= (j + 1) * 1000000000 * 2 ^ (- E) - 1000000000 * 2 ^ 23)
      by (rewrite HE, HM; nia).
    pose proof (digits2_bounds M) as [HdLo HdHi].
    assert (Hd53 : 53 <= Z.pos (digits2_pos M)).
    { apply (digits2_ge M 52); [lia|]. rewrite HM.
      assert (1 <= Z.pos m) by lia. nia. }
    assert (Hd106 : Z.pos (digits2_pos M) <= 106).
    { apply digits2_le; [lia|]. rewrite HM. change (2 ^ 106) with (2 ^ 53 * 2 ^ 53). nia. }
    assert (HdE : Z.pos (digits2_pos M) + E <= 50).
    { assert (Hlt : Z.pos M < 2 ^ (50 - E)).
      { replace (50 - E) with (50 + - E) by lia. rewrite pow2_split by (unfold E; lia).
        assert (0 < 2 ^ (- E)) by (apply Z.pow_pos_nonneg; unfold E; lia).
        assert ((j + 1) * 1000000000 <= 2 ^ 50) by (change (2 ^ 50) with (2 ^ 20 * 2 ^ 30); nia).
        nia. }
      apply digits2_le in Hlt; [lia|unfold E; lia]. }
    remember (fexp prec emax (Z.pos (digits2_pos M) + E)) as e1 eqn:He1.
    rewrite fexp_value in He1.
    destruct (binary_round_aux_spec false M E loc_Exact) as (m2 & Hb & Hh & Hr);
      [rewrite fexp_value; unfold E in *; lia|rewrite fexp_value; lia|].
    rewrite fexp_value, <- He1 in Hb, Hh, Hr. specialize (Hh eq_refl).
    set (n := e1 - E) in *.
    assert (Hn : 0 <= n <= 53) by (unfold n, E in *; lia).
    assert (Pn : 0 < 2 ^ n) by (apply Z.pow_pos_nonneg; lia).
    assert (P1 : 0 < 2 ^ (- e1)) by (apply Z.pow_pos_nonneg; lia).
    assert (HE1 : 2 ^ (- E) = 2 ^ (- e1) * 2 ^ n)
      by (rewrite <- pow2_split by lia; f_equal; unfold n; lia).
    assert (Hn53 : 2 ^ n <= 2 ^ 53) by (apply Z.pow_le_mono_r; lia).
    apply (rounded_between _ _ m2 e1); try lia.
    + exact Hr.
    + split.
      * apply Z.le_trans with (Z.pos M / 2 ^ n); [|lia].
        apply Z.div_le_lower_bound; [lia|]. rewrite HE1 in HMlo. lia.
      * apply (Z.mul_lt_mono_pos_r (2 * 2 ^ n)); [lia|].
        rewrite HE1 in HMhi. change (2 ^ 53) with 9007199254740992 in Hn53.
        change (2 ^ 23) with 8388608 in HMhi. nia.
Qed.

(** Subtracting one from a float of [[i, i+1)], [i >= 1]. *)
Lemma sub_one_between i y :
  1 <= i -> i + 1 <= 2 ^ 21 -> fbetween i (i + 1) y ->
  fbetween (i - 1) i (sub y one).
Proof.
  intros Hi Hi1 Hy. rewrite one_value.
  destruct y as [s|s| |[|] m e]; unfold fbetween in Hy; try contradiction; [lia|].
  destruct Hy as (Hv & He & Hlo & Hhi).
  destruct (valid_mantissa _ _ _ Hv) as (Hre & Hm53 & _).
  assert (Pe : 0 < 2 ^ (- e)) by (apply Z.pow_pos_nonneg; lia).
  assert (He52 : -52 <= e).
  { assert (H : 2 ^ (- e) < 2 ^ 53) by nia. apply pow2_lt_exp in H; lia. }
  unfold sub, SFsub. replace (Z.min e (-52)) with (-52) by lia.
  destruct (shl_align_spec m e (-52)) as (_ & Hs1 & Hf1).
  rewrite Hs1 in Hf1 by lia. clear Hs1.
  destruct (shl_align_spec 4503599627370496 (-52) (-52)) as (_ & Hs2 & Hf2).
  rewrite Hs2 in Hf2 by lia. clear Hs2.
  remember (fst (shl_align m e (-52))) as a1 eqn:Ha1. clear Ha1.
  remember (fst (shl_align 4503599627370496 (-52) (-52))) as a2 eqn:Ha2. clear Ha2.
  replace (e - -52) with (e + 52) in Hf1 by lia.
  change (Z.pos 4503599627370496 * 2 ^ (-52 - -52)) with (2 ^ 52) in Hf2.
  assert (P52 : 0 < 2 ^ (e + 52)) by (apply Z.pow_pos_nonneg; lia).
  assert (E52 : 2 ^ 52 = 2 ^ (- e) * 2 ^ (e + 52))
    by (rewrite <- pow2_split by lia; f_equal; lia).
  unfold cond_Zopp.
  assert (HAlo : (i - 1) * 2 ^ 52 <= Z.pos a1 - Z.pos a2)
    by (rewrite Hf1, Hf2, E52; nia).
  assert (HAhi : Z.pos a1 - Z.pos a2 <= i * 2 ^ 52 - 2 ^ (e + 52))
    by (rewrite Hf1, Hf2, E52; nia).
  assert (HAm : Z.pos a1 - Z.pos a2 < Z.pos m * 2 ^ (e + 52)) by lia.
  clear Hf1 Hf2.
  destruct (Z.pos a1 - Z.pos a2) as [|a|a] eqn:HA.
  - simpl. assert (2 ^ 52 > 0) by lia. nia.
  - unfold binary_normalize.
    pose proof (digits2_bounds a) as [HdLo HdHi].
    assert (Hd73 : Z.pos (digits2_pos a) <= 73).
    { apply digits2_le; [lia|].
      assert (i * 2 ^ 52 <= 2 ^ 21 * 2 ^ 52) by nia.
      change (2 ^ 73) with (2 ^ 21 * 2 ^ 52). lia. }
    assert (Hde : Z.pos (digits2_pos a) <= e + 105).
    { apply digits2_le; [lia|].
      replace (e + 105) with (53 + (e + 52)) by lia. rewrite pow2_split by lia. nia. }
    remember (fexp prec emax (Z.pos (digits2_pos a) + -52)) as e1 eqn:He1.
    rewrite fexp_value in He1.
    destruct (binary_round_spec false a (-52)) as (m2 & Hr & Hex & Hin);
      [rewrite fexp_value; lia|].
    rewrite fexp_value, <- He1 in Hr, Hex, Hin.
    assert (P1 : 0 < 2 ^ (- e1)) by (apply Z.pow_pos_nonneg; lia).
    apply (rounded_between _ _ m2 e1); try lia; [exact Hr|].
    destruct (Z_le_gt_dec e1 (-52)) as [Hle|Hgt].
    + specialize (Hex Hle).
      assert (E1 : 2 ^ (- e1) = 2 ^ 52 * 2 ^ (-52 - e1))
        by (rewrite <- pow2_split by lia; f_equal; lia).
      assert (Pk : 0 < 2 ^ (-52 - e1)) by (apply Z.pow_pos_nonneg; lia).
      rewrite Hex, E1, !Z.mul_assoc. split.
      * apply Z.mul_le_mono_nonneg_r; lia.
      * apply Z.mul_lt_mono_pos_r; lia.
    + destruct (Hin ltac:(lia)) as (Hb & Hh).
      replace (e1 - -52) with (e1 + 52) in Hb, Hh by lia.
      assert (Pn : 0 < 2 ^ (e1 + 52)) by (apply Z.pow_pos_nonneg; lia).
      assert (E1 : 2 ^ 52 = 2 ^ (- e1) * 2 ^ (e1 + 52))
        by (rewrite <- pow2_split by lia; f_equal; lia).
      assert (Hne : 2 ^ (e1 + 52) <= 2 ^ (e + 52)) by (apply Z.pow_le_mono_r; lia).
      split.
      * apply Z.le_trans with (Z.pos a / 2 ^ (e1 + 52)); [|lia].
        apply Z.div_le_lower_bound; [lia|]. rewrite E1 in HAlo. lia.
      * apply (Z.mul_lt_mono_pos_r (2 * 2 ^ (e1 + 52))); [lia|].
        rewrite E1 in HAhi. lia.
  - exfalso. assert (0 <= Z.pos a1 - Z.pos a2) by nia. lia.
Qed.

(** [int64(z)] for a float [z] inside integer bounds. *)
Lemma to_int64_between lo hi z :
  fbetween lo hi z -> 0 <= lo -> hi <= 2 ^ 63 -> lo <= to_int64 z < hi.
Proof.
  intros Hz Hlo Hhi. unfold to_int64.
  destruct z as [s|s| |[|] m e]; unfold fbetween in Hz; try contradiction.
  - simpl. lia.
  - destruct Hz as (_ & He & Hl & Hh).
    rewrite trunc_finite by exact He.
    assert (Pe : 0 < 2 ^ (- e)) by (apply Z.pow_pos_nonneg; lia).
    assert (Hv : lo <= Z.pos m / 2 ^ (- e) < hi).
    { split; [apply Z.div_le_lower_bound; lia|apply Z.div_lt_upper_bound; lia]. }
    assert (Hr : Int64.in_range (Z.pos m / 2 ^ (- e)) = true).
    { unfold Int64.in_range, Int64.min_int, Int64.max_int.
      apply andb_true_iff. split; apply Z.leb_le; lia. }
    rewrite Hr. exact Hv.
Qed.

Lemma one_valid : valid (S754_finite false 4503599627370496 (-52)) = true.
Proof. reflexivity. Qed.

(** The test [newTokens >= 1.0]. *)
Lemma geb_one_between i y :
  fbetween i (i + 1) y ->
  (1 <= i -> geb y one = true) /\ (i = 0 -> geb y one = false).
Proof.
  intros Hy. rewrite one_value. unfold geb, leb, SFleb.
  destruct y as [s|s| |[|] m e]; unfold fbetween in Hy; try contradiction.
  - split; [lia|reflexivity].
  - destruct Hy as (Hv & He & Hl & Hh).
    destruct (valid_mantissa _ _ _ Hv) as (Hre & _).
    rewrite (SFcompare_value _ _ _ _ one_valid Hv).
    assert (Pe : 0 < 2 ^ (- e)) by (apply Z.pow_pos_nonneg; lia).
    assert (Pk : 0 < 2 ^ (e + 1074)) by (apply Z.pow_pos_nonneg; lia).
    assert (E : Z.pos 4503599627370496 * 2 ^ (-52 + 1074) = 2 ^ (- e) * 2 ^ (e + 1074)).
    { change (Z.pos 4503599627370496) with (2 ^ 52).
      rewrite <- !pow2_split by lia. f_equal. lia. }
    rewrite E. split.
    + intros Hi.
      assert (Hle : 2 ^ (- e) * 2 ^ (e + 1074) <= Z.pos m * 2 ^ (e + 1074)) by nia.
      destruct (Z.compare_spec (2 ^ (- e) * 2 ^ (e + 1074)) (Z.pos m * 2 ^ (e + 1074)));
        [reflexivity|reflexivity|lia].
    + intros ->.
      assert (Hlt : Z.pos m * 2 ^ (e + 1074) < 2 ^ (- e) * 2 ^ (e + 1074)) by nia.
      destruct (Z.compare_spec (2 ^ (- e) * 2 ^ (e + 1074)) (Z.pos m * 2 ^ (e + 1074)));
        [lia|lia|reflexivity].
Qed.

(** The cap [math.Min(capacity, x)] when the capacity is not below [x]'s
    unit interval. *)
Lemma math_Min_between i K cap x :
  1 <= K -> 0 <= i <= K ->
  fbetween K (K + 1) cap -> fbetween i (i + 1) x ->
  fbetween i (i + 1) (math_Min cap x).
Proof.
  intros HK Hi Hc Hx.
  destruct cap as [s|s| |[|] mc ec]; unfold fbetween in Hc; try contradiction; [lia|].
  destruct Hc as (Hvc & Hec & Hcl & Hch).
  destruct x as [s|s| |[|] mx ex]; pose proof Hx as Hx'; unfold fbetween in Hx';
    try contradiction.
  - exact Hx.
  - destruct Hx' as (Hvx & Hex & Hxl & Hxh).
    unfold math_Min. cbn [is_inf is_nan orb eqb SFeqb SFcompare zero andb].
    unfold ltb.
    destruct (SFltb (S754_finite false mc ec) (S754_finite false mx ex)) eqn:Hlt;
      [|exact Hx].
    apply SFltb_value in Hlt; try assumption.
    assert (Pc : 0 < 2 ^ (- ec)) by (apply Z.pow_pos_nonneg; lia).
    assert (Px : 0 < 2 ^ (- ex)) by (apply Z.pow_pos_nonneg; lia).
    unfold fbetween. split; [exact Hvc|]. split; [exact Hec|]. split; [nia|].
    apply (Z.mul_lt_mono_pos_r (2 ^ (- ex))); [exact Px|]. nia.
Qed.

Lemma div_core_value mt et :
  Z.pos (digits2_pos mt) = 53 -> -52 <= et <= 0 ->
  SFdiv_core_binary prec emax (Z.pos mt) et 8388608000000000 (-23) =
  (Z.pos mt * 2 ^ 53 / Z.pos 8388608000000000, et - 30,
   new_location 8388608000000000 (Z.pos mt * 2 ^ 53 mod Z.pos 8388608000000000)).
Proof.
  intros Hd He. unfold SFdiv_core_binary.
  change (Zdigits2 (Z.pos mt)) with (Z.pos (digits2_pos mt)). rewrite Hd.
  change (Zdigits2 8388608000000000) with 53.
  rewrite fexp_value.
  set (e' := Z.min _ _).
  assert (He' : e' = et - 30) by (unfold e'; lia).
  clearbody e'. subst e'.
  replace (et - -23 - (et - 30)) with 53 by lia.
  cbv iota beta. rewrite Z.shiftl_mul_pow2 by lia.
  unfold Z.div, Z.modulo.
  destruct (Z.div_eucl (Z.pos mt * 2 ^ 53) 8388608000000000) as [q r].
  reflexivity.
Qed.

(** The balance read by a call: [float64(t) / 1e9] for a nano-token count
    [t] of the [i]-th billion. *)
Lemma div_1e9_between i t :
  0 <= i -> i + 1 <= 2 ^ 20 ->
  i * 1000000000 <= t < (i + 1) * 1000000000 ->
  fbetween i (i + 1) (div (of_Z t) c1e9).
Proof.
  intros Hi Hi1 Ht. rewrite c1e9_value.
  destruct (Z.eq_dec t 0) as [->|Hne].
  - simpl. lia.
  - assert (Ht53 : 0 < t < 2 ^ 53).
    { split; [lia|]. change (2 ^ 20) with 1048576 in Hi1.
      change (2 ^ 53) with 9007199254740992. lia. }
    destruct (of_Z_exact t Ht53) as (mt & et & Heq & Hv & Het & Hmt).
    rewrite Heq in Hv |- *.
    destruct (valid_mantissa _ _ _ Hv) as (_ & Hm53 & Hm52).
    specialize (Hm52 ltac:(lia)).
    assert (Hdt : Z.pos (digits2_pos mt) = 53) by (apply digits2_unique; lia).
    assert (Pt : 0 < 2 ^ (- et)) by (apply Z.pow_pos_nonneg; lia).
    assert (Het3 : et <= -3).
    { assert (H : 2 ^ 2 < 2 ^ (- et)).
      { change (2 ^ 2) with 4. change (2 ^ 20) with 1048576 in Hi1.
        change (2 ^ 52) with 4503599627370496 in Hm52. nia. }
      apply pow2_lt_exp in H; lia. }
    unfold div, SFdiv. rewrite (div_core_value mt et Hdt) by lia.
    cbv zeta. change (xorb false false) with false.
    remember (Z.pos mt * 2 ^ 53) as a eqn:Ha.
    remember (new_location 8388608000000000 (a mod Z.pos 8388608000000000)) as l eqn:Hl.
    clear Hl.
    change (Z.pos 8388608000000000) with (1000000000 * 2 ^ 23).
    set (b := 1000000000 * 2 ^ 23).
    assert (Hb : b = 8388608000000000) by reflexivity.
    assert (Hq52 : 2 ^ 52 <= a / b).
    { apply Z.div_le_lower_bound; [lia|]. rewrite Ha, Hb.
      change (2 ^ 52) with 4503599627370496 in *.
      change (2 ^ 53) with 9007199254740992. lia. }
    assert (Hq54 : a / b < 2 ^ 54).
    { apply Z.div_lt_upper_bound; [lia|]. rewrite Ha, Hb.
      change (2 ^ 53) with 9007199254740992 in *.
      change (2 ^ 54) with 18014398509481984. lia. }
    assert (Hqb : a / b * b <= a) by (rewrite Z.mul_comm; apply Z.mul_div_le; lia).
    destruct (a / b) as [|qp|qp] eqn:Hqp; try lia.
    assert (Hdq : 53 <= Z.pos (digits2_pos qp) <= 54).
    { split; [apply (digits2_ge qp 52); lia|apply digits2_le; lia]. }
    remember (fexp prec emax (Z.pos (digits2_pos qp) + (et - 30))) as e1 eqn:He1.
    rewrite fexp_value in He1.
    destruct (binary_round_aux_spec false qp (et - 30) l) as (m2 & Hbd & _ & Hr);
      [rewrite fexp_value; lia|rewrite fexp_value; lia|].
    rewrite fexp_value, <- He1 in Hbd, Hr.
    set (n := e1 - (et - 30)) in *.
    assert (Hn : 0 <= n <= 1) by (unfold n; lia).
    assert (Pn : 0 < 2 ^ n) by (apply Z.pow_pos_nonneg; lia).
    assert (P1 : 0 < 2 ^ (- e1)) by (apply Z.pow_pos_nonneg; lia).
    assert (E1 : 2 ^ (53 - et) = 2 ^ (- e1) * 2 ^ n * 2 ^ 23).
    { rewrite <- !pow2_split by lia. f_equal. unfold n. lia. }
    assert (Ea : a = t * 2 ^ (53 - et)).
    { rewrite Ha, Hmt. replace (53 - et) with (- et + 53) by lia.
      rewrite pow2_split by lia. ring. }
    assert (H30 : 2 ^ 30 <= 2 ^ (- e1)) by (apply Z.pow_le_mono_r; lia).
    change (2 ^ 30) with 1073741824 in H30.
    assert (Hdn : Z.pos qp / 2 ^ n * 2 ^ n <= Z.pos qp)
      by (rewrite Z.mul_comm; apply Z.mul_div_le; lia).
    assert (H52 : 0 < i + 1 <= 2 ^ 52).
    { change (2 ^ 20) with 1048576 in Hi1. change (2 ^ 52) with 4503599627370496. lia. }
    apply (rounded_between _ _ m2 e1); try lia; [exact Hr|].
    split.
      * apply Z.le_trans with (Z.pos qp / 2 ^ n); [|lia].
        apply Z.div_le_lower_bound; [lia|].
        rewrite <- Hqp. apply Z.div_le_lower_bound; [lia|].
        rewrite Ea, E1. unfold b.
        assert (0 < 2 ^ (- e1) * 2 ^ n * 2 ^ 23) by nia.
        nia.
      * assert (Hup : Z.pos qp * b <= ((i + 1) * 1000000000 - 1) * 2 ^ (53 - et)).
        { apply Z.le_trans with a; [exact Hqb|]. rewrite Ea.
          apply Z.mul_le_mono_nonneg_r; [apply Z.pow_nonneg|]; lia. }
        rewrite E1 in Hup. unfold b in Hup.
        assert (P23 : 0 < 2 ^ 23) by lia.
        assert (Hup2 : Z.pos qp * 1000000000
                       <= ((i + 1) * 1000000000 - 1) * (2 ^ (- e1) * 2 ^ n)).
        { apply (mul_le_cancel_r _ _ (2 ^ 23)); [exact P23|]. lia. }
        assert (Hup3 : Z.pos qp / 2 ^ n * 1000000000
                       <= ((i + 1) * 1000000000 - 1) * 2 ^ (- e1)).
        { apply (mul_le_cancel_r _ _ (2 ^ n)); [exact Pn|]. nia. }
        nia.
Qed.

Lemma refill_zero r t :
  is_finite r = true ->
  exists s, mul (div (of_Z (Int64.sub t t)) c1e9) r = S754_zero s.
Proof.
  intros Hr. unfold Int64.sub. rewrite Z.sub_diag.
  change (div (of_Z (Int64.wrap 0)) c1e9) with (S754_zero false).
  destruct r as [s|s| |s m e]; try discriminate Hr.
  - exists (xorb false s). reflexivity.
  - exists (xorb false s). reflexivity.
Qed.

Lemma add_zero_between lo hi x s :
  fbetween lo hi x -> fbetween lo hi (add x (S754_zero s)).
Proof.
  destruct x as [sx|sx| |[|] m e]; unfold fbetween; try contradiction.
  - intros H. destruct sx, s; exact H.
  - intros H. exact H.
Qed.

Lemma Allow_step K t i rl :
  1 <= K -> K + 1 <= 2 ^ 20 -> 0 <= i <= K -> limiter_inv K t i rl ->
  (1 <= i -> snd (Allow rl t) = true /\ limiter_inv K t (i - 1) (fst (Allow rl t))) /\
  (i = 0 -> snd (Allow rl t) = false).
Proof.
  intros HK HK1 Hi. destruct rl as [r c tk lu]. unfold limiter_inv.
  cbn [rate capacity tokens lastUpdate]. intros (Hr & Hc & Hlu & Htk). subst lu.
  assert (H20 : 2 ^ 20 = 1048576) by reflexivity.
  assert (H21 : 2 ^ 21 = 2097152) by reflexivity.
  assert (H63 : 2 ^ 63 = 9223372036854775808) by reflexivity.
  unfold Allow. cbn [rate capacity tokens lastUpdate].
  destruct (refill_zero r t Hr) as [s Hs]. rewrite Hs.
  assert (Hcur : fbetween i (i + 1) (div (of_Z tk) c1e9))
    by (apply div_1e9_between; lia).
  pose proof (add_zero_between _ _ _ s Hcur) as Hadd.
  pose proof (math_Min_between i K c _ HK Hi Hc Hadd) as Hmin.
  remember (math_Min c (add (div (of_Z tk) c1e9) (S754_zero s))) as x eqn:Hx.
  clear Hx Hadd Hcur Hs.
  destruct (geb_one_between i x Hmin) as [Hge1 Hge0].
  split.
  - intros H1. rewrite (Hge1 H1). cbn [fst snd rate capacity tokens lastUpdate].
    split; [reflexivity|]. repeat split; try assumption.
    + assert (Hsub : fbetween (i - 1) (i - 1 + 1) (sub x one)).
      { replace (i - 1 + 1) with i by lia. apply sub_one_between; [lia|lia|exact Hmin]. }
      apply mul_1e9_between in Hsub; [|lia|lia].
      apply to_int64_between in Hsub; lia.
    + assert (Hsub : fbetween (i - 1) (i - 1 + 1) (sub x one)).
      { replace (i - 1 + 1) with i by lia. apply sub_one_between; [lia|lia|exact Hmin]. }
      apply mul_1e9_between in Hsub; [|lia|lia].
      apply to_int64_between in Hsub; lia.
  - intros Hi0. rewrite (Hge0 Hi0). reflexivity.
Qed.

Lemma burst_from K t :
  1 <= K -> K + 1 <= 2 ^ 20 ->
  forall (n : nat) rl, Z.of_nat n <= K -> limiter_inv K t (Z.of_nat n) rl ->
  burst rl t n.
Proof.
  intros HK HK1. unfold burst.
  induction n as [|n IH]; intros rl Hn Hinv.
  - destruct (Allow_step K t 0 rl HK HK1 ltac:(lia) Hinv) as [_ H0].
    specialize (H0 eq_refl).
    cbn [repeat Allow_seq]. destruct (Allow rl t) as [rl1 ok].
    cbn [snd] in *. subst ok. reflexivity.
  - destruct (Allow_step K t (Z.of_nat (S n)) rl HK HK1 ltac:(lia) Hinv) as [H1 _].
    destruct (H1 ltac:(lia)) as [Hok Hinv1].
    replace (Z.of_nat (S n) - 1) with (Z.of_nat n) in Hinv1 by lia.
    change (repeat t (S (S n))) with (t :: repeat t (S n)).
    cbn [Allow_seq]. destruct (Allow rl t) as [rl1 ok].
    cbn [fst snd] in *. subst ok.
    specialize (IH rl1 ltac:(lia) Hinv1).
    destruct (Allow_seq rl1 (repeat t (S n))) as [rl2 oks].
    cbn [snd] in *. rewrite IH. reflexivity.
Qed.

Lemma trunc_between lo x : fbetween lo (lo + 1) x -> trunc x = Some lo.
Proof.
  destruct x as [s|s| |[|] m e]; unfold fbetween; try contradiction.
  - intros H. simpl. f_equal. lia.
  - intros (_ & He & Hlo & Hhi). rewrite trunc_finite by exact He. f_equal.
    assert (P : 0 < 2 ^ (- e)) by (apply Z.pow_pos_nonneg; lia).
    symmetry. apply Z.div_unique with (Z.pos m - lo * 2 ^ (- e)); lia.
Qed.

Lemma c01_value : dec 1 10 = S754_finite false 7205759403792794 (-56).
Proof. vm_compute. reflexivity. Qed.

Lemma ten_value : of_Z 10 = S754_finite false 5629499534213120 (-49).
Proof. vm_compute. reflexivity. Qed.

Lemma c1e7_value : of_Z 10000000 = S754_finite false 5368709120000000 (-29).
Proof. vm_compute. reflexivity. Qed.

Lemma SFleb_value m1 e1 m2 e2 :
  valid (S754_finite false m1 e1) = true ->
  valid (S754_finite false m2 e2) = true ->
  SFleb (S754_finite false m1 e1) (S754_finite false m2 e2) = true ->
  Z.pos m1 * 2 ^ (e1 + 1074) <= Z.pos m2 * 2 ^ (e2 + 1074).
Proof.
  intros H1 H2. unfold SFleb. rewrite (SFcompare_value _ _ _ _ H1 H2).
  destruct (Z.compare_spec (Z.pos m1 * 2 ^ (e1 + 1074)) (Z.pos m2 * 2 ^ (e2 + 1074)));
    intros; try discriminate; lia.
Qed.

(** A rate of at most ten million has a tenth below [2^20]. *)
Lemma mul_tenth_between m e :
  valid (S754_finite false m e) = true ->
  leb (S754_finite false m e) (of_Z 10000000) = true ->
  exists K0, 0 <= K0 /\ K0 + 1 <= 2 ^ 20 /\
             fbetween K0 (K0 + 1) (mul (S754_finite false m e) (dec 1 10)).
Proof.
  intros Hv Hle. rewrite c1e7_value in Hle. rewrite c01_value.
  apply SFleb_value in Hle; [|exact Hv|reflexivity].
  destruct (valid_mantissa _ _ _ Hv) as (He & Hm53 & Hm52).
  change (-29 + 1074) with 1045 in Hle.
  assert (P0 : 0 < 2 ^ (e + 1074)) by (apply Z.pow_pos_nonneg; lia).
  assert (E1045 : 2 ^ 1045 = 2 ^ 29 * 2 ^ 1016)
    by (rewrite <- Z.pow_add_r by lia; reflexivity).
  assert (He29 : e <= -29).
  { destruct (Z.le_gt_cases e (-29)) as [H|H]; [exact H|exfalso].
    specialize (Hm52 ltac:(lia)).
    assert (H1 : 2 ^ 52 * 2 ^ (e + 1074) <= Z.pos 5368709120000000 * 2 ^ 1045).
    { eapply Z.le_trans; [|exact Hle]. apply Z.mul_le_mono_nonneg_r; lia. }
    rewrite <- Z.pow_add_r in H1 by lia.
    assert (H2 : Z.pos 5368709120000000 * 2 ^ 1045 < 2 ^ 53 * 2 ^ 1045).
    { apply Z.mul_lt_mono_pos_r; [apply Z.pow_pos_nonneg; lia|reflexivity]. }
    rewrite <- Z.pow_add_r in H2 by lia.
    assert (H3 : 2 ^ (52 + (e + 1074)) < 2 ^ (53 + 1045)) by lia.
    apply pow2_lt_exp in H3; lia. }
  assert (PX : 0 < 2 ^ (- e)) by (apply Z.pow_pos_nonneg; lia).
  assert (Hm : Z.pos m <= 10000000 * 2 ^ (- e)).
  { apply (mul_le_cancel_r _ _ (2 ^ (e + 1074) * 2 ^ 29)); [lia|].
    assert (E : 2 ^ (- e) * 2 ^ (e + 1074) = 2 ^ 1074).
    { rewrite <- Z.pow_add_r by lia. f_equal. lia. }
    assert (E' : 2 ^ 1074 = 2 ^ 1045 * 2 ^ 29)
      by (rewrite <- Z.pow_add_r by lia; reflexivity).
    replace (10000000 * 2 ^ (- e) * (2 ^ (e + 1074) * 2 ^ 29))
      with (10000000 * 2 ^ 29 * (2 ^ (- e) * 2 ^ (e + 1074))) by ring.
    rewrite E, E'.
    replace (Z.pos m * (2 ^ (e + 1074) * 2 ^ 29))
      with (Z.pos m * 2 ^ (e + 1074) * 2 ^ 29) by ring.
    change (10000000 * 2 ^ 29) with (Z.pos 5368709120000000).
    rewrite Z.mul_assoc.
    apply Z.mul_le_mono_nonneg_r; [apply Z.pow_nonneg; lia|exact Hle]. }
  clear Hle P0 E1045.
  unfold mul, SFmul. change (xorb false false) with false.
  remember (m * 7205759403792794)%positive as P eqn:HP.
  assert (HPz : Z.pos P = Z.pos m * 7205759403792794)
    by (rewrite HP, Pos2Z.inj_mul; reflexivity).
  clear HP.
  assert (Hd53 : 53 <= Z.pos (digits2_pos P)).
  { apply (digits2_ge P 52); [lia|]. rewrite HPz.
    change (2 ^ 52) with 4503599627370496. lia. }
  assert (E77 : 2 ^ (77 - e) = 2 ^ 77 * 2 ^ (- e)).
  { rewrite <- Z.pow_add_r by lia. f_equal; lia. }
  assert (V77 : 2 ^ 77 = 151115727451828646838272) by reflexivity.
  assert (Hd77 : Z.pos (digits2_pos P) <= 77 - e).
  { apply digits2_le; [lia|]. rewrite HPz, E77, V77. nia. }
  destruct (binary_round_aux_spec false P (e + -56) loc_Exact) as (m2 & Hbd & Hex & Hr);
    [rewrite fexp_value; lia|rewrite fexp_value; lia|].
  specialize (Hex eq_refl).
  rewrite fexp_value in Hbd, Hex, Hr.
  remember (Z.max (Z.pos (digits2_pos P) + (e + -56) - 53) (-1074)) as e1 eqn:He1.
  assert (He1b : e + -56 <= e1 <= -32) by lia.
  clear He1 Hd53 Hd77.
  set (n := e1 - (e + -56)) in *.
  assert (Hn : 0 <= n) by (unfold n; lia).
  assert (PN : 0 < 2 ^ n) by (apply Z.pow_pos_nonneg; lia).
  assert (PE : 0 < 2 ^ (- e1)) by (apply Z.pow_pos_nonneg; lia).
  assert (ENE : 2 ^ n * 2 ^ (- e1) = 2 ^ 56 * 2 ^ (- e)).
  { rewrite <- !Z.pow_add_r by lia. f_equal. unfold n. lia. }
  assert (V56 : 2 ^ 56 = 72057594037927936) by reflexivity.
  assert (V20 : 2 ^ 20 = 1048576) by reflexivity.
  assert (V52 : 2 ^ 52 = 4503599627370496) by reflexivity.
  assert (Hm2 : 0 <= m2).
  { apply Z.le_trans with (Z.pos P / 2 ^ n); [apply Z.div_pos; lia|lia]. }
  assert (Hm2lt : m2 < 2 ^ 20 * 2 ^ (- e1)).
  { destruct (Z.lt_ge_cases m2 (2 ^ 20 * 2 ^ (- e1))) as [H|H]; [exact H|exfalso].
    assert (H1 : 2 * (2 ^ 20 * 2 ^ (- e1)) * 2 ^ n <= 2 * Z.pos P + 2 ^ n).
    { eapply Z.le_trans; [|exact Hex].
      apply Z.mul_le_mono_nonneg_r; lia. }
    replace (2 * (2 ^ 20 * 2 ^ (- e1)) * 2 ^ n)
      with (2 * 2 ^ 20 * (2 ^ n * 2 ^ (- e1))) in H1 by ring.
    rewrite ENE in H1.
    assert (H2 : 2 ^ n <= 2 ^ 56 * 2 ^ (- e)).
    { rewrite <- ENE. clear -PN PE. nia. }
    rewrite HPz, V20, V56 in *. clear -H1 H2 Hm PX. nia. }
  set (K0 := m2 / 2 ^ (- e1)).
  assert (HK0 : 0 <= K0) by (apply Z.div_pos; lia).
  assert (HK0lt : K0 < 2 ^ 20).
  { apply Z.div_lt_upper_bound; [lia|]. rewrite Z.mul_comm. exact Hm2lt. }
  assert (Hdiv : K0 * 2 ^ (- e1) <= m2 < (K0 + 1) * 2 ^ (- e1)).
  { unfold K0. pose proof (Z.mul_div_le m2 (2 ^ (- e1)) PE).
    pose proof (Z.mul_succ_div_gt m2 (2 ^ (- e1)) PE). lia. }
  exists K0. split; [exact HK0|]. split; [lia|].
  apply (rounded_between _ _ m2 e1); try lia. exact Hr.
Qed.

Lemma math_Max_between K0 r :
  0 <= K0 -> fbetween K0 (K0 + 1) r ->
  exists K, 10 <= K <= Z.max 10 K0 /\ fbetween K (K + 1) (math_Max (of_Z 10) r).
Proof.
  intros HK0 Hr. rewrite ten_value.
  assert (Hten : fbetween 10 (10 + 1) (S754_finite false 5629499534213120 (-49))).
  { unfold fbetween. split; [reflexivity|]. split; [lia|].
    change (2 ^ (- -49)) with 562949953421312. lia. }
  destruct r as [s|s| |[|] q e']; unfold fbetween in Hr; try contradiction.
  - exists 10. split; [lia|]. destruct s; exact Hten.
  - destruct Hr as (Hv & He' & Hlo & Hhi).
    assert (Hmax : math_Max (S754_finite false 5629499534213120 (-49)) (S754_finite false q e')
                   = if gtb (S754_finite false 5629499534213120 (-49)) (S754_finite false q e')
                     then S754_finite false 5629499534213120 (-49)
                     else S754_finite false q e') by reflexivity.
    rewrite Hmax. unfold gtb.
    destruct (SFltb (S754_finite false q e') (S754_finite false 5629499534213120 (-49))) eqn:Hlt.
    + exists 10. split; [lia|]. exact Hten.
    + exists K0. split.
      * assert (Hn : ~ Z.pos q * 2 ^ (- -49) < Z.pos 5629499534213120 * 2 ^ (- e')).
        { intros H. apply (SFltb_value q e' 5629499534213120 (-49)) in H;
            [congruence|exact Hv|reflexivity|exact He'|lia]. }
        change (2 ^ (- -49)) with 562949953421312 in Hn.
        assert (P : 0 < 2 ^ (- e')) by (apply Z.pow_pos_nonneg; lia).
        nia.
      * unfold fbetween. auto.
Qed.

Lemma capacity_between rps :
  valid rps = true -> leb zero rps = true -> leb rps (of_Z 10000000) = true ->
  is_finite rps = true /\
  exists K, 10 <= K /\ K + 1 <= 2 ^ 20 /\
            fbetween K (K + 1) (math_Max (of_Z 10) (mul rps (dec 1 10))).
Proof.
  intros Hv H0 H7.
  destruct rps as [s|s| |[|] m e].
  - split; [reflexivity|]. exists 10. split; [lia|].
    split; [change (2 ^ 20) with 1048576; lia|].
    rewrite c01_value, ten_value. destruct s; (split; [reflexivity|]);
      (split; [lia|]); change (2 ^ (- -49)) with 562949953421312; lia.
  - destruct s; [discriminate H0|]. rewrite c1e7_value in H7. discriminate H7.
  - discriminate H0.
  - discriminate H0.
  - split; [reflexivity|].
    destruct (mul_tenth_between m e Hv H7) as (K0 & HK0 & HK0lt & Hb).
    destruct (math_Max_between K0 _ HK0 Hb) as (K & HK & HKb).
    exists K. split; [lia|]. split; [lia|]. exact HKb.
Qed.


(** ** Concrete runs *)

Lemma default_weights :
  Forall (fun p => 0 < Weight p) [provider1; provider2; provider3] /\
  sum_weights [provider1; provider2; provider3] <= Int64.max_int.
Proof. split; [repeat constructor|vm_compute; discriminate]. Qed.

Lemma gw_one_down_reachable :
  reachable [provider1; provider2; provider3] clock0 gw_one_down.
Proof.
  apply (reach_mark _ clock0 (NewGateway unix0) "provider1" "rate_limit" (dec 1 2)).
  - apply reach_new. vm_compute. discriminate.
  - vm_compute. reflexivity.
Qed.

Lemma gw_all_down_reachable :
  reachable [provider1; provider2; provider3] (clock0 + 3 * Second) gw_all_down.
Proof.
  apply (reach_mark _ _
           (mark (mark gw_one_down "provider1" "rate_limit" (clock0 + Second) (dec 1 4))
                 "provider2" "billing" (clock0 + 2 * Second) (dec 3 4))
           "provider3" "rate_limit" (dec 1 2)); [|vm_compute; reflexivity].
  apply reach_later with (clock0 + 2 * Second); [|vm_compute; discriminate].
  apply (reach_mark _ _
           (mark gw_one_down "provider1" "rate_limit" (clock0 + Second) (dec 1 4))
           "provider2" "billing" (dec 3 4)); [|vm_compute; reflexivity].
  apply reach_later with (clock0 + Second); [|vm_compute; discriminate].
  apply (reach_mark _ _ gw_one_down "provider1" "rate_limit" (dec 1 4));
    [|vm_compute; reflexivity].
  apply reach_later with clock0; [|vm_compute; discriminate].
  exact gw_one_down_reachable.
Qed.

Lemma SelectProvider_never_fails_witness :
  exists p, SelectProvider gw_all_down (clock0 + 4 * Second) 50 = Return (Some p) /\
            In p [provider1; provider2; provider3].
Proof.
  apply (SelectProvider_never_fails [provider1; provider2; provider3]
           (clock0 + 3 * Second) gw_all_down (clock0 + 4 * Second) 50).
  - exact gw_all_down_reachable.
  - vm_compute. discriminate.
  - discriminate.
  - exact (proj1 default_weights).
  - exact (proj2 default_weights).
Defined.

Lemma gw_all_down_unavailable p :
  In p [provider1; provider2; provider3] ->
  unavailable gw_all_down (clock0 + 4 * Second) p = true.
Proof. intros [<-|[<-|[<-|[]]]]; vm_compute; reflexivity. Qed.

Lemma SelectProvider_all_unavailable_witness :
  exists p l1 l2,
    (forall r, SelectProvider gw_all_down (clock0 + 4 * Second) r = Return (Some p)) /\
    [provider1; provider2; provider3] = l1 ++ p :: l2 /\
    (forall q, In q l1 -> Expiry gw_all_down p < Expiry gw_all_down q) /\
    (forall q, In q l2 -> Expiry gw_all_down p <= Expiry gw_all_down q).
Proof.
  apply (SelectProvider_all_unavailable [provider1; provider2; provider3]
           (clock0 + 3 * Second) gw_all_down (clock0 + 4 * Second)).
  - exact gw_all_down_reachable.
  - vm_compute. discriminate.
  - discriminate.
  - exact gw_all_down_unavailable.
Defined.

Example gw_all_down_selects_provider2 :
  SelectProvider gw_all_down (clock0 + 4 * Second) 0 = Return (Some provider2) /\
  Expiry gw_all_down provider1 = clock0 + Second + 5 * Minute /\
  Expiry gw_all_down provider2 = clock0 + 2 * Second + Minute /\
  Expiry gw_all_down provider3 = clock0 + 3 * Second + Minute.
Proof. vm_compute. repeat split; reflexivity. Qed.

Lemma SelectProvider_weighted_walk_witness :
  totalWeight gw_one_down = sum_weights [provider1; provider2; provider3] /\
  [provider2; provider3] =
    List.filter (fun p => negb (unavailable gw_one_down (clock0 + Second) p))
                [provider1; provider2; provider3] /\
  (first_exceeding [provider2; provider3] 25 0 = None <->
   sum_weights [provider2; provider3] <= 25) /\
  SelectProvider gw_one_down (clock0 + Second) 25 =
    Return (Some (match first_exceeding [provider2; provider3] 25 0 with
                  | Some p => p
                  | None => provider2
                  end)).
Proof.
  apply (SelectProvider_weighted_walk [provider1; provider2; provider3]
           clock0 gw_one_down (clock0 + Second) 25 provider2 [provider3]).
  - exact gw_one_down_reachable.
  - exact (proj1 default_weights).
  - exact (proj2 default_weights).
  - vm_compute. reflexivity.
  - vm_compute. split; [discriminate|reflexivity].
Defined.

(** Outside the reachable states the fallback can come back empty: it
    only considers deadlines earlier than [now + 24h], so with every
    deadline two days ahead [SelectProvider] returns nil. The one-hour cap
    of [calculateCooldown] is what keeps reachable states away from this. *)
Lemma SelectProvider_nil_on_far_deadlines :
  SelectProvider gw_far_deadlines clock0 0 = Return None.
Proof. vm_compute. reflexivity. Qed.

(** C9 as stated fails: with [provider1] in cooldown and the draw [r = 50],
    the cumulative weights of the available targets are 20 and 30, none
    exceeds [r], and [provider2] is returned. *)
Lemma SelectProvider_fallback_counterexample :
  ~ weighted_walk_claim gw_one_down (clock0 + Second) 50.
Proof.
  intros H.
  destruct (H [provider2; provider3]) as (p & Hp & _).
  - vm_compute. reflexivity.
  - discriminate.
  - vm_compute. split; [discriminate|reflexivity].
  - vm_compute in Hp. discriminate Hp.
Qed.

Example fallback_returns_first_available :
  SelectProvider gw_one_down (clock0 + Second) 50 = Return (Some provider2) /\
  first_exceeding [provider2; provider3] 50 0 = None.
Proof. vm_compute. split; reflexivity. Qed.

Lemma MarkFailure_effect_witness :
  exists g' h',
    MarkFailure (NewGateway unix0) "provider2" "billing" clock0 (dec 1 2) = Return g' /\
    health g' !! "provider2"%string = Some h' /\
    ErrorCount h' = ErrorCount zeroHealth + 1 /\
    LastFailure h' = clock0 /\
    ("billing"%string = "billing"%string ->
       DisabledUntil h' = clock0 + calculateCooldown (ErrorCount h') "billing" (dec 1 2) /\
       CooldownUntil h' = CooldownUntil zeroHealth) /\
    ("billing"%string <> "billing"%string ->
       CooldownUntil h' = clock0 + calculateCooldown (ErrorCount h') "billing" (dec 1 2) /\
       DisabledUntil h' = DisabledUntil zeroHealth) /\
    (forall id, id <> "provider2"%string ->
       health g' !! id = health (NewGateway unix0) !! id) /\
    providers g' = providers (NewGateway unix0) /\
    totalWeight g' = totalWeight (NewGateway unix0) /\
    limiter g' = limiter (NewGateway unix0).
Proof.
  apply (MarkFailure_effect (NewGateway unix0) "provider2" "billing" clock0 (dec 1 2) zeroHealth).
  - vm_compute. reflexivity.
  - vm_compute. split; [discriminate|reflexivity].
Defined.


(** * Further properties *)

(** ** [SelectProvider] on any state *)

Lemma available_loop_Return g now l : forall av,
  available_loop g l now = Return av ->
  av = List.filter (fun p => negb (unavailable g now p)) l /\
  forall p, In p l -> is_Some (health g !! ID p).
Proof.
  induction l as [|p l IH]; intros av; simpl.
  - intros [= <-]. split; [reflexivity|]. intros p [].
  - unfold isInCooldown, unavailable.
    destruct (health g !! ID p) as [h|] eqn:Hl; [|discriminate].
    destruct (available_loop g l now) as [|av'] eqn:Hav; [discriminate|].
    destruct (IH av' eq_refl) as [-> Hall].
    intros [= <-]. split.
    + now destruct (Time_Before now (CooldownUntil h) || Time_Before now (DisabledUntil h)).
    + intros q [<-|Hq]; [rewrite Hl; eauto|now apply Hall].
Qed.

Lemma available_loop_Panic g now l :
  available_loop g l now = Panic <-> exists p, In p l /\ health g !! ID p = None.
Proof.
  induction l as [|p l IH]; simpl.
  - split; [discriminate|]. intros (p & [] & _).
  - unfold isInCooldown.
    destruct (health g !! ID p) as [h|] eqn:Hl.
    + destruct (available_loop g l now) as [|av'] eqn:Hav.
      * split; [intros _|reflexivity].
        destruct (proj1 IH eq_refl) as (q & Hq & Hn). exists q. split; [now right|exact Hn].
      * split; [discriminate|]. intros (q & [<-|Hq] & Hn); [congruence|].
        assert (H : @Return (list Provider) av' = Panic) by (apply IH; eauto).
        discriminate H.
    + split; [intros _|reflexivity]. exists p. split; [now left|exact Hl].
Qed.

Lemma unavailable_Expiry g now p : unavailable g now p = true -> now < Expiry g p.
Proof.
  unfold unavailable, Expiry, Time_Before. destruct (health g !! ID p) as [h|]; [|discriminate].
  rewrite orb_true_iff, !Z.ltb_lt. lia.
Qed.

Lemma Expiry_unavailable g now p :
  is_Some (health g !! ID p) -> now < Expiry g p -> unavailable g now p = true.
Proof.
  unfold unavailable, Expiry, Time_Before. intros [h ->].
  rewrite orb_true_iff, !Z.ltb_lt. lia.
Qed.

Lemma filter_nil_iff {A} (f : A -> bool) l :
  List.filter f l = [] <-> forall x, In x l -> f x = false.
Proof.
  induction l as [|a l IH]; simpl.
  - split; [intros _ x []|reflexivity].
  - destruct (f a) eqn:Ha.
    + split; [discriminate|]. intros H. specialize (H a (or_introl eq_refl)). congruence.
    + rewrite IH. split.
      * intros H x [<-|Hx]; [exact Ha|now apply H].
      * intros H x Hx. apply H. now right.
Qed.

(** X4: [SelectProvider] returns nil exactly when every provider has a
    deadline 24 hours or more ahead of the clock; an empty provider list
    is such a case. *)
Theorem SelectProvider_nil_iff g now r :
  (forall p, In p (providers g) -> is_Some (health g !! ID p)) ->
  (SelectProvider g now r = Return None <->
   forall p, In p (providers g) -> now + 24 * Hour <= Expiry g p).
Proof.
  intros Hh. unfold SelectProvider.
  rewrite (available_loop_filter g now (providers g) Hh).
  destruct (List.filter _ (providers g)) as [|first rest] eqn:Hf.
  - unfold selectSoonestExpiring, Time_Add.
    destruct (soonest_loop_spec g (providers g) None (now + 24 * Hour) Hh)
      as (sel & -> & [[-> Hall]|(p & l1 & l2 & -> & Hl & Hlt & _)]).
    + split; [intros _; exact Hall|reflexivity].
    + split; [discriminate|]. intros Hall.
      assert (Hin : In p (providers g)) by (rewrite Hl; apply in_or_app; right; now left).
      specialize (Hall p Hin). lia.
  - assert (Hin : In first (List.filter (fun p => negb (unavailable g now p)) (providers g)))
      by (rewrite Hf; now left).
    apply filter_In in Hin. destruct Hin as [Hin Hav].
    split.
    + intros H. exfalso. destruct (totalWeight g <=? 0); [discriminate|].
      destruct (weighted_loop (first :: rest) r 0); discriminate.
    + intros Hall. exfalso. specialize (Hall first Hin).
      rewrite (Expiry_unavailable g now first) in Hav; [discriminate|now apply Hh|].
      rewrite Hour_value in Hall. lia.
Qed.

Lemma soonest_loop_Panic g l : forall selected soonest,
  soonest_loop g l selected soonest = Panic ->
  exists p, In p l /\ health g !! ID p = None.
Proof.
  induction l as [|p l IH]; intros selected soonest; simpl; [discriminate|].
  destruct (health g !! ID p) as [h|] eqn:Hl.
  - destruct (Time_Before (expiry_of h) soonest); intros H; apply IH in H;
      destruct H as (q & Hq & Hn); exists q; (split; [now right|exact Hn]).
  - intros _. exists p. split; [now left|exact Hl].
Qed.

(** X5: [SelectProvider] panics in two cases only: a configured provider has
    no health record (a nil dereference in [isInCooldown]), or a provider
    is available while the total weight is not positive (the argument
    check of [rand.Int63n]). *)
Theorem SelectProvider_panic_iff g now r :
  SelectProvider g now r = Panic <->
  (exists p, In p (providers g) /\ health g !! ID p = None) \/
  (totalWeight g <= 0 /\ exists p, In p (providers g) /\ unavailable g now p = false).
Proof.
  unfold SelectProvider.
  destruct (available_loop g (providers g) now) as [|av] eqn:Hav.
  - split; [intros _; left; now apply (available_loop_Panic g now)|reflexivity].
  - destruct (available_loop_Return g now _ _ Hav) as [-> Hh].
    destruct (List.filter _ (providers g)) as [|first rest] eqn:Hf.
    + split.
      * intros H. left. now apply soonest_loop_Panic in H.
      * intros [(p & Hin & Hn)|(_ & p & Hin & Hu)].
        -- destruct (Hh p Hin) as [h Hs]. congruence.
        -- rewrite filter_nil_iff in Hf. specialize (Hf p Hin). rewrite Hu in Hf. discriminate.
    + assert (Hin : In first (List.filter (fun p => negb (unavailable g now p)) (providers g)))
        by (rewrite Hf; now left).
      apply filter_In in Hin. destruct Hin as [Hin Hu]. apply negb_true_iff in Hu.
      destruct (Z.leb_spec (totalWeight g) 0) as [Hw|Hw].
      * split; [intros _; right; eauto|reflexivity].
      * split.
        -- destruct (weighted_loop (first :: rest) r 0); discriminate.
        -- intros [(p & Hp & Hn)|(Hbad & _)]; [|lia].
           destruct (Hh p Hp) as [h Hs]. congruence.
Qed.

Lemma sum_weights_app l1 l2 : sum_weights (l1 ++ l2) = sum_weights l1 + sum_weights l2.
Proof. induction l1 as [|p l1 IH]; simpl; [reflexivity|]. unfold sum_weights in *. simpl. lia. Qed.

Lemma first_exceeding_interval l1 p l2 : forall r acc,
  Forall (fun q => 0 < Weight q) l1 ->
  acc + sum_weights l1 <= r < acc + sum_weights l1 + Weight p ->
  first_exceeding (l1 ++ p :: l2) r acc = Some p.
Proof.
  induction l1 as [|q l1 IH]; intros r acc Hpos Hr; simpl in *.
  - destruct (Z.ltb_spec r (acc + Weight p)); [reflexivity|lia].
  - inversion Hpos as [|? ? Hq Hpos']; subst.
    pose proof (sum_weights_nonneg l1 Hpos') as Hs.
    destruct (Z.ltb_spec r (acc + Weight q)) as [Hlt|Hge]; [lia|].
    apply IH; [exact Hpos'|lia].
Qed.

(** X6: The share of each provider: the draws [r] that select the available
    provider [p] are those of an interval of length [Weight p] that
    starts at the sum of the weights of the available providers before
    it; the draws at or above the sum of the available weights all go to
    the first available provider. *)
Theorem SelectProvider_weight_intervals ps t g now r l1 p l2 :
  reachable ps t g ->
  Forall (fun q => 0 < Weight q) ps -> sum_weights ps <= Int64.max_int ->
  List.filter (fun q => negb (unavailable g now q)) ps = l1 ++ p :: l2 ->
  (sum_weights l1 <= r < sum_weights l1 + Weight p ->
   SelectProvider g now r = Return (Some p)) /\
  (sum_weights (l1 ++ p :: l2) <= r ->
   SelectProvider g now r = Return (Some (hd p l1))).
Proof.
  intros Hreach Hpos Hmax Hf.
  pose proof (reachable_inv _ _ _ Hreach) as Hinv.
  pose proof Hinv as [Hp Hh Hd Hw].
  assert (Hne : ps <> []) by (intros ->; destruct l1; discriminate Hf).
  pose proof (Forall_filter_weights (fun q => negb (unavailable g now q)) ps Hpos) as Hposf.
  pose proof (sum_weights_filter_le (fun q => negb (unavailable g now q)) ps Hpos) as Hlef.
  rewrite Hf in Hposf, Hlef.
  assert (Hpos1 : Forall (fun q => 0 < Weight q) l1).
  { apply Forall_app in Hposf. tauto. }
  assert (Hsel : SelectProvider g now r =
                 Return (Some (match first_exceeding (l1 ++ p :: l2) r 0 with
                               | Some q => q
                               | None => hd p l1
                               end))).
  { unfold SelectProvider. rewrite Hp, (available_loop_filter g now ps Hh), Hf.
    rewrite (totalWeight_sum ps t g Hinv Hpos Hmax).
    pose proof (sum_weights_pos ps Hne Hpos) as Hs.
    destruct (l1 ++ p :: l2) as [|first rest] eqn:Hl; [destruct l1; discriminate Hl|].
    destruct (Z.leb_spec (sum_weights ps) 0) as [Hbad|_]; [lia|].
    rewrite (weighted_loop_first_exceeding (first :: rest) r 0 Hposf) by lia.
    destruct (first_exceeding (first :: rest) r 0); [reflexivity|].
    destruct l1 as [|a l1]; simpl in Hl; injection Hl as <- _; reflexivity. }
  rewrite Hsel. split.
  - intros Hr. rewrite (first_exceeding_interval l1 p l2 r 0 Hpos1) by lia. reflexivity.
  - intros Hr.
    assert (Hnone : first_exceeding (l1 ++ p :: l2) r 0 = None).
    { apply first_exceeding_None; [exact Hposf| |lia].
      pose proof (sum_weights_nonneg _ Hposf). lia. }
    rewrite Hnone. reflexivity.
Qed.

(** ** [HandleRequest] *)

Lemma SelectProvider_returns ps t g now r :
  gateway_inv ps t g -> t <= now -> ps <> [] ->
  Forall (fun p => 0 < Weight p) ps -> sum_weights ps <= Int64.max_int ->
  exists p, SelectProvider g now r = Return (Some p) /\ In p ps.
Proof.
  intros Hinv Hle Hne Hpos Hmax. pose proof Hinv as [Hp Hh Hd Hw].
  unfold SelectProvider. rewrite Hp, (available_loop_filter g now ps Hh).
  destruct (List.filter _ ps) as [|first rest] eqn:Hf.
  - destruct (selectSoonestExpiring_spec ps t g now Hinv Hne Hle)
      as (p & l1 & l2 & Hsel & -> & _).
    exists p. split; [exact Hsel|]. apply in_or_app. right. now left.
  - rewrite (totalWeight_sum ps t g Hinv Hpos Hmax).
    pose proof (sum_weights_pos ps Hne Hpos) as Hs.
    destruct (Z.leb_spec (sum_weights ps) 0) as [Hbad|_]; [lia|].
    assert (Hsub : forall q, In q (first :: rest) -> In q ps).
    { intros q Hq. rewrite <- Hf in Hq. now apply filter_In in Hq. }
    destruct (weighted_loop (first :: rest) r 0) as [p|] eqn:Hw'.
    + exists p. split; [reflexivity|]. apply Hsub. eapply weighted_loop_In, Hw'.
    + exists first. split; [reflexivity|]. apply Hsub. now left.
Qed.

Lemma Allow_keeps_config rl now :
  rate (fst (Allow rl now)) = rate rl /\ capacity (fst (Allow rl now)) = capacity rl.
Proof.
  unfold Allow.
  match goal with |- context [geb ?c one] => destruct (geb c one) end; split; reflexivity.
Qed.

Lemma HandleRequest_step ps t g env :
  reachable ps t g -> ps <> [] ->
  Forall (fun p => 0 < Weight p) ps -> sum_weights ps <= Int64.max_int ->
  t <= selectNow env -> selectNow env <= markNow env ->
  exists g' resp ms,
    HandleRequest g env = Return (g', resp, ms) /\
    (code resp = 200 \/ code resp = 429 \/ code resp = 502) /\
    reachable ps (markNow env) g'.
Proof.
  intros Hreach Hne Hpos Hmax Ht1 Ht2. unfold HandleRequest.
  pose proof (reach_allow ps t g (allowNow env) Hreach) as Hreach1.
  set (g1 := {| providers := providers g; health := health g;
                limiter := fst (Allow (limiter g) (allowNow env));
                totalWeight := totalWeight g |}) in *.
  destruct (snd (Allow (limiter g) (allowNow env))); cbn [negb].
  - pose proof (reachable_inv _ _ _ Hreach1) as Hinv1.
    destruct (SelectProvider_returns ps t g1 (selectNow env) (pick env)
                Hinv1 Ht1 Hne Hpos Hmax) as (p & -> & Hin).
    cbn [simulateProviderCall].
    destruct (ltb (failDraw env) (ErrorRate p)).
    + destruct (inv_health _ _ _ Hinv1 p Hin) as [h Hh].
      assert (Hlater : reachable ps (markNow env) g1)
        by (apply (reach_later ps t); [exact Hreach1|lia]).
      destruct (MarkFailure g1 (ID p) "rate_limit" (markNow env) (jitterDraw env))
        as [|g2] eqn:Hm.
      * unfold MarkFailure in Hm. rewrite Hh in Hm. discriminate Hm.
      * eexists _, _, _. split; [reflexivity|]. split; [cbn; tauto|].
        eapply reach_mark; [exact Hlater|exact Hm].
    + eexists _, _, _. split; [reflexivity|]. split; [cbn; tauto|].
      apply (reach_later ps t); [exact Hreach1|lia].
  - eexists _, _, _. split; [reflexivity|]. split; [cbn; tauto|].
    apply (reach_later ps t); [exact Hreach1|lia].
Qed.

(** X1: Serving never panics: over a non-empty provider list with positive
    weights, any sequence of requests whose clock readings do not go
    back is answered in full, each request with 200, 429 or 502, and the
    gateway is left in a state from which serving can go on. *)
Theorem serve_never_panics ps envs : forall t g,
  reachable ps t g -> ps <> [] ->
  Forall (fun p => 0 < Weight p) ps -> sum_weights ps <= Int64.max_int ->
  clock_ordered t envs ->
  exists g' resps ms t',
    serve g envs = Return (g', resps, ms) /\
    length resps = length envs /\
    Forall (fun r => code r = 200 \/ code r = 429 \/ code r = 502) resps /\
    t <= t' /\ reachable ps t' g'.
Proof.
  induction envs as [|env rest IH]; intros t g Hreach Hne Hpos Hmax Hclock.
  - exists g, [], [], t. cbn. repeat split; [constructor|lia|exact Hreach].
  - destruct Hclock as (Ht1 & Ht2 & Hrest).
    destruct (HandleRequest_step ps t g env Hreach Hne Hpos Hmax Ht1 Ht2)
      as (g1 & resp & ms & Hstep & Hcode & Hreach1).
    destruct (IH (markNow env) g1 Hreach1 Hne Hpos Hmax Hrest)
      as (g2 & resps & ms' & t' & Hserve & Hlen & Hcodes & Ht' & Hreach2).
    exists g2, (resp :: resps), (ms ++ ms'), t'.
    cbn [serve]. rewrite Hstep, Hserve. repeat split.
    + cbn. now rewrite Hlen.
    + constructor; assumption.
    + lia.
    + exact Hreach2.
Qed.

Lemma count_app {A} (f : A -> bool) l1 l2 : count f (l1 ++ l2) = (count f l1 + count f l2)%nat.
Proof. unfold count. now rewrite List.filter_app, List.length_app. Qed.

Lemma HandleRequest_metrics g env g' resp ms :
  HandleRequest g env = Return (g', resp, ms) ->
  count (has_code 429) [resp] = count is_rateLimitHit ms /\
  count (has_code 502) [resp] = count (is_requestsTotal "error") ms /\
  count (has_code 502) [resp] = count is_providerError ms /\
  count (has_code 200) [resp] = count (is_requestsTotal "success") ms /\
  count (has_code 200) [resp] = count is_observation ms.
Proof.
  unfold HandleRequest.
  destruct (snd (Allow (limiter g) (allowNow env))); cbn [negb].
  - destruct (SelectProvider _ _ _) as [|[p|]]; cbn [simulateProviderCall]; try discriminate.
    destruct (ltb (failDraw env) (ErrorRate p)).
    + destruct (MarkFailure _ _ _ _ _); [discriminate|].
      intros [= <- <- <-]. repeat split; reflexivity.
    + intros [= <- <- <-]. repeat split; reflexivity.
  - intros [= <- <- <-]. repeat split; reflexivity.
Qed.

(** X2: The metrics account for every request exactly once: in any run of
    [serve], the 429 responses are as many as the increments of
    [rateLimitHits], the 502 responses as many as the increments of
    [requestsTotal] with status "error" and as the increments of
    [providerErrors], and the 200 responses as many as the increments of
    [requestsTotal] with status "success" and as the observations of
    [requestDuration]. *)
Theorem serve_metrics envs : forall g g' resps ms,
  serve g envs = Return (g', resps, ms) ->
  length resps = length envs /\
  count (has_code 429) resps = count is_rateLimitHit ms /\
  count (has_code 502) resps = count (is_requestsTotal "error") ms /\
  count (has_code 502) resps = count is_providerError ms /\
  count (has_code 200) resps = count (is_requestsTotal "success") ms /\
  count (has_code 200) resps = count is_observation ms.
Proof.
  induction envs as [|env rest IH]; intros g g' resps ms; cbn [serve].
  - intros [= <- <- <-]. repeat split; reflexivity.
  - destruct (HandleRequest g env) as [|[[g1 resp] ms1]] eqn:Hstep; [discriminate|].
    destruct (serve g1 rest) as [|[[g2 resps2] ms2]] eqn:Hserve; [discriminate|].
    intros [= <- <- <-].
    destruct (IH _ _ _ _ Hserve) as (Hlen & H1 & H2 & H3 & H4 & H5).
    destruct (HandleRequest_metrics _ _ _ _ _ Hstep) as (K1 & K2 & K3 & K4 & K5).
    change (resp :: resps2) with ([resp] ++ resps2).
    rewrite !count_app. cbn [length app]. repeat split; lia.
Qed.

Lemma MarkFailure_rate_limit_frame g id now rnd g' :
  MarkFailure g id "rate_limit" now rnd = Return g' ->
  providers g' = providers g /\ totalWeight g' = totalWeight g /\
  limiter g' = limiter g /\
  forall i, DisabledUntil <$> health g' !! i = DisabledUntil <$> health g !! i.
Proof.
  unfold MarkFailure. destruct (health g !! id) as [h|] eqn:Hh; [|discriminate].
  intros [= <-]. cbn. repeat split; try reflexivity.
  intros i. destruct (decide (i = id)) as [->|Hne].
  - rewrite lookup_insert_eq, Hh. reflexivity.
  - rewrite lookup_insert_ne by congruence. reflexivity.
Qed.

Lemma HandleRequest_frame g env g' resp ms :
  HandleRequest g env = Return (g', resp, ms) ->
  providers g' = providers g /\ totalWeight g' = totalWeight g /\
  rate (limiter g') = rate (limiter g) /\
  capacity (limiter g') = capacity (limiter g) /\
  (forall i, DisabledUntil <$> health g' !! i = DisabledUntil <$> health g !! i) /\
  (code resp <> 502 -> health g' = health g).
Proof.
  unfold HandleRequest.
  destruct (Allow_keeps_config (limiter g) (allowNow env)) as [Hr Hc].
  destruct (snd (Allow (limiter g) (allowNow env))); cbn [negb].
  - destruct (SelectProvider _ _ _) as [|[p|]]; cbn [simulateProviderCall]; try discriminate.
    destruct (ltb (failDraw env) (ErrorRate p)).
    + destruct (MarkFailure _ _ _ _ _) as [|g2] eqn:Hm; [discriminate|].
      intros [= <- <- <-].
      destruct (MarkFailure_rate_limit_frame _ _ _ _ _ Hm) as (Hp & Hw & Hl & Hd).
      rewrite Hp, Hw, Hl. cbn. repeat split; try assumption. congruence.
    + intros [= <- <- <-]. cbn. repeat split; try assumption; reflexivity.
  - intros [= <- <- <-]. cbn. repeat split; try assumption; reflexivity.
Qed.

(** X3: What serving never touches: whatever the requests, the provider
    list, the total weight, the rate and the capacity of the limiter stay
    as they were, and so does the [DisabledUntil] deadline of every
    provider, since [HandleRequest] reports every failure as
    "rate_limit"; a run without a 502 response leaves the whole health
    map as it was, error counts included. *)
Theorem serve_frame envs : forall g g' resps ms,
  serve g envs = Return (g', resps, ms) ->
  providers g' = providers g /\ totalWeight g' = totalWeight g /\
  rate (limiter g') = rate (limiter g) /\
  capacity (limiter g') = capacity (limiter g) /\
  (forall i, DisabledUntil <$> health g' !! i = DisabledUntil <$> health g !! i) /\
  (count (has_code 502) resps = 0%nat -> health g' = health g).
Proof.
  induction envs as [|env rest IH]; intros g g' resps ms; cbn [serve].
  - intros [= <- <- <-]. repeat split; reflexivity.
  - destruct (HandleRequest g env) as [|[[g1 resp] ms1]] eqn:Hstep; [discriminate|].
    destruct (serve g1 rest) as [|[[g2 resps2] ms2]] eqn:Hserve; [discriminate|].
    intros [= <- <- <-].
    destruct (IH _ _ _ _ Hserve) as (H1 & H2 & H3 & H4 & H5 & H6).
    destruct (HandleRequest_frame _ _ _ _ _ Hstep) as (K1 & K2 & K3 & K4 & K5 & K6).
    repeat split; try congruence.
    change (resp :: resps2) with ([resp] ++ resps2). rewrite count_app.
    intros Hz. etransitivity; [apply H6; lia|]. apply K6.
    intros Hc. unfold count, has_code in Hz. cbn in Hz. rewrite Hc in Hz.
    cbn in Hz. lia.
Qed.

(** ** Failures, cooldowns and the return to rotation *)

Lemma add_health_keys ps : forall (h : gmap string ProviderHealth) id,
  is_Some (fold_left add_health ps h !! id) ->
  is_Some (h !! id) \/ exists p, In p ps /\ ID p = id.
Proof.
  induction ps as [|q ps IH]; intros h id Hs; simpl in *; [now left|].
  destruct (IH _ _ Hs) as [Hq|(p & Hp & Hid)].
  - unfold add_health in Hq. destruct (decide (ID q = id)) as [Heq|Hne].
    + right. exists q. split; [now left|exact Heq].
    + rewrite lookup_insert_ne in Hq by exact Hne. now left.
  - right. exists p. split; [now right|exact Hid].
Qed.

(** X8: The health map holds one record per configured provider ID and no
    other, in every reachable state: [MarkFailure] never creates or drops
    a record. *)
Theorem health_keys ps t g id :
  reachable ps t g ->
  (is_Some (health g !! id) <-> exists p, In p ps /\ ID p = id).
Proof.
  intros Hreach. split.
  - induction Hreach as [unixNow t Ht | t t' g _ IH Hle | t g i ty rnd g' _ IH HM
                         | t g unixNow _ IH]; intros Hs.
    + unfold NewGatewayWith in Hs. rewrite NewGatewayWith_fold in Hs. simpl in Hs.
      apply add_health_keys in Hs as [Hs|Hs]; [|exact Hs].
      rewrite lookup_empty in Hs. destruct Hs as [x Hx]. discriminate Hx.
    + now apply IH.
    + apply IH. unfold MarkFailure in HM.
      destruct (health g !! i) as [h|] eqn:Hl; [|discriminate].
      injection HM as <-. simpl in Hs.
      destruct (decide (i = id)) as [Heq|Hne].
      * subst id. rewrite Hl. eauto.
      * now rewrite lookup_insert_ne in Hs by exact Hne.
    + now apply IH.
  - intros (p & Hin & <-).
    apply (inv_health ps t g (reachable_inv ps t g Hreach) p Hin).
Qed.



Lemma cooldown_at_least_Minute errorCount errorType rnd :
  valid rnd = true -> leb zero rnd = true -> ltb rnd one = true ->
  1 <= errorCount <= Int64.max_int ->
  Minute <= calculateCooldown errorCount errorType rnd.
Proof.
  intros Hv H0 H1 He.
  rewrite (calculateCooldown_closed_form _ _ _ Hv H0 H1) by lia.
  destruct (Z.leb_spec errorCount 0) as [Hbad|_]; [lia|].
  assert (Hp : 1 <= 5 ^ Z.min (errorCount - 1) 3).
  { apply (Z.pow_le_mono_r 5 0); lia. }
  rewrite Minute_value, Hour_value in *. nia.
Qed.

(** X10: A provider that has just failed is not selected during the first
    minute of its cooldown, whatever the draw, as long as some provider
    is available. *)
Theorem failed_provider_skipped g id ty now rnd h g' t r q :
  health g !! id = Some h -> 0 <= ErrorCount h < Int64.max_int ->
  valid rnd = true -> leb zero rnd = true -> ltb rnd one = true ->
  MarkFailure g id ty now rnd = Return g' ->
  now <= t < now + Minute ->
  (exists p, In p (providers g') /\ unavailable g' t p = false) ->
  SelectProvider g' t r = Return (Some q) ->
  ID q <> id.
Proof.
  intros Hh Hec Hv H0 H1 HM Ht (p & Hp & Hav) Hsel Hid.
  assert (Hq : unavailable g' t q = true).
  { unfold MarkFailure in HM. rewrite Hh in HM. injection HM as <-.
    unfold unavailable. cbn [health]. rewrite Hid, lookup_insert_eq.
    assert (Hadd : Int64.add (ErrorCount h) 1 = ErrorCount h + 1).
    { unfold Int64.add. apply wrap_small. unfold Int64.min_int, Int64.max_int in *. lia. }
    pose proof (cooldown_at_least_Minute (Int64.add (ErrorCount h) 1) ty rnd Hv H0 H1
                  ltac:(rewrite Hadd; lia)) as Hc.
    unfold Time_Add, Time_Before.
    destruct (String.eqb ty "billing"); cbn [CooldownUntil DisabledUntil];
      apply orb_true_iff; [right|left]; apply Z.ltb_lt; lia. }
  unfold SelectProvider in Hsel.
  destruct (available_loop g' (providers g') t) as [|av] eqn:Hal; [discriminate|].
  destruct (available_loop_Return g' t _ _ Hal) as [-> _].
  destruct (List.filter _ (providers g')) as [|first rest] eqn:Hf.
  - rewrite filter_nil_iff in Hf. specialize (Hf p Hp). rewrite Hav in Hf. discriminate.
  - assert (Hin : In q (first :: rest)).
    { destruct (totalWeight g' <=? 0); [discriminate|].
      destruct (weighted_loop (first :: rest) r 0) as [x|] eqn:Hw.
      - injection Hsel as ->. eapply weighted_loop_In, Hw.
      - injection Hsel as ->. now left. }
    rewrite <- Hf in Hin. apply filter_In in Hin. destruct Hin as [_ Hnq].
    rewrite Hq in Hnq. discriminate.
Qed.

Lemma NewGateway_health unixNow :
  health (NewGateway unixNow) !! "provider1"%string = Some zeroHealth /\
  health (NewGateway unixNow) !! "provider2"%string = Some zeroHealth /\
  health (NewGateway unixNow) !! "provider3"%string = Some zeroHealth /\
  totalWeight (NewGateway unixNow) = 100.
Proof. vm_compute. repeat split; reflexivity. Qed.

(** X7: The split of a fresh default gateway: out of the 100 possible draws,
    the 70 lowest select provider1, the next 20 provider2 and the last 10
    provider3, at any time. *)
Theorem NewGateway_split unixNow now r :
  0 <= now -> 0 <= r < totalWeight (NewGateway unixNow) ->
  SelectProvider (NewGateway unixNow) now r =
    Return (Some (if r <? 70 then provider1
                  else if r <? 90 then provider2 else provider3)).
Proof.
  intros Hnow Hr.
  destruct (NewGateway_health unixNow) as (H1 & H2 & H3 & Hw). rewrite Hw in Hr.
  unfold SelectProvider. rewrite Hw.
  change (providers (NewGateway unixNow)) with [provider1; provider2; provider3].
  cbn [available_loop isInCooldown].
  change (ID provider1) with "provider1"%string.
  change (ID provider2) with "provider2"%string.
  change (ID provider3) with "provider3"%string.
  unfold isInCooldown. rewrite H1, H2, H3. unfold Time_Before. cbn [zeroHealth CooldownUntil DisabledUntil].
  destruct (Z.ltb_spec now 0) as [Hbad|_]; [lia|]. cbn [orb].
  change (100 <=? 0) with false. cbv iota.
  cbn [weighted_loop]. 
  change (Int64.add 0 (Weight provider1)) with 70.
  destruct (Z.ltb_spec r 70) as [_|H70]; [reflexivity|].
  change (Int64.add 70 (Weight provider2)) with 90.
  destruct (Z.ltb_spec r 90) as [_|H90]; [reflexivity|].
  change (Int64.add 90 (Weight provider3)) with 100.
  destruct (Z.ltb_spec r 100) as [_|H100]; [reflexivity|lia].
Qed.

(** ** [AllowMutex] against [Allow] *)

Lemma binary_round_aux_not_negative m e l :
  not_negative (binary_round_aux prec emax false m e l).
Proof.
  unfold binary_round_aux.
  destruct (shr_fexp prec emax m e l) as [mrs' e'].
  destruct (shr_fexp prec emax _ e' loc_Exact) as [mrs'' e''].
  destruct (shr_m mrs''); [reflexivity| |exact I].
  destruct (e'' <=? emax - prec); reflexivity.
Qed.

Lemma of_Z_not_negative d : 0 <= d -> not_negative (of_Z d).
Proof.
  intros Hd. unfold of_Z, binary_normalize.
  destruct d as [|p|p]; [reflexivity| |lia].
  unfold binary_round. destruct (shl_align p 0 _) as [mz ez].
  apply binary_round_aux_not_negative.
Qed.

Lemma div_1e9_not_negative x : not_negative x -> not_negative (div x c1e9).
Proof.
  rewrite c1e9_value. unfold div, SFdiv.
  destruct x as [s|s| |s m e]; simpl; intros Hs; try exact I; try subst s; try reflexivity.
  destruct (SFdiv_core_binary prec emax (Z.pos m) e 8388608000000000 (-23)) as [[mz ez] lz].
  apply binary_round_aux_not_negative.
Qed.

Lemma add_zero_l x : not_negative x -> add (S754_zero false) x = x.
Proof. destruct x as [s|s| |s m e]; simpl; intros Hs; try subst s; reflexivity. Qed.

(** X11: For calls made less than a second after the last update, the mutex
    version computes exactly what [Allow] computes: the same answer and
    the same new state. The two differ only in how the elapsed time is
    turned into seconds, and below one second [Duration.Seconds] adds
    zero whole seconds to the same quotient. *)
Theorem AllowMutex_agrees rl now :
  0 <= now - lastUpdate rl < Second ->
  AllowMutex rl now = Allow rl now.
Proof.
  intros Hd.
  assert (Hsec : Second = 1000000000) by reflexivity.
  assert (Hsub : Int64.sub now (lastUpdate rl) = now - lastUpdate rl).
  { unfold Int64.sub. apply wrap_small. unfold Int64.min_int, Int64.max_int.
    change (2 ^ 63) with 9223372036854775808. lia. }
  assert (Hsat : Int64.sub_sat now (lastUpdate rl) = now - lastUpdate rl).
  { unfold Int64.sub_sat, Int64.min_int, Int64.max_int.
    change (2 ^ 63) with 9223372036854775808. lia. }
  assert (Hel : Duration_Seconds (now - lastUpdate rl)
                = div (of_Z (now - lastUpdate rl)) c1e9).
  { unfold Duration_Seconds.
    rewrite Z.quot_small, Z.rem_small by lia.
    change (of_Z 0) with (S754_zero false).
    change (of_Z 1000000000) with c1e9.
    apply add_zero_l, div_1e9_not_negative, of_Z_not_negative. lia. }
  unfold AllowMutex, Allow. rewrite Hsub, Hsat, Hel. reflexivity.
Qed.

(** ** Upper bounds through the operations of [Allow] *)

Lemma fle_mono B B' x : B <= B' -> fle B x -> fle B' x.
Proof.
  intros HB. destruct x as [s|s| |[|] m e]; simpl; try tauto.
  unfold belowZ. intros (Hv & He & Hb). split; [exact Hv|]. split; [exact He|].
  assert (Hp : 0 < 2 ^ (- e)) by (apply Z.pow_pos_nonneg; lia). nia.
Qed.

Lemma up_ge B : 0 <= B -> B <= up B.
Proof.
  intros HB. unfold up.
  assert (0 <= B / 2 ^ 52) by (apply Z.div_pos; lia). lia.
Qed.

Lemma up_mono B B' : 0 <= B <= B' -> up B <= up B'.
Proof.
  intros HB. unfold up.
  assert (B / 2 ^ 52 <= B' / 2 ^ 52) by (apply Z.div_le_mono; lia). lia.
Qed.

Lemma rounded_fle B m2 e1 r :
  rounded false m2 e1 r -> e1 <= 0 -> 0 <= B <= 2 ^ 112 ->
  m2 * 2 ^ 60 <= B * 2 ^ (- e1) -> fle B r.
Proof.
  intros Hr He1 HB Hm.
  destruct Hr as [[_ ->]|(q & e' & -> & Hle & Hq & Hv)]; [exact I|].
  destruct (valid_mantissa _ _ _ Hv) as (Her & Hq53 & Hq52).
  assert (P1 : 0 < 2 ^ (- e1)) by (apply Z.pow_pos_nonneg; lia).
  assert (Pd : 0 < 2 ^ (e' - e1)) by (apply Z.pow_pos_nonneg; lia).
  assert (He' : e' <= 0).
  { destruct (Z.le_gt_cases e' 0) as [H|H]; [exact H|exfalso].
    specialize (Hq52 ltac:(lia)).
    assert (E : 2 ^ (e' - e1) = 2 ^ e' * 2 ^ (- e1)).
    { rewrite <- Z.pow_add_r by lia. f_equal; lia. }
    assert (H2 : 2 <= 2 ^ e') by (apply (Z.pow_le_mono_r 2 1); lia).
    assert (H3 : Z.pos q * 2 ^ e' * 2 ^ 60 <= 2 ^ 112).
    { apply (mul_le_cancel_r _ _ (2 ^ (- e1))); [exact P1|].
      apply Z.le_trans with (B * 2 ^ (- e1)); [|apply Z.mul_le_mono_nonneg_r; lia].
      rewrite <- Hq, E in Hm. lia. }
    change (2 ^ 112) with (2 ^ 52 * 2 ^ 60) in H3.
    assert (H4 : Z.pos q * 2 ^ e' <= 2 ^ 52).
    { apply (mul_le_cancel_r _ _ (2 ^ 60)); [lia|exact H3]. }
    nia. }
  simpl. split; [exact Hv|]. split; [exact He'|]. unfold belowZ.
  assert (E : 2 ^ (- e1) = 2 ^ (- e') * 2 ^ (e' - e1)).
  { rewrite <- Z.pow_add_r by lia. f_equal; lia. }
  apply (mul_le_cancel_r _ _ (2 ^ (e' - e1))); [exact Pd|].
  rewrite <- Hq, E in Hm. lia.
Qed.

(** The arithmetic of one rounding: the rounded mantissa, at most one
    unit above the truncated one, stays within [up B]. *)
Lemma round_up_bound M e e1 B m2 :
  e <= e1 -> e1 <= 0 ->
  e1 = Z.max (Z.pos (digits2_pos M) + e - 53) (-1074) ->
  0 <= B -> belowZ B (Z.pos M) e ->
  m2 <= Z.pos M / 2 ^ (e1 - e) + 1 ->
  m2 * 2 ^ 60 <= up B * 2 ^ (- e1).
Proof.
  intros Hle He1 Hdef HB Hb Hm2. unfold belowZ in Hb. unfold up.
  assert (PN : 0 < 2 ^ (e1 - e)) by (apply Z.pow_pos_nonneg; lia).
  assert (PE : 0 < 2 ^ (- e1)) by (apply Z.pow_pos_nonneg; lia).
  assert (EX : 2 ^ (- e) = 2 ^ (- e1) * 2 ^ (e1 - e)).
  { rewrite <- Z.pow_add_r by lia. f_equal; lia. }
  assert (Hfl : Z.pos M / 2 ^ (e1 - e) * 2 ^ 60 <= B * 2 ^ (- e1)).
  { apply (mul_le_cancel_r _ _ (2 ^ (e1 - e))); [exact PN|].
    pose proof (Z.mul_div_le (Z.pos M) (2 ^ (e1 - e)) PN) as Hd.
    rewrite EX in Hb. nia. }
  assert (H0 : 0 <= B / 2 ^ 52) by (apply Z.div_pos; lia).
  assert (Hunit : 2 ^ 60 <= (B / 2 ^ 52 + 2) * 2 ^ (- e1)).
  { destruct (Z.le_gt_cases e1 (-60)) as [Hs|Hs].
    - assert (2 ^ 60 <= 2 ^ (- e1)) by (apply Z.pow_le_mono_r; lia). nia.
    - pose proof (digits2_bounds M) as [Hlo _].
      assert (Hd : Z.pos (digits2_pos M) - 1 = e1 - e + 52) by lia.
      rewrite Hd in Hlo.
      assert (HB2 : 2 ^ (e1 + 112) <= B).
      { apply (mul_le_cancel_r _ _ (2 ^ (- e))); [apply Z.pow_pos_nonneg; lia|].
        rewrite <- Z.pow_add_r by lia.
        apply Z.le_trans with (Z.pos M * 2 ^ 60); [|exact Hb].
        replace (e1 + 112 + - e) with (e1 - e + 52 + 60) by lia.
        rewrite (Z.pow_add_r 2 (e1 - e + 52) 60) by lia.
        apply Z.mul_le_mono_nonneg_r; lia. }
      assert (HB3 : 2 ^ (e1 + 60) <= B / 2 ^ 52).
      { apply Z.div_le_lower_bound; [lia|].
        rewrite <- Z.pow_add_r by lia.
        replace (52 + (e1 + 60)) with (e1 + 112) by lia. exact HB2. }
      assert (E2 : 2 ^ (e1 + 60) * 2 ^ (- e1) = 2 ^ 60).
      { rewrite <- Z.pow_add_r by lia. f_equal; lia. }
      nia. }
  nia.
Qed.

Lemma belowZ_digits112 B M e :
  e <= 0 -> 0 <= B <= 2 ^ 112 -> belowZ B (Z.pos M) e ->
  Z.pos (digits2_pos M) + e <= 53.
Proof.
  intros He HB Hb. unfold belowZ in Hb.
  assert (PX : 0 < 2 ^ (- e)) by (apply Z.pow_pos_nonneg; lia).
  assert (H1 : Z.pos M * 2 ^ 60 <= 2 ^ 112 * 2 ^ (- e)).
  { apply Z.le_trans with (B * 2 ^ (- e)); [exact Hb|].
    apply Z.mul_le_mono_nonneg_r; lia. }
  change (2 ^ 112) with (2 ^ 52 * 2 ^ 60) in H1.
  assert (H2 : Z.pos M <= 2 ^ 52 * 2 ^ (- e)).
  { apply (mul_le_cancel_r _ _ (2 ^ 60)); [lia|]. lia. }
  rewrite <- Z.pow_add_r in H2 by lia.
  assert (H3 : Z.pos M < 2 ^ (53 - e)).
  { apply Z.le_lt_trans with (2 ^ (52 + - e)); [exact H2|].
    apply Z.pow_lt_mono_r; lia. }
  pose proof (digits2_le M (53 - e) ltac:(lia) H3). lia.
Qed.

Lemma binary_round_aux_fle B M e l :
  e <= fexp prec emax (Z.pos (digits2_pos M) + e) -> e <= 0 ->
  0 <= B -> up B <= 2 ^ 112 -> belowZ B (Z.pos M) e ->
  fle (up B) (binary_round_aux prec emax false (Z.pos M) e l).
Proof.
  intros Hle He HB Hup Hb.
  pose proof (up_ge B HB) as Hge.
  pose proof (belowZ_digits112 B M e He ltac:(lia) Hb) as Hd.
  rewrite fexp_value in Hle.
  destruct (binary_round_aux_spec false M e l) as (m2 & Hbd & _ & Hr);
    [rewrite fexp_value; exact Hle|rewrite fexp_value; lia|].
  rewrite fexp_value in Hbd, Hr.
  remember (Z.max (Z.pos (digits2_pos M) + e - 53) (-1074)) as e1 eqn:He1.
  apply (rounded_fle (up B) m2 e1); [exact Hr|lia|lia|].
  apply (round_up_bound M e e1 B m2); try lia. exact Hb.
Qed.

Lemma binary_round_fle B a e :
  e <= 0 -> 0 <= B -> up B <= 2 ^ 112 -> belowZ B (Z.pos a) e ->
  fle (up B) (binary_round prec emax false a e).
Proof.
  intros He HB Hup Hb.
  pose proof (up_ge B HB) as Hge.
  pose proof (belowZ_digits112 B a e He ltac:(lia) Hb) as Hd.
  destruct (binary_round_spec false a e) as (m2 & Hr & Hexact & Hround);
    [rewrite fexp_value; lia|].
  rewrite fexp_value in Hr, Hexact, Hround.
  remember (Z.max (Z.pos (digits2_pos a) + e - 53) (-1074)) as e1 eqn:He1.
  apply (rounded_fle (up B) m2 e1); [exact Hr|lia|lia|].
  destruct (Z.le_gt_cases e1 e) as [Hc|Hc].
  - rewrite (Hexact Hc).
    pose proof (belowZ_align B (Z.pos a) e e1 Hc He Hb) as Hal. unfold belowZ in Hal.
    assert (PE : 0 < 2 ^ (- e1)) by (apply Z.pow_pos_nonneg; lia). nia.
  - destruct (Hround Hc) as [[_ Hm2] _].
    apply (round_up_bound a e e1 B m2); try lia. exact Hb.
Qed.

Lemma of_Z_fle t : 0 <= t < 2 ^ 53 -> fle (t * 2 ^ 60) (of_Z t).
Proof.
  intros Ht. destruct (Z.eq_dec t 0) as [->|Hne]; [exact I|].
  destruct (of_Z_exact t ltac:(lia)) as (m & e & Heq & Hv & He & Hm).
  rewrite Heq in Hv |- *. simpl. split; [exact Hv|]. split; [lia|].
  unfold belowZ. rewrite Hm. lia.
Qed.

(** [float64(t) / 1e9] for a count [t] of nanoseconds or nano-tokens. *)
Lemma div_1e9_fle t :
  0 <= t < 2 ^ 53 ->
  fle (up (t * 2 ^ 60 / 1000000000 + 1)) (div (of_Z t) c1e9).
Proof.
  intros Ht. destruct (Z.eq_dec t 0) as [->|Hne]; [exact I|].
  set (B := t * 2 ^ 60 / 1000000000 + 1).
  assert (V53 : 2 ^ 53 = 9007199254740992) by reflexivity.
  assert (V60 : 2 ^ 60 = 1152921504606846976) by reflexivity.
  assert (HB0 : 0 <= B) by (unfold B; assert (0 <= t * 2 ^ 60 / 1000000000) by (apply Z.div_pos; lia); lia).
  assert (HBlt : t * 2 ^ 60 < B * 1000000000).
  { unfold B. pose proof (Z.mul_succ_div_gt (t * 2 ^ 60) 1000000000 ltac:(lia)). lia. }
  assert (HBup : up B <= 2 ^ 112).
  { apply Z.le_trans with (up (2 ^ 53 * 2 ^ 60 / 1000000000 + 1)).
    - apply up_mono. split; [exact HB0|]. unfold B.
      assert (t * 2 ^ 60 / 1000000000 <= 2 ^ 53 * 2 ^ 60 / 1000000000)
        by (apply Z.div_le_mono; lia). lia.
    - vm_compute. discriminate. }
  destruct (of_Z_exact t ltac:(lia)) as (mt & et & Heq & Hv & Het & Hmt).
  rewrite Heq in Hv |- *.
  destruct (valid_mantissa _ _ _ Hv) as (_ & Hm53 & Hm52).
  specialize (Hm52 ltac:(lia)).
  assert (Hdt : Z.pos (digits2_pos mt) = 53) by (apply digits2_unique; lia).
  rewrite c1e9_value. unfold div, SFdiv. rewrite (div_core_value mt et Hdt) by lia.
  cbv zeta. change (xorb false false) with false.
  remember (new_location 8388608000000000
              (Z.pos mt * 2 ^ 53 mod Z.pos 8388608000000000)) as l eqn:Hl. clear Hl.
  remember (Z.pos mt * 2 ^ 53 / Z.pos 8388608000000000) as Q eqn:HQ.
  assert (Hb9 : Z.pos 8388608000000000 = 1000000000 * 2 ^ 23) by reflexivity.
  assert (V52 : 2 ^ 52 = 4503599627370496) by reflexivity.
  assert (HQ52 : 2 ^ 52 <= Q).
  { rewrite HQ. apply Z.div_le_lower_bound; [lia|]. rewrite V52, V53 in *. lia. }
  assert (HQle : Q * Z.pos 8388608000000000 <= Z.pos mt * 2 ^ 53).
  { rewrite HQ, Z.mul_comm. apply Z.mul_div_le. lia. }
  destruct Q as [|qp|qp]; try lia. clear HQ.
  assert (PX : 0 < 2 ^ (- et)) by (apply Z.pow_pos_nonneg; lia).
  apply binary_round_aux_fle; try assumption.
  - rewrite fexp_value. pose proof (digits2_ge qp 52 ltac:(lia) HQ52). lia.
  - lia.
  - unfold belowZ.
    replace (- (et - 30)) with (- et + 30) by lia.
    rewrite Z.pow_add_r by lia.
    apply (mul_le_cancel_r _ _ (1000000000 * 2 ^ 23)); [lia|].
    rewrite Hb9 in HQle. rewrite Hmt in HQle.
    change (2 ^ 30) with 1073741824. change (2 ^ 23) with 8388608 in *.
    rewrite V53, V60 in *. nia.
Qed.

Lemma mul_fle B1 B2 x y :
  fle B1 x -> fle B2 y -> 0 <= B1 -> 0 <= B2 ->
  up (B1 * B2 / 2 ^ 60 + 1) <= 2 ^ 112 ->
  fle (up (B1 * B2 / 2 ^ 60 + 1)) (mul x y).
Proof.
  intros Hx Hy HB1 HB2 Hup.
  destruct x as [sx|sx| |[|] mx ex]; unfold fle in Hx; try contradiction;
    destruct y as [sy|sy| |[|] my ey]; unfold fle in Hy; try contradiction; try exact I.
  destruct Hx as (Hvx & Hex & Hbx). destruct Hy as (Hvy & Hey & Hby).
  unfold mul, SFmul. change (xorb false false) with false.
  destruct (valid_mantissa false mx ex Hvx) as (Hrx & _ & Hnx).
  destruct (valid_mantissa false my ey Hvy) as (Hry & _ & Hny).
  set (P := B1 * B2 / 2 ^ 60 + 1) in *.
  assert (V60 : 0 < 2 ^ 60) by lia.
  assert (HP0 : 0 <= P).
  { unfold P. assert (0 <= B1 * B2 / 2 ^ 60) by (apply Z.div_pos; nia). lia. }
  assert (HPlt : B1 * B2 < P * 2 ^ 60).
  { unfold P. pose proof (Z.mul_succ_div_gt (B1 * B2) (2 ^ 60) V60). lia. }
  remember (mx * my)%positive as M eqn:HM.
  assert (HMz : Z.pos M = Z.pos mx * Z.pos my) by (rewrite HM; apply Pos2Z.inj_mul).
  clear HM.
  apply binary_round_aux_fle; try assumption; try lia.
  - rewrite fexp_value.
    assert (Hor : ex + ey <= -1074 \/ 2 ^ 52 <= Z.pos M).
    { destruct (Z.eq_dec ex (-1074)) as [Hsx|Hsx].
      - destruct (Z.eq_dec ey (-1074)) as [Hsy|Hsy]; [left; lia|].
        right. specialize (Hny ltac:(lia)). rewrite HMz. nia.
      - right. specialize (Hnx ltac:(lia)). rewrite HMz. nia. }
    destruct Hor as [Hs|H52]; [lia|].
    pose proof (digits2_ge M 52 ltac:(lia) H52). lia.
  - unfold belowZ in *.
    replace (- (ex + ey)) with (- ex + - ey) by lia.
    rewrite Z.pow_add_r by lia.
    assert (Px : 0 < 2 ^ (- ex)) by (apply Z.pow_pos_nonneg; lia).
    assert (Py : 0 < 2 ^ (- ey)) by (apply Z.pow_pos_nonneg; lia).
    apply (mul_le_cancel_r _ _ (2 ^ 60)); [exact V60|].
    rewrite HMz.
    apply Z.le_trans with (B1 * 2 ^ (- ex) * (B2 * 2 ^ (- ey))).
    + replace (Z.pos mx * Z.pos my * 2 ^ 60 * 2 ^ 60)
        with (Z.pos mx * 2 ^ 60 * (Z.pos my * 2 ^ 60)) by ring.
      apply Z.mul_le_mono_nonneg; lia.
    + replace (B1 * 2 ^ (- ex) * (B2 * 2 ^ (- ey)))
        with (B1 * B2 * (2 ^ (- ex) * 2 ^ (- ey))) by ring.
      replace (P * (2 ^ (- ex) * 2 ^ (- ey)) * 2 ^ 60)
        with (P * 2 ^ 60 * (2 ^ (- ex) * 2 ^ (- ey))) by ring.
      apply Z.mul_le_mono_nonneg_r; nia.
Qed.

Lemma add_fle B1 B2 x y :
  fle B1 x -> fle B2 y -> 0 <= B1 -> 0 <= B2 ->
  up (B1 + B2) <= 2 ^ 112 ->
  fle (up (B1 + B2)) (add x y).
Proof.
  intros Hx Hy HB1 HB2 Hup.
  pose proof (up_ge (B1 + B2) ltac:(lia)) as Hge.
  destruct x as [sx|sx| |[|] mx ex]; pose proof Hx as Hx'; unfold fle in Hx'; try contradiction;
    destruct y as [sy|sy| |[|] my ey]; pose proof Hy as Hy'; unfold fle in Hy'; try contradiction.
  - destruct sx, sy; exact I.
  - apply (fle_mono B2); [lia|exact Hy].
  - apply (fle_mono B1); [lia|exact Hx].
  - destruct Hx' as (Hvx & Hex & Hbx). destruct Hy' as (Hvy & Hey & Hby).
    unfold add, SFadd. cbn [cond_Zopp].
    set (ez := Z.min ex ey).
    destruct (shl_align_spec mx ex ez) as (_ & Hsx & Hmx).
    destruct (shl_align_spec my ey ez) as (_ & Hsy & Hmy).
    rewrite (Hsx ltac:(unfold ez; lia)) in Hmx.
    rewrite (Hsy ltac:(unfold ez; lia)) in Hmy.
    change (Z.pos (fst (shl_align mx ex ez)) + Z.pos (fst (shl_align my ey ez)))
      with (Z.pos (fst (shl_align mx ex ez) + fst (shl_align my ey ez))).
    cbn [binary_normalize].
    apply binary_round_fle; try lia.
    rewrite Pos2Z.inj_add, Hmx, Hmy.
    apply belowZ_add; apply belowZ_align; try assumption; unfold ez; lia.
Qed.

Lemma fle_floor B x :
  0 <= B -> fle B x ->
  exists i, 0 <= i /\ i * 2 ^ 60 <= B /\ fbetween i (i + 1) x.
Proof.
  intros HB Hx.
  destruct x as [s|s| |[|] m e]; unfold fle in Hx; try contradiction.
  - exists 0. simpl. lia.
  - destruct Hx as (Hv & He & Hb). unfold belowZ in Hb.
    assert (PX : 0 < 2 ^ (- e)) by (apply Z.pow_pos_nonneg; lia).
    exists (Z.pos m / 2 ^ (- e)).
    pose proof (Z.mul_div_le (Z.pos m) (2 ^ (- e)) PX) as H1.
    pose proof (Z.mul_succ_div_gt (Z.pos m) (2 ^ (- e)) PX) as H2.
    split; [apply Z.div_pos; lia|]. split.
    + apply (mul_le_cancel_r _ _ (2 ^ (- e))); [exact PX|]. nia.
    + unfold fbetween. split; [exact Hv|]. split; [exact He|]. lia.
Qed.

(** A rate of at most [n] tokens per second. *)
Lemma rate_fle r n :
  valid r = true -> leb zero r = true -> leb r (of_Z n) = true ->
  0 < n < 2 ^ 53 ->
  fle (n * 2 ^ 60) r.
Proof.
  intros Hv H0 Hn Hr.
  destruct (of_Z_exact n Hr) as (mn & en & Heq & Hvn & Hen & Hmn).
  rewrite Heq in Hn, Hvn.
  destruct r as [s|s| |[|] m e]; try exact I.
  - destruct s; [discriminate H0|discriminate Hn].
  - discriminate H0.
  - discriminate H0.
  - apply SFleb_value in Hn; [|exact Hv|exact Hvn].
    destruct (valid_mantissa false m e Hv) as (He & Hm53 & Hm52).
    assert (P0 : 0 < 2 ^ (e + 1074)) by (apply Z.pow_pos_nonneg; lia).
    assert (E1 : 2 ^ (- en) * 2 ^ (en + 1074) = 2 ^ 1074).
    { rewrite <- Z.pow_add_r by lia. f_equal; lia. }
    assert (Hle : Z.pos m * 2 ^ (e + 1074) <= n * 2 ^ 1074).
    { rewrite <- E1. rewrite Hmn in Hn. lia. }
    assert (He0 : e <= 0).
    { destruct (Z.le_gt_cases e 0) as [H|H]; [exact H|exfalso].
      specialize (Hm52 ltac:(lia)).
      assert (E2 : 2 ^ (e + 1074) = 2 ^ e * 2 ^ 1074).
      { rewrite <- Z.pow_add_r by lia. f_equal; lia. }
      assert (H2 : 2 <= 2 ^ e) by (apply (Z.pow_le_mono_r 2 1); lia).
      assert (P1074 : 0 < 2 ^ 1074) by (apply Z.pow_pos_nonneg; lia).
      rewrite E2 in Hle.
      assert (H3 : Z.pos m * 2 ^ e <= n).
      { apply (mul_le_cancel_r _ _ (2 ^ 1074)); [exact P1074|]. lia. }
      change (2 ^ 53) with (2 * 2 ^ 52) in Hr. nia. }
    unfold fle. split; [exact Hv|]. split; [exact He0|]. unfold belowZ.
    assert (E3 : 2 ^ 1074 = 2 ^ (- e) * 2 ^ (e + 1074)).
    { rewrite <- Z.pow_add_r by lia. f_equal; lia. }
    rewrite E3 in Hle.
    assert (H4 : Z.pos m <= n * 2 ^ (- e)).
    { apply (mul_le_cancel_r _ _ (2 ^ (e + 1074))); [exact P0|]. lia. }
    assert (V60 : 0 < 2 ^ 60) by lia. nia.
Qed.

(** ** One call of [Allow] after any elapsed time *)

Lemma up_nonneg B : 0 <= B -> 0 <= up B.
Proof. intros HB. pose proof (up_ge B HB). lia. Qed.

Lemma div_bound_nonneg t : 0 <= t -> 0 <= t * 2 ^ 60 / 1000000000 + 1.
Proof. intros Ht. assert (0 <= t * 2 ^ 60 / 1000000000) by (apply Z.div_pos; lia). lia. Qed.

Lemma mul_bound_nonneg B1 B2 : 0 <= B1 -> 0 <= B2 -> 0 <= B1 * B2 / 2 ^ 60 + 1.
Proof. intros H1 H2. assert (0 <= B1 * B2 / 2 ^ 60) by (apply Z.div_pos; nia). lia. Qed.

Lemma candidate_bound_mono T T' d d' Br :
  0 <= T <= T' -> 0 <= d <= d' -> 0 <= Br ->
  candidate_bound T d Br <= candidate_bound T' d' Br.
Proof.
  intros HT Hd HBr. unfold candidate_bound.
  assert (H1 : T * 2 ^ 60 / 1000000000 <= T' * 2 ^ 60 / 1000000000)
    by (apply Z.div_le_mono; lia).
  assert (H2 : d * 2 ^ 60 / 1000000000 <= d' * 2 ^ 60 / 1000000000)
    by (apply Z.div_le_mono; lia).
  pose proof (div_bound_nonneg T ltac:(lia)) as N1.
  pose proof (div_bound_nonneg d ltac:(lia)) as N2.
  assert (H3 : up (T * 2 ^ 60 / 1000000000 + 1) <= up (T' * 2 ^ 60 / 1000000000 + 1))
    by (apply up_mono; lia).
  assert (H4 : up (d * 2 ^ 60 / 1000000000 + 1) <= up (d' * 2 ^ 60 / 1000000000 + 1))
    by (apply up_mono; lia).
  pose proof (up_nonneg _ N1) as U1. pose proof (up_nonneg _ N2) as U2.
  assert (H5 : up (d * 2 ^ 60 / 1000000000 + 1) * Br / 2 ^ 60
               <= up (d' * 2 ^ 60 / 1000000000 + 1) * Br / 2 ^ 60).
  { apply Z.div_le_mono; [lia|]. apply Z.mul_le_mono_nonneg_r; lia. }
  pose proof (mul_bound_nonneg _ _ U2 HBr) as N3.
  assert (H6 : up (up (d * 2 ^ 60 / 1000000000 + 1) * Br / 2 ^ 60 + 1)
               <= up (up (d' * 2 ^ 60 / 1000000000 + 1) * Br / 2 ^ 60 + 1))
    by (apply up_mono; lia).
  pose proof (up_nonneg _ N3) as U3.
  apply up_mono. lia.
Qed.

Lemma candidate_fle rl now Br :
  fle Br (rate rl) -> 0 <= Br ->
  0 <= tokens rl < 2 ^ 53 -> 0 <= now - lastUpdate rl < 2 ^ 53 ->
  candidate_bound (tokens rl) (now - lastUpdate rl) Br <= 2 ^ 112 ->
  fle (candidate_bound (tokens rl) (now - lastUpdate rl) Br)
      (add (div (of_Z (tokens rl)) c1e9)
           (mul (div (of_Z (Int64.sub now (lastUpdate rl))) c1e9) (rate rl))).
Proof.
  intros Hr HBr HT Hd Hmax.
  assert (Hsub : Int64.sub now (lastUpdate rl) = now - lastUpdate rl).
  { unfold Int64.sub. apply wrap_small. unfold Int64.min_int, Int64.max_int.
    change (2 ^ 63) with 9223372036854775808.
    change (2 ^ 53) with 9007199254740992 in Hd. lia. }
  rewrite Hsub. unfold candidate_bound in *.
  pose proof (div_bound_nonneg (tokens rl) ltac:(lia)) as N1.
  pose proof (div_bound_nonneg (now - lastUpdate rl) ltac:(lia)) as N2.
  pose proof (up_nonneg _ N1) as U1. pose proof (up_nonneg _ N2) as U2.
  pose proof (mul_bound_nonneg _ _ U2 HBr) as N3.
  pose proof (up_nonneg _ N3) as U3.
  pose proof (up_ge _ (Z.add_nonneg_nonneg _ _ U1 U3)) as G.
  apply add_fle; try assumption.
  - apply div_1e9_fle. exact HT.
  - apply mul_fle; try assumption; [apply div_1e9_fle; exact Hd|lia].
Qed.

(** The cap [math.Min(capacity, y)] of any non-negative candidate. *)
Lemma math_Min_capped K i cap y :
  1 <= K -> 0 <= i ->
  fbetween K (K + 1) cap -> fbetween i (i + 1) y ->
  fbetween (Z.min i K) (Z.min i K + 1) (math_Min cap y).
Proof.
  intros HK Hi Hc Hy.
  destruct (Z.le_gt_cases i K) as [Hle|Hgt].
  - rewrite Z.min_l by lia.
    apply (math_Min_between i K); [lia|lia|exact Hc|exact Hy].
  - rewrite Z.min_r by lia.
    destruct cap as [s|s| |[|] mc ec]; pose proof Hc as Hc'; unfold fbetween in Hc';
      try contradiction; [lia|].
    destruct Hc' as (Hvc & Hec & Hcl & Hch).
    destruct y as [s|s| |[|] my ey]; unfold fbetween in Hy; try contradiction; [lia|].
    destruct Hy as (Hvy & Hey & Hyl & Hyh).
    unfold math_Min. cbn [is_inf is_nan orb eqb SFeqb SFcompare zero andb].
    unfold ltb.
    assert (Hlt : SFltb (S754_finite false mc ec) (S754_finite false my ey) = true).
    { apply SFltb_value; try assumption.
      assert (Pc : 0 < 2 ^ (- ec)) by (apply Z.pow_pos_nonneg; lia).
      assert (Py : 0 < 2 ^ (- ey)) by (apply Z.pow_pos_nonneg; lia).
      apply Z.lt_le_trans with ((K + 1) * 2 ^ (- ec) * 2 ^ (- ey)).
      - apply Z.mul_lt_mono_pos_r; lia.
      - replace ((K + 1) * 2 ^ (- ec) * 2 ^ (- ey))
          with ((K + 1) * 2 ^ (- ey) * 2 ^ (- ec)) by ring.
        apply Z.mul_le_mono_nonneg_r; [lia|]. nia. }
    rewrite Hlt. exact Hc.
Qed.

(** One call, whatever the time elapsed since the last update: with [i]
    the whole part of the refilled balance, the call is admitted exactly
    when [min i K >= 1], and it then leaves a balance in the billion
    below. *)
Lemma Allow_outcome rl now K Br :
  fle Br (rate rl) -> 0 <= Br ->
  fbetween K (K + 1) (capacity rl) -> 1 <= K -> K + 1 <= 2 ^ 20 ->
  0 <= tokens rl < 2 ^ 53 ->
  0 <= now - lastUpdate rl < 2 ^ 53 ->
  candidate_bound (tokens rl) (now - lastUpdate rl) Br <= 2 ^ 112 ->
  exists i, 0 <= i /\
    i * 2 ^ 60 <= candidate_bound (tokens rl) (now - lastUpdate rl) Br /\
    fbetween i (i + 1)
      (add (div (of_Z (tokens rl)) c1e9)
           (mul (div (of_Z (Int64.sub now (lastUpdate rl))) c1e9) (rate rl))) /\
    lastUpdate (fst (Allow rl now)) = now /\
    (Z.min i K = 0 -> Allow rl now = (at_instant rl now, false)) /\
    (1 <= Z.min i K ->
     snd (Allow rl now) = true /\
     ((Z.min i K - 1) * 1000000000 <= tokens (fst (Allow rl now))
        < Z.min i K * 1000000000)).
Proof.
  intros Hr HBr Hc HK HK1 HT Hd Hmax.
  assert (V20 : 2 ^ 20 = 1048576) by reflexivity.
  assert (V21 : 2 ^ 21 = 2097152) by reflexivity.
  assert (V63 : 2 ^ 63 = 9223372036854775808) by reflexivity.
  pose proof (candidate_fle rl now Br Hr HBr HT Hd Hmax) as Hy.
  assert (HB0 : 0 <= candidate_bound (tokens rl) (now - lastUpdate rl) Br).
  { unfold candidate_bound. apply up_nonneg.
    pose proof (div_bound_nonneg (tokens rl) ltac:(lia)) as N1.
    pose proof (div_bound_nonneg (now - lastUpdate rl) ltac:(lia)) as N2.
    pose proof (up_nonneg _ N1) as U1. pose proof (up_nonneg _ N2) as U2.
    pose proof (mul_bound_nonneg _ _ U2 HBr) as N3.
    pose proof (up_nonneg _ N3) as U3. lia. }
  destruct (fle_floor _ _ HB0 Hy) as (i & Hi & HiB & Hyi).
  pose proof (math_Min_capped K i _ _ HK Hi Hc Hyi) as Hx.
  exists i. split; [exact Hi|]. split; [exact HiB|]. split; [exact Hyi|].
  unfold Allow.
  remember (math_Min (capacity rl)
              (add (div (of_Z (tokens rl)) c1e9)
                   (mul (div (of_Z (Int64.sub now (lastUpdate rl))) c1e9) (rate rl)))) as x eqn:Hxe.
  clear Hxe Hy Hyi.
  remember (Z.min i K) as j eqn:Hj.
  assert (Hj0 : 0 <= j <= K) by lia.
  destruct (geb_one_between j x Hx) as [Hge1 Hge0].
  destruct (geb x one) eqn:Hge; cbn [fst snd tokens lastUpdate].
  - split; [reflexivity|]. split.
    + intros Hz. specialize (Hge0 Hz). discriminate Hge0.
    + intros Hj1. split; [reflexivity|].
      assert (Hsub : fbetween (j - 1) (j - 1 + 1) (sub x one)).
      { replace (j - 1 + 1) with j by lia. apply sub_one_between; [lia|lia|exact Hx]. }
      apply mul_1e9_between in Hsub; [|lia|lia].
      apply to_int64_between in Hsub; lia.
  - split; [reflexivity|]. split; [reflexivity|].
    intros Hj1. specialize (Hge1 Hj1). discriminate Hge1.
Qed.

Lemma Allow_balance_step rl now K Br :
  fle Br (rate rl) -> 0 <= Br ->
  fbetween K (K + 1) (capacity rl) -> 1 <= K -> K + 1 <= 2 ^ 20 ->
  0 <= tokens rl < (K + 1) * 1000000000 ->
  0 <= now - lastUpdate rl < 2 ^ 53 ->
  candidate_bound (tokens rl) (now - lastUpdate rl) Br <= 2 ^ 112 ->
  lastUpdate (fst (Allow rl now)) = now /\
  (snd (Allow rl now) = false -> tokens (fst (Allow rl now)) = tokens rl) /\
  (snd (Allow rl now) = true ->
   exists j, 1 <= j <= K /\
     j * 2 ^ 60 <= candidate_bound (tokens rl) (now - lastUpdate rl) Br /\
     (j - 1) * 1000000000 <= tokens (fst (Allow rl now)) < j * 1000000000).
Proof.
  intros Hr HBr Hc HK HK1 HT Hd Hmax.
  assert (V20 : 2 ^ 20 = 1048576) by reflexivity.
  assert (V53 : 2 ^ 53 = 9007199254740992) by reflexivity.
  destruct (Allow_outcome rl now K Br Hr HBr Hc HK HK1 ltac:(lia) Hd Hmax)
    as (i & Hi & HiB & _ & Hlu & Hzero & Hpos).
  split; [exact Hlu|].
  destruct (Z.le_gt_cases 1 (Z.min i K)) as [Hj|Hj].
  - destruct (Hpos Hj) as [Hok Htk]. rewrite Hok. split; [intros H; discriminate H|].
    intros _. exists (Z.min i K). split; [lia|]. split; [nia|exact Htk].
  - rewrite (Hzero ltac:(lia)). cbn [fst snd at_instant tokens].
    split; [reflexivity|intros H; discriminate H].
Qed.

(** ** Calls that arrive faster than the bucket refills *)

Lemma starved_bound T d n :
  0 <= T -> 0 <= d -> 1 <= n <= 1000000 -> T + d * n < 1000000000 ->
  candidate_bound T d (n * 2 ^ 60) < 2 ^ 60.
Proof.
  intros HT Hd Hn Hlt. unfold candidate_bound.
  assert (Hd9 : d < 1000000000) by nia.
  rewrite (Z.mul_assoc _ n (2 ^ 60)), Z.div_mul by lia.
  change (2 ^ 60) with 1152921504606846976.
  remember (T * 1152921504606846976 / 1000000000) as A eqn:HA.
  remember (d * 1152921504606846976 / 1000000000) as C eqn:HC.
  assert (HA1 : 1000000000 * A <= T * 1152921504606846976)
    by (rewrite HA; apply Z.mul_div_le; lia).
  assert (HC1 : 1000000000 * C <= d * 1152921504606846976)
    by (rewrite HC; apply Z.mul_div_le; lia).
  assert (HA0 : 0 <= A) by (rewrite HA; apply Z.div_pos; lia).
  assert (HC0 : 0 <= C) by (rewrite HC; apply Z.div_pos; lia).
  clear HA HC.
  unfold up. change (2 ^ 52) with 4503599627370496.
  remember (C + 1 + (C + 1) / 4503599627370496 + 2) as Be eqn:HBe.
  assert (HC2 : C <= 1152921504606846976) by lia.
  assert (HC3 : 0 <= (C + 1) / 4503599627370496 <= 256).
  { split; [apply Z.div_pos; lia|].
    apply Z.lt_succ_r. apply Z.div_lt_upper_bound; lia. }
  assert (HBe1 : 0 <= Be <= C + 259) by lia.
  clear HBe.
  assert (HX : 0 <= Be * n <= C * n + 259 * n) by nia.
  assert (HP : 1000000000 * (C * n) <= d * n * 1152921504606846976) by nia.
  remember (Be * n) as X. remember (C * n) as P. remember (d * n) as Dn.
  clear HeqX HeqP HeqDn.
  assert (HX3 : 0 <= (X + 1) / 4503599627370496 <= 256).
  { split; [apply Z.div_pos; lia|].
    apply Z.lt_succ_r. apply Z.div_lt_upper_bound; lia. }
  remember ((X + 1) / 4503599627370496) as q1. clear Heqq1.
  remember ((A + 1) / 4503599627370496) as q2.
  assert (HA3 : 0 <= q2 <= 256).
  { rewrite Heqq2. split; [apply Z.div_pos; lia|].
    apply Z.lt_succ_r. apply Z.div_lt_upper_bound; lia. }
  clear Heqq2.
  remember (A + 1 + q2 + 2 + (X + 1 + q1 + 2)) as S.
  assert (HS3 : 0 <= S / 4503599627370496 <= 512).
  { split; [apply Z.div_pos; lia|].
    apply Z.lt_succ_r. apply Z.div_lt_upper_bound; lia. }
  lia.
Qed.

Lemma Allow_denies_starved rl now n K :
  valid (rate rl) = true -> leb zero (rate rl) = true ->
  leb (rate rl) (of_Z n) = true -> 1 <= n <= 1000000 ->
  fbetween K (K + 1) (capacity rl) -> 1 <= K -> K + 1 <= 2 ^ 20 ->
  0 <= tokens rl -> 0 <= now - lastUpdate rl ->
  tokens rl + (now - lastUpdate rl) * n < 1000000000 ->
  Allow rl now = (at_instant rl now, false).
Proof.
  intros Hv H0 Hn Hn1 Hc HK HK1 HT Hd Hlt.
  assert (V53 : 2 ^ 53 = 9007199254740992) by reflexivity.
  assert (V112 : 2 ^ 60 < 2 ^ 112) by (vm_compute; reflexivity).
  assert (Hd9 : now - lastUpdate rl < 1000000000) by nia.
  pose proof (rate_fle (rate rl) n Hv H0 Hn ltac:(lia)) as Hr.
  pose proof (starved_bound (tokens rl) (now - lastUpdate rl) n HT Hd Hn1 Hlt) as Hb.
  destruct (Allow_balance_step rl now K (n * 2 ^ 60) Hr ltac:(lia) Hc HK HK1
              ltac:(nia) ltac:(lia) ltac:(lia)) as (Hlu & Hden & Hadm).
  destruct (snd (Allow rl now)) eqn:Hok.
  - destruct (Hadm eq_refl) as (j & Hj & HjB & _). exfalso. nia.
  - clear Hadm Hden Hlu. unfold Allow in *.
    match goal with |- context [geb ?c one] => destruct (geb c one) end;
      [discriminate Hok|reflexivity].
Qed.

Lemma SFleb_iff m1 e1 m2 e2 :
  valid (S754_finite false m1 e1) = true ->
  valid (S754_finite false m2 e2) = true ->
  (SFleb (S754_finite false m1 e1) (S754_finite false m2 e2) = true <->
   Z.pos m1 * 2 ^ (e1 + 1074) <= Z.pos m2 * 2 ^ (e2 + 1074)).
Proof.
  intros H1 H2. unfold SFleb. rewrite (SFcompare_value _ _ _ _ H1 H2).
  destruct (Z.compare_spec (Z.pos m1 * 2 ^ (e1 + 1074)) (Z.pos m2 * 2 ^ (e2 + 1074)));
    split; intros; try discriminate; try reflexivity; lia.
Qed.

Lemma leb_of_Z_mono r n n' :
  valid r = true -> leb zero r = true -> leb r (of_Z n) = true ->
  0 < n <= n' -> n' < 2 ^ 53 ->
  leb r (of_Z n') = true.
Proof.
  intros Hv H0 Hn Hle Hn'.
  destruct (of_Z_exact n ltac:(lia)) as (m1 & e1 & Heq1 & Hv1 & He1 & Hm1).
  destruct (of_Z_exact n' ltac:(lia)) as (m2 & e2 & Heq2 & Hv2 & He2 & Hm2).
  rewrite Heq1 in Hn, Hv1. rewrite Heq2 in Hv2 |- *.
  destruct r as [s|s| |[|] m e]; try discriminate; try reflexivity.
  - destruct s; discriminate.
  - apply SFleb_iff; [exact Hv|exact Hv2|].
    apply SFleb_iff in Hn; [|exact Hv|exact Hv1].
    eapply Z.le_trans; [exact Hn|].
    rewrite Hm1, Hm2.
    assert (E1 : 2 ^ (- e1) * 2 ^ (e1 + 1074) = 2 ^ 1074)
      by (rewrite <- Z.pow_add_r by lia; f_equal; lia).
    assert (E2 : 2 ^ (- e2) * 2 ^ (e2 + 1074) = 2 ^ 1074)
      by (rewrite <- Z.pow_add_r by lia; f_equal; lia).
    rewrite <- !Z.mul_assoc, E1, E2.
    apply Z.mul_le_mono_nonneg_r; [apply Z.pow_nonneg|]; lia.
Qed.

Lemma Allow_seq_starved n K gaps : forall rl,
  valid (rate rl) = true -> leb zero (rate rl) = true ->
  leb (rate rl) (of_Z n) = true -> 1 <= n <= 1000000 ->
  fbetween K (K + 1) (capacity rl) -> 1 <= K -> K + 1 <= 2 ^ 20 ->
  0 <= tokens rl ->
  Forall (fun d => 0 <= d /\ tokens rl + d * n < 1000000000) gaps ->
  snd (Allow_seq rl (arrivals (lastUpdate rl) gaps)) = repeat false (length gaps) /\
  tokens (fst (Allow_seq rl (arrivals (lastUpdate rl) gaps))) = tokens rl.
Proof.
  induction gaps as [|d gaps IH]; intros rl Hv H0 Hn Hn1 Hc HK HK1 HT Hg.
  - split; reflexivity.
  - inversion Hg as [|? ? [Hd Hlt] Hrest]; subst.
    cbn [arrivals Allow_seq length repeat].
    rewrite (Allow_denies_starved rl (lastUpdate rl + d) n K) by
      (try assumption; replace (lastUpdate rl + d - lastUpdate rl) with d by lia; assumption).
    specialize (IH (at_instant rl (lastUpdate rl + d))).
    cbn [at_instant rate capacity tokens lastUpdate] in IH.
    destruct (IH Hv H0 Hn Hn1 Hc HK HK1 HT Hrest) as [IH1 IH2].
    destruct (Allow_seq _ (arrivals (lastUpdate rl + d) gaps)) as [rl2 oks].
    cbn [fst snd] in *. split; [now rewrite IH1|exact IH2].
Qed.

(** X12: Starvation: once the balance is below one token, callers that arrive
    before the missing part has been refilled are all denied, for as long
    as they keep arriving that fast, because a denied call restarts the
    refill clock without crediting the time elapsed. The balance stays
    as it was. *)
Theorem Allow_starved rl n gaps :
  built rl ->
  valid (rate rl) = true -> leb zero (rate rl) = true ->
  leb (rate rl) (of_Z n) = true -> 1 <= n <= 1000000 ->
  0 <= tokens rl ->
  Forall (fun d => 0 <= d /\ tokens rl + d * n < 1000000000) gaps ->
  snd (Allow_seq rl (arrivals (lastUpdate rl) gaps)) = repeat false (length gaps) /\
  tokens (fst (Allow_seq rl (arrivals (lastUpdate rl) gaps))) = tokens rl.
Proof.
  intros Hb Hv H0 Hn Hn1 HT Hg.
  assert (H7 : leb (rate rl) (of_Z 10000000) = true).
  { apply (leb_of_Z_mono _ n); try assumption; [lia|vm_compute; reflexivity]. }
  destruct (capacity_between (rate rl) Hv H0 H7) as (_ & K & HK & HK1 & Hc).
  rewrite <- Hb in Hc.
  apply (Allow_seq_starved n K gaps rl); try assumption; lia.
Qed.

(** ** The gateway under sustained overload *)

Lemma Allow_seq_app l1 : forall rl l2,
  Allow_seq rl (l1 ++ l2) =
  (fst (Allow_seq (fst (Allow_seq rl l1)) l2),
   snd (Allow_seq rl l1) ++ snd (Allow_seq (fst (Allow_seq rl l1)) l2)).
Proof.
  induction l1 as [|now l1 IH]; intros rl l2.
  - cbn. now destruct (Allow_seq rl l2).
  - cbn [app Allow_seq]. destruct (Allow rl now) as [rl1 ok].
    rewrite IH. destruct (Allow_seq rl1 l1) as [rl2 oks]. reflexivity.
Qed.

Lemma Allow_seq_at_instant_state n : forall rl t,
  fst (Allow_seq (at_instant rl t) (repeat t n)) =
  at_instant (fst (Allow_seq (at_instant rl 0) (repeat 0 n))) t.
Proof.
  induction n as [|n IH]; intros rl t; [reflexivity|].
  cbn [repeat Allow_seq].
  rewrite (Allow_at_instant rl t).
  destruct (Allow (at_instant rl 0) 0) as [rl1 ok] eqn:H0. cbn [fst snd].
  assert (Hrl1 : rl1 = at_instant rl1 0).
  { pose proof (f_equal fst H0) as Hf. cbn [fst] in Hf. rewrite <- Hf.
    unfold Allow, at_instant. cbn [rate capacity tokens lastUpdate].
    match goal with |- context [geb ?c one] => destruct (geb c one) end; reflexivity. }
  specialize (IH rl1 t).
  destruct (Allow_seq (at_instant rl1 t) (repeat t n)) as [ra oka].
  rewrite Hrl1.
  destruct (Allow_seq (at_instant rl1 0) (repeat 0 n)) as [rb okb].
  cbn [fst] in *. exact IH.
Qed.

Lemma exhausted_facts :
  snd (Allow_seq (NewRateLimiter (of_Z 1000) 0) (repeat 0 100%nat)) = repeat true 100 /\
  rate (exhausted 0) = of_Z 1000 /\
  tokens (exhausted 0) = 0 /\
  fbetween 100 101 (capacity (exhausted 0)).
Proof.
  vm_compute. repeat split; try reflexivity; discriminate.
Qed.

Lemma gateway_limiter_burst t :
  Allow_seq (NewRateLimiter (of_Z 1000) t) (repeat t 100%nat) =
  (exhausted t, repeat true 100).
Proof.
  change (NewRateLimiter (of_Z 1000) t) with (at_instant (NewRateLimiter (of_Z 1000) 0) t).
  rewrite (surjective_pairing (Allow_seq _ _)).
  rewrite Allow_seq_at_instant_state, Allow_seq_at_instant.
  change (at_instant (NewRateLimiter (of_Z 1000) 0) 0) with (NewRateLimiter (of_Z 1000) 0).
  rewrite (proj1 exhausted_facts). reflexivity.
Qed.

Lemma HandleRequest_limiter g env g' resp ms :
  HandleRequest g env = Return (g', resp, ms) ->
  limiter g' = fst (Allow (limiter g) (allowNow env)) /\
  has_code 429 resp = negb (snd (Allow (limiter g) (allowNow env))).
Proof.
  unfold HandleRequest.
  destruct (snd (Allow (limiter g) (allowNow env))); cbn [negb].
  - destruct (SelectProvider _ _ _) as [|[p|]]; cbn [simulateProviderCall]; try discriminate.
    destruct (ltb (failDraw env) (ErrorRate p)).
    + destruct (MarkFailure _ _ _ _ _) as [|g2] eqn:Hm; [discriminate|].
      intros [= <- <- <-].
      destruct (MarkFailure_rate_limit_frame _ _ _ _ _ Hm) as (_ & _ & Hl & _).
      rewrite Hl. split; reflexivity.
    + intros [= <- <- <-]. split; reflexivity.
  - intros [= <- <- <-]. split; reflexivity.
Qed.

Lemma serve_limiter envs : forall g g' resps ms,
  serve g envs = Return (g', resps, ms) ->
  map (has_code 429) resps = map negb (snd (Allow_seq (limiter g) (map allowNow envs))).
Proof.
  induction envs as [|env rest IH]; intros g g' resps ms; cbn [serve].
  - intros [= <- <- <-]. reflexivity.
  - destruct (HandleRequest g env) as [|[[g1 resp] ms1]] eqn:Hstep; [discriminate|].
    destruct (serve g1 rest) as [|[[g2 resps2] ms2]] eqn:Hserve; [discriminate|].
    intros [= <- <- <-].
    destruct (HandleRequest_limiter _ _ _ _ _ Hstep) as [Hl Hc].
    specialize (IH _ _ _ _ Hserve). rewrite Hl in IH.
    cbn [map Allow_seq]. rewrite (surjective_pairing (Allow (limiter g) (allowNow env))).
    destruct (Allow_seq (fst (Allow (limiter g) (allowNow env))) (map allowNow rest))
      as [rl2 oks].
    cbn [snd map] in *. now rewrite Hc, IH.
Qed.

(** X13: The gateway under sustained overload: when the requests that follow
    the initial burst of 100 arrive less than one millisecond apart, a
    fresh gateway answers 429 to every one of them, for as long as the
    load lasts: none of the 1000 tokens per second is ever handed out. *)
Theorem serve_overload unixNow envs gaps g' resps ms :
  map allowNow envs = repeat unixNow 100 ++ arrivals unixNow gaps ->
  Forall (fun d => 0 <= d <= 999999) gaps ->
  serve (NewGateway unixNow) envs = Return (g', resps, ms) ->
  map (has_code 429) resps = repeat false 100 ++ repeat true (length gaps).
Proof.
  intros Hnows Hgaps Hserve.
  rewrite (serve_limiter _ _ _ _ _ Hserve), Hnows.
  change (limiter (NewGateway unixNow)) with (NewRateLimiter (of_Z 1000) unixNow).
  rewrite Allow_seq_app, gateway_limiter_burst. cbn [fst snd].
  destruct exhausted_facts as (_ & Hrate & Htok & Hcap).
  destruct (Allow_seq_starved 1000 100 gaps (exhausted unixNow)) as [Hs _].
  - change (rate (exhausted unixNow)) with (rate (exhausted 0)). rewrite Hrate.
    vm_compute. reflexivity.
  - change (rate (exhausted unixNow)) with (rate (exhausted 0)). rewrite Hrate.
    vm_compute. reflexivity.
  - change (rate (exhausted unixNow)) with (rate (exhausted 0)). rewrite Hrate.
    vm_compute. reflexivity.
  - lia.
  - exact Hcap.
  - lia.
  - vm_compute. discriminate.
  - change (tokens (exhausted unixNow)) with (tokens (exhausted 0)). rewrite Htok. lia.
  - change (tokens (exhausted unixNow)) with (tokens (exhausted 0)). rewrite Htok.
    eapply Forall_impl; [exact Hgaps|]. cbn beta. intros d Hd. lia.
  - change (lastUpdate (exhausted unixNow)) with unixNow in Hs. rewrite Hs.
    rewrite map_app, !map_repeat. reflexivity.
Qed.

(** ** The balance over any history of calls *)

Lemma general_bound T d :
  0 <= T < 2 ^ 20 * 1000000000 -> 0 <= d < 2 ^ 53 ->
  candidate_bound T d (10000000 * 2 ^ 60) <= 2 ^ 112.
Proof.
  intros HT Hd.
  apply Z.le_trans with (candidate_bound (2 ^ 20 * 1000000000) (2 ^ 53) (10000000 * 2 ^ 60)).
  - apply candidate_bound_mono; lia.
  - vm_compute. discriminate.
Qed.

Lemma Allow_denied_state rl now :
  snd (Allow rl now) = false -> fst (Allow rl now) = at_instant rl now.
Proof.
  unfold Allow.
  match goal with |- context [geb ?c one] => destruct (geb c one) end;
    [discriminate|reflexivity].
Qed.

Lemma last_cons {A} (l : list A) : forall a d, List.last (a :: l) d = List.last l a.
Proof.
  induction l as [|b l IH]; intros a d; [reflexivity|].
  change (List.last (a :: b :: l) d) with (List.last (b :: l) d).
  now rewrite !IH.
Qed.

Lemma Allow_seq_balance K T0 nows : forall rl,
  valid (rate rl) = true -> leb zero (rate rl) = true ->
  leb (rate rl) (of_Z 10000000) = true ->
  fbetween K (K + 1) (capacity rl) -> 1 <= K -> K + 1 <= 2 ^ 20 ->
  0 <= tokens rl < (K + 1) * 1000000000 -> tokens rl <= T0 -> K * 1000000000 <= T0 ->
  clock_steps (lastUpdate rl) nows ->
  0 <= tokens (fst (Allow_seq rl nows)) < (K + 1) * 1000000000 /\
  tokens (fst (Allow_seq rl nows)) <= T0 /\
  rate (fst (Allow_seq rl nows)) = rate rl /\
  capacity (fst (Allow_seq rl nows)) = capacity rl /\
  lastUpdate (fst (Allow_seq rl nows)) = List.last nows (lastUpdate rl).
Proof.
  induction nows as [|now nows IH]; intros rl Hv H0 H7 Hc HK HK1 HT HT0 HK0 Hclock.
  - cbn. repeat split; try reflexivity; lia.
  - destruct Hclock as [Hd Hrest].
    assert (V20 : 2 ^ 20 = 1048576) by reflexivity.
    pose proof (rate_fle (rate rl) 10000000 Hv H0 H7 ltac:(vm_compute; split; reflexivity))
      as Hr.
    pose proof (general_bound (tokens rl) (now - lastUpdate rl) ltac:(nia) Hd) as Hmax.
    destruct (Allow_balance_step rl now K (10000000 * 2 ^ 60) Hr ltac:(lia) Hc HK HK1
                HT Hd Hmax) as (Hlu & Hden & Hadm).
    destruct (Allow_keeps_config rl now) as [Hrate Hcap].
    cbn [Allow_seq].
    destruct (Allow rl now) as [rl1 ok] eqn:HA. cbn [fst snd] in *.
    assert (HT1 : 0 <= tokens rl1 < (K + 1) * 1000000000 /\ tokens rl1 <= T0).
    { destruct ok.
      - destruct (Hadm eq_refl) as (j & Hj & _ & Htk). nia.
      - rewrite (Hden eq_refl). lia. }
    specialize (IH rl1). rewrite Hrate, Hcap, Hlu in IH.
    destruct (IH Hv H0 H7 Hc HK HK1 (proj1 HT1) (proj2 HT1) HK0 Hrest)
      as (I1 & I2 & I3 & I4 & I5).
    destruct (Allow_seq rl1 nows) as [rl2 oks]. cbn [fst] in *.
    repeat split; try assumption; try lia.
    rewrite I5. symmetry. apply last_cons.
Qed.

Lemma NewRateLimiter_tokens rps t0 K :
  fbetween K (K + 1) (capacity (NewRateLimiter rps t0)) -> 1 <= K -> K + 1 <= 2 ^ 20 ->
  K * 1000000000 <= tokens (NewRateLimiter rps t0) < (K + 1) * 1000000000.
Proof.
  intros Hcap HK HK1. unfold NewRateLimiter in *. cbn [capacity tokens] in *.
  assert (V20 : 2 ^ 20 = 1048576) by reflexivity.
  assert (V63 : 2 ^ 63 = 9223372036854775808) by reflexivity.
  apply mul_1e9_between in Hcap; [|lia|lia].
  apply to_int64_between in Hcap; lia.
Qed.

(** X14: The bucket never overflows and never goes negative: for a limiter
    built with a rate between 0 and ten million, after any calls made one
    after the other on a clock that does not go back, the stored balance
    lies between 0 and the balance the limiter was built with,
    [int64(capacity * 1e9)]. *)
Theorem Allow_balance_bounded rps t0 nows :
  valid rps = true -> leb zero rps = true -> leb rps (of_Z 10000000) = true ->
  clock_steps t0 nows ->
  0 <= tokens (fst (Allow_seq (NewRateLimiter rps t0) nows))
    <= tokens (NewRateLimiter rps t0).
Proof.
  intros Hv H0 H7 Hclock.
  destruct (capacity_between rps Hv H0 H7) as (_ & K & HK & HK1 & Hcap).
  change (math_Max (of_Z 10) (mul rps (dec 1 10)))
    with (capacity (NewRateLimiter rps t0)) in Hcap.
  pose proof (NewRateLimiter_tokens rps t0 K Hcap ltac:(lia) HK1) as Htok.
  destruct (Allow_seq_balance K (tokens (NewRateLimiter rps t0)) nows (NewRateLimiter rps t0))
    as (I1 & I2 & _); try assumption; try lia.
Qed.

Lemma count_admitted_cons ok oks :
  count_admitted (ok :: oks) = ((if ok then 1 else 0) + count_admitted oks)%nat.
Proof.
  unfold count_admitted. destruct ok.
  - rewrite filter_cons_True by reflexivity. reflexivity.
  - rewrite filter_cons_False by discriminate. reflexivity.
Qed.

Lemma instant_count K t m : forall i rl,
  1 <= K -> K + 1 <= 2 ^ 20 -> 0 <= i <= K -> limiter_inv K t i rl ->
  Z.of_nat (count_admitted (snd (Allow_seq rl (repeat t m)))) <= i.
Proof.
  induction m as [|m IH]; intros i rl HK HK1 Hi Hinv.
  - cbn. lia.
  - cbn [repeat Allow_seq].
    destruct (Allow_step K t i rl HK HK1 Hi Hinv) as [H1 H0].
    pose proof (Allow_denied_state rl t) as Hden.
    destruct (Allow rl t) as [rl1 ok] eqn:HA. cbn [fst snd] in *.
    destruct (Z.le_gt_cases 1 i) as [Hpos|Hzero].
    + destruct (H1 Hpos) as [-> Hinv1].
      specialize (IH (i - 1) rl1 HK HK1 ltac:(lia) Hinv1).
      destruct (Allow_seq rl1 (repeat t m)) as [rl2 oks]. cbn [snd] in *.
      rewrite count_admitted_cons. lia.
    + assert (Hi0 : i = 0) by lia. rewrite (H0 Hi0) in *.
      assert (Hinv1 : limiter_inv K t i rl1).
      { rewrite (Hden eq_refl). destruct Hinv as (A & B & C & D).
        unfold limiter_inv, at_instant. cbn [rate capacity tokens lastUpdate]. tauto. }
      specialize (IH i rl1 HK HK1 Hi Hinv1).
      destruct (Allow_seq rl1 (repeat t m)) as [rl2 oks]. cbn [snd] in *.
      rewrite count_admitted_cons. lia.
Qed.

Lemma clock_steps_app l1 : forall t l2,
  clock_steps t (l1 ++ l2) <->
  clock_steps t l1 /\ clock_steps (List.last l1 t) l2.
Proof.
  induction l1 as [|a l1 IH]; intros t l2.
  - cbn. tauto.
  - cbn [app clock_steps]. rewrite IH.
    rewrite last_cons.
    tauto.
Qed.

(** X15: At most [floor(capacity)] admissions at one instant, whatever came
    before: for a limiter built with a rate between 0 and ten million and
    used by one caller at a time on a clock that does not go back, any
    number of calls made at the same instant after any history of calls
    admits no more than [floor(capacity)] of them. *)
Theorem instant_admissions_bounded rps t0 nows now m :
  valid rps = true -> leb zero rps = true -> leb rps (of_Z 10000000) = true ->
  clock_steps t0 (nows ++ [now]) ->
  match trunc (capacity (NewRateLimiter rps t0)) with
  | Some K =>
      Z.of_nat (count_admitted
                  (snd (Allow_seq (fst (Allow_seq (NewRateLimiter rps t0) nows))
                                  (repeat now m)))) <= K
  | None => False
  end.
Proof.
  intros Hv H0 H7 Hclock.
  destruct (capacity_between rps Hv H0 H7) as (Hfin & K & HK & HK1 & Hcap).
  change (math_Max (of_Z 10) (mul rps (dec 1 10)))
    with (capacity (NewRateLimiter rps t0)) in Hcap.
  rewrite (trunc_between K _ Hcap).
  pose proof (NewRateLimiter_tokens rps t0 K Hcap ltac:(lia) HK1) as Htok.
  apply clock_steps_app in Hclock. destruct Hclock as [Hhist [Hd _]].
  destruct (Allow_seq_balance K (tokens (NewRateLimiter rps t0)) nows (NewRateLimiter rps t0))
    as (I1 & _ & I3 & I4 & I5); try assumption; try lia.
  remember (fst (Allow_seq (NewRateLimiter rps t0) nows)) as rl eqn:Hrl. clear Hrl.
  change (rate (NewRateLimiter rps t0)) with rps in I3.
  change (lastUpdate (NewRateLimiter rps t0)) with t0 in I5.
  rewrite <- I4 in Hcap. rewrite <- I5 in Hd. rewrite <- I3 in Hv, H0, H7, Hfin.
  destruct m as [|m]; [cbn; lia|].
  cbn [repeat Allow_seq].
  assert (V20 : 2 ^ 20 = 1048576) by reflexivity.
  pose proof (rate_fle (rate rl) 10000000 Hv H0 H7 ltac:(vm_compute; split; reflexivity))
    as Hr.
  pose proof (general_bound (tokens rl) (now - lastUpdate rl) ltac:(nia) Hd) as Hmax.
  destruct (Allow_balance_step rl now K (10000000 * 2 ^ 60) Hr ltac:(lia) Hcap ltac:(lia) HK1
              I1 Hd Hmax) as (Hlu & Hden & Hadm).
  destruct (Allow_keeps_config rl now) as [Hrate Hcap'].
  pose proof (Allow_denied_state rl now) as Hstate.
  destruct (Allow rl now) as [rl1 ok] eqn:HA. cbn [fst snd] in *.
  destruct ok.
  - destruct (Hadm eq_refl) as (j & Hj & _ & Htk).
    assert (Hinv : limiter_inv K now (j - 1) rl1).
    { unfold limiter_inv. rewrite Hrate, Hcap', Hlu.
      replace (j - 1 + 1) with j by lia. tauto. }
    pose proof (instant_count K now m (j - 1) rl1 ltac:(lia) HK1 ltac:(lia) Hinv) as Hcount.
    destruct (Allow_seq rl1 (repeat now m)) as [rl2 oks]. cbn [snd] in *.
    rewrite count_admitted_cons. lia.
  - set (i := tokens rl / 1000000000).
    assert (Hi : i * 1000000000 <= tokens rl < (i + 1) * 1000000000).
    { unfold i. pose proof (Z.mul_div_le (tokens rl) 1000000000 ltac:(lia)).
      pose proof (Z.mul_succ_div_gt (tokens rl) 1000000000 ltac:(lia)). lia. }
    assert (Hinv : limiter_inv K now i rl1).
    { unfold limiter_inv. rewrite Hrate, Hcap', Hlu, (Hden eq_refl). tauto. }
    pose proof (instant_count K now m i rl1 ltac:(lia) HK1 ltac:(nia) Hinv) as Hcount.
    destruct (Allow_seq rl1 (repeat now m)) as [rl2 oks]. cbn [snd] in *.
    rewrite count_admitted_cons. nia.
Qed.

(** ** Lower bounds through the operations of [Allow] *)

Lemma fge_mono L L' x : L' <= L -> fge L x -> fge L' x.
Proof.
  intros HL. destruct x as [s|s| |[|] m e]; simpl; try tauto; [lia|].
  intros H. assert (0 <= 2 ^ (- e)) by apply Z.pow_nonneg, Z.le_0_2.
  nia.
Qed.

Lemma down_le L : 0 <= L -> down L <= L.
Proof.
  intros HL. unfold down. assert (0 <= L / 2 ^ 52) by (apply Z.div_pos; lia). lia.
Qed.

Lemma down_mono L L' : L <= L' -> down L <= down L'.
Proof.
  intros HL. unfold down. change (2 ^ 52) with 4503599627370496.
  pose proof (Z.mul_succ_div_gt L 4503599627370496 ltac:(lia)) as H1.
  pose proof (Z.mul_div_le L' 4503599627370496 ltac:(lia)) as H2.
  remember (L / 4503599627370496) as q. remember (L' / 4503599627370496) as q'.
  clear Heqq Heqq'. lia.
Qed.

Lemma down_scaled L : 0 <= L -> down L * (2 ^ 52 + 1) <= L * 2 ^ 52.
Proof.
  intros HL. unfold down. change (2 ^ 52) with 4503599627370496.
  pose proof (Z.mul_succ_div_gt L 4503599627370496 ltac:(lia)) as H1.
  remember (L / 4503599627370496) as q. clear Heqq. lia.
Qed.

Lemma rounded_fge L m2 e1 r :
  rounded false m2 e1 r -> e1 <= 0 ->
  L * 2 ^ (- e1) <= m2 * 2 ^ 60 -> fge L r.
Proof.
  intros Hr He1 Hm.
  assert (P1 : 0 < 2 ^ (- e1)) by (apply Z.pow_pos_nonneg; lia).
  destruct Hr as [[-> ->]|(q & e' & -> & Hle & Hq & Hv)]; [simpl; nia|].
  simpl. destruct (Z.le_gt_cases e' 0) as [He'|He'].
  - assert (Pd : 0 < 2 ^ (e' - e1)) by (apply Z.pow_pos_nonneg; lia).
    assert (E : 2 ^ (- e1) = 2 ^ (- e') * 2 ^ (e' - e1)).
    { rewrite <- Z.pow_add_r by lia. f_equal; lia. }
    apply (mul_le_cancel_r _ _ (2 ^ (e' - e1))); [exact Pd|].
    rewrite <- Hq, E in Hm. lia.
  - rewrite (Z.pow_neg_r 2 (- e')) by lia. lia.
Qed.

(** The arithmetic of one rounding, from below: the rounded mantissa is
    at least the truncated one. *)
Lemma round_down_bound M e e1 L m2 :
  e <= e1 -> e1 <= 0 ->
  e1 = Z.max (Z.pos (digits2_pos M) + e - 53) (-1074) ->
  0 <= L -> L * 2 ^ (- e) <= Z.pos M * 2 ^ 60 ->
  Z.pos M / 2 ^ (e1 - e) <= m2 ->
  down L * 2 ^ (- e1) <= m2 * 2 ^ 60.
Proof.
  intros Hle He1 Hdef HL Hb Hm2.
  assert (PN : 0 < 2 ^ (e1 - e)) by (apply Z.pow_pos_nonneg; lia).
  assert (PE : 0 < 2 ^ (- e1)) by (apply Z.pow_pos_nonneg; lia).
  assert (EX : 2 ^ (- e) = 2 ^ (- e1) * 2 ^ (e1 - e)).
  { rewrite <- Z.pow_add_r by lia. f_equal; lia. }
  pose proof (Z.mul_succ_div_gt (Z.pos M) (2 ^ (e1 - e)) PN) as Hgt.
  pose proof (Z.mul_div_le (Z.pos M) (2 ^ (e1 - e)) PN) as Hlo.
  remember (Z.pos M / 2 ^ (e1 - e)) as F eqn:HF.
  assert (HF0 : 0 <= F) by (rewrite HF; apply Z.div_pos; lia).
  assert (Hstep : L * 2 ^ (- e1) < (F + 1) * 2 ^ 60).
  { apply (Z.mul_lt_mono_pos_r (2 ^ (e1 - e))); [exact PN|].
    rewrite EX in Hb. nia. }
  apply Z.le_trans with (F * 2 ^ 60); [|nia].
  pose proof (down_scaled L HL) as Hsc.
  pose proof (down_le L HL) as Hdl.
  destruct (Z.le_gt_cases (-1074) (Z.pos (digits2_pos M) + e - 53)) as [Hn|Hc].
  - pose proof (digits2_bounds M) as [Hdig _].
    assert (Hd : Z.pos (digits2_pos M) - 1 = e1 - e + 52) by lia.
    rewrite Hd, Z.pow_add_r in Hdig by lia.
    assert (HF52 : 2 ^ 52 <= F).
    { rewrite HF. apply Z.div_le_lower_bound; [exact PN|]. lia. }
    assert (H1 : (F + 1) * 2 ^ 52 <= F * (2 ^ 52 + 1)) by lia.
    apply (mul_le_cancel_r _ _ (2 ^ 52 + 1)); [lia|].
    apply Z.le_trans with (L * 2 ^ 52 * 2 ^ (- e1)); [nia|].
    apply Z.le_trans with ((F + 1) * 2 ^ 60 * 2 ^ 52); [nia|].
    assert (V60 : 0 < 2 ^ 60) by lia. nia.
  - assert (He : e1 = -1074) by lia.
    assert (H60 : 2 ^ 60 <= 2 ^ (- e1)) by (apply Z.pow_le_mono_r; lia).
    unfold down. assert (0 <= L / 2 ^ 52) by (apply Z.div_pos; lia). nia.
Qed.

Lemma binary_round_aux_fge B L M e l :
  e <= fexp prec emax (Z.pos (digits2_pos M) + e) -> e <= 0 ->
  0 <= B <= 2 ^ 112 -> belowZ B (Z.pos M) e ->
  0 <= L -> L * 2 ^ (- e) <= Z.pos M * 2 ^ 60 ->
  fge (down L) (binary_round_aux prec emax false (Z.pos M) e l).
Proof.
  intros Hle He HB Hb HL Hlow.
  pose proof (belowZ_digits112 B M e He HB Hb) as Hd.
  rewrite fexp_value in Hle.
  destruct (binary_round_aux_spec false M e l) as (m2 & Hbd & _ & Hr);
    [rewrite fexp_value; exact Hle|rewrite fexp_value; lia|].
  rewrite fexp_value in Hbd, Hr.
  remember (Z.max (Z.pos (digits2_pos M) + e - 53) (-1074)) as e1 eqn:He1.
  apply (rounded_fge (down L) m2 e1); [exact Hr|lia|].
  apply (round_down_bound M e e1 L m2); try lia.
Qed.

Lemma binary_round_fge B L a e :
  e <= 0 -> 0 <= B <= 2 ^ 112 -> belowZ B (Z.pos a) e ->
  0 <= L -> L * 2 ^ (- e) <= Z.pos a * 2 ^ 60 ->
  fge (down L) (binary_round prec emax false a e).
Proof.
  intros He HB Hb HL Hlow.
  pose proof (belowZ_digits112 B a e He HB Hb) as Hd.
  destruct (binary_round_spec false a e) as (m2 & Hr & Hexact & Hround);
    [rewrite fexp_value; lia|].
  rewrite fexp_value in Hr, Hexact, Hround.
  remember (Z.max (Z.pos (digits2_pos a) + e - 53) (-1074)) as e1 eqn:He1.
  apply (rounded_fge (down L) m2 e1); [exact Hr|lia|].
  destruct (Z.le_gt_cases e1 e) as [Hc|Hc].
  - rewrite (Hexact Hc).
    assert (PE : 0 < 2 ^ (- e)) by (apply Z.pow_pos_nonneg; lia).
    assert (PD : 0 < 2 ^ (e - e1)) by (apply Z.pow_pos_nonneg; lia).
    assert (E : 2 ^ (- e1) = 2 ^ (- e) * 2 ^ (e - e1)).
    { rewrite <- Z.pow_add_r by lia. f_equal; lia. }
    rewrite E. pose proof (down_le L HL). nia.
  - destruct (Hround Hc) as [[Hm2 _] _].
    apply (round_down_bound a e e1 L m2); try lia.
Qed.

Lemma of_Z_fge t : 0 <= t < 2 ^ 53 -> fge (t * 2 ^ 60) (of_Z t).
Proof.
  intros Ht. destruct (Z.eq_dec t 0) as [->|Hne]; [simpl; lia|].
  destruct (of_Z_exact t ltac:(lia)) as (m & e & Heq & Hv & He & Hm).
  rewrite Heq. simpl. rewrite Hm. lia.
Qed.

Lemma div_1e9_fge t :
  0 <= t < 2 ^ 53 ->
  fge (down (down (t * 2 ^ 60 / 1000000000))) (div (of_Z t) c1e9).
Proof.
  intros Ht.
  assert (V53 : 2 ^ 53 = 9007199254740992) by reflexivity.
  assert (V60 : 2 ^ 60 = 1152921504606846976) by reflexivity.
  assert (V52 : 2 ^ 52 = 4503599627370496) by reflexivity.
  set (A := t * 2 ^ 60 / 1000000000).
  assert (HA0 : 0 <= A) by (unfold A; apply Z.div_pos; lia).
  assert (HA1 : A * 1000000000 <= t * 2 ^ 60).
  { unfold A. rewrite Z.mul_comm. apply Z.mul_div_le. lia. }
  destruct (Z.eq_dec t 0) as [->|Hne].
  { simpl. change (0 * 2 ^ 60 / 1000000000) with 0 in A. unfold A. vm_compute. discriminate. }
  destruct (Z.le_gt_cases (down A) 0) as [Hneg|Hpos].
  { apply (fge_mono (down (down A)) _).
    - reflexivity.
    - assert (Hdd : down (down A) <= 0).
      { apply Z.le_trans with (down 0); [apply down_mono; exact Hneg|vm_compute; discriminate]. }
      pose proof (div_1e9_fle t Ht) as Hfle.
      destruct (div (of_Z t) c1e9) as [s|s| |[|] m e]; simpl in Hfle |- *; try contradiction.
      + exact Hdd.
      + assert (0 <= 2 ^ (- e)) by apply Z.pow_nonneg, Z.le_0_2. nia. }
  assert (HBup : up (t * 2 ^ 60 / 1000000000 + 1) <= 2 ^ 112).
  { apply Z.le_trans with (up (2 ^ 53 * 2 ^ 60 / 1000000000 + 1)).
    - apply up_mono. fold A. split; [lia|].
      assert (A <= 2 ^ 53 * 2 ^ 60 / 1000000000) by (apply Z.div_le_mono; lia). lia.
    - vm_compute. discriminate. }
  assert (HBlt : t * 2 ^ 60 < (A + 1) * 1000000000).
  { unfold A. pose proof (Z.mul_succ_div_gt (t * 2 ^ 60) 1000000000 ltac:(lia)). lia. }
  destruct (of_Z_exact t ltac:(lia)) as (mt & et & Heq & Hv & Het & Hmt).
  rewrite Heq in Hv |- *.
  destruct (valid_mantissa _ _ _ Hv) as (_ & Hm53 & Hm52).
  specialize (Hm52 ltac:(lia)).
  assert (Hdt : Z.pos (digits2_pos mt) = 53) by (apply digits2_unique; lia).
  rewrite c1e9_value. unfold div, SFdiv. rewrite (div_core_value mt et Hdt) by lia.
  cbv zeta. change (xorb false false) with false.
  remember (new_location 8388608000000000
              (Z.pos mt * 2 ^ 53 mod Z.pos 8388608000000000)) as l eqn:Hl. clear Hl.
  remember (Z.pos mt * 2 ^ 53 / Z.pos 8388608000000000) as Q eqn:HQ.
  assert (Hb9 : Z.pos 8388608000000000 = 1000000000 * 2 ^ 23) by reflexivity.
  assert (HQ52 : 2 ^ 52 <= Q).
  { rewrite HQ. apply Z.div_le_lower_bound; [lia|]. rewrite V52, V53 in *. lia. }
  assert (HQle : Q * Z.pos 8388608000000000 <= Z.pos mt * 2 ^ 53).
  { rewrite HQ, Z.mul_comm. apply Z.mul_div_le. lia. }
  assert (HQgt : Z.pos mt * 2 ^ 53 < (Q + 1) * Z.pos 8388608000000000).
  { rewrite HQ. pose proof (Z.mul_succ_div_gt (Z.pos mt * 2 ^ 53) (Z.pos 8388608000000000)
                              ltac:(lia)). lia. }
  destruct Q as [|qp|qp]; try lia. clear HQ.
  assert (PX : 0 < 2 ^ (- et)) by (apply Z.pow_pos_nonneg; lia).
  assert (Hbelow : belowZ (A + 1) (Z.pos qp) (et - 30)).
  { unfold belowZ.
    replace (- (et - 30)) with (- et + 30) by lia.
    rewrite Z.pow_add_r by lia.
    apply (mul_le_cancel_r _ _ (1000000000 * 2 ^ 23)); [lia|].
    rewrite Hb9 in HQle. rewrite Hmt in HQle.
    change (2 ^ 30) with 1073741824. change (2 ^ 23) with 8388608 in *.
    rewrite V53, V60 in *. nia. }
  apply (binary_round_aux_fge (A + 1)); try assumption; try lia.
  - rewrite fexp_value. pose proof (digits2_ge qp 52 ltac:(lia) HQ52). lia.
  - replace (- (et - 30)) with (- et + 30) by lia.
    rewrite Z.pow_add_r by lia.
    pose proof (down_scaled A HA0) as Hsc.
    assert (H1 : (Z.pos qp + 1) * 2 ^ 52 <= Z.pos qp * (2 ^ 52 + 1)) by lia.
    rewrite Hb9, Hmt in HQgt.
    apply (mul_le_cancel_r _ _ ((2 ^ 52 + 1) * (1000000000 * 2 ^ 23))); [lia|].
    apply Z.le_trans with (A * 1000000000 * 2 ^ (- et) * 2 ^ 105).
    + replace (down A * (2 ^ (- et) * 2 ^ 30) * ((2 ^ 52 + 1) * (1000000000 * 2 ^ 23)))
        with (down A * (2 ^ 52 + 1) * (2 ^ (- et) * 2 ^ 30 * (1000000000 * 2 ^ 23))) by ring.
      replace (A * 1000000000 * 2 ^ (- et) * 2 ^ 105)
        with (A * 2 ^ 52 * (2 ^ (- et) * 2 ^ 30 * (1000000000 * 2 ^ 23)))
        by (change (2 ^ 105) with (2 ^ 52 * 2 ^ 30 * 2 ^ 23); ring).
      apply Z.mul_le_mono_nonneg_r; [|exact Hsc].
      change (2 ^ 30) with 1073741824. change (2 ^ 23) with 8388608. lia.
    + apply Z.le_trans with (t * 2 ^ 60 * 2 ^ (- et) * 2 ^ 105).
      * apply Z.mul_le_mono_nonneg_r; [lia|]. apply Z.mul_le_mono_nonneg_r; lia.
      * apply Z.le_trans with ((Z.pos qp + 1) * 2 ^ 52 * (1000000000 * 2 ^ 23) * 2 ^ 60).
        -- change (2 ^ 105) with (2 ^ 53 * 2 ^ 52).
           replace (t * 2 ^ 60 * 2 ^ (- et) * (2 ^ 53 * 2 ^ 52))
             with (t * 2 ^ (- et) * 2 ^ 53 * 2 ^ 52 * 2 ^ 60) by ring.
           apply Z.mul_le_mono_nonneg_r; [lia|].
           replace ((Z.pos qp + 1) * 2 ^ 52 * (1000000000 * 2 ^ 23))
             with ((Z.pos qp + 1) * (1000000000 * 2 ^ 23) * 2 ^ 52) by ring.
           apply Z.mul_le_mono_nonneg_r; lia.
        -- replace (Z.pos qp * 2 ^ 60 * ((2 ^ 52 + 1) * (1000000000 * 2 ^ 23)))
             with (Z.pos qp * (2 ^ 52 + 1) * (1000000000 * 2 ^ 23) * 2 ^ 60) by ring.
           apply Z.mul_le_mono_nonneg_r; [lia|].
           apply Z.mul_le_mono_nonneg_r; [|exact H1].
           change (2 ^ 23) with 8388608. lia.
Qed.

Lemma fge_nonneg B L x : fle B x -> fge L x -> fge (Z.max 0 L) x.
Proof.
  destruct x as [s|s| |[|] m e]; simpl; try tauto; [lia|].
  intros _ H. assert (0 <= 2 ^ (- e)) by apply Z.pow_nonneg, Z.le_0_2.
  destruct (Z.max_spec 0 L) as [[_ ->]|[_ ->]]; [exact H|lia].
Qed.

Lemma mul_fge B1 B2 L1 L2 x y :
  fle B1 x -> fle B2 y -> 0 <= B1 -> 0 <= B2 ->
  up (B1 * B2 / 2 ^ 60 + 1) <= 2 ^ 112 ->
  fge L1 x -> fge L2 y -> 0 <= L1 -> 0 <= L2 ->
  fge (down (L1 * L2 / 2 ^ 60)) (mul x y).
Proof.
  intros Hx Hy HB1 HB2 Hup Gx Gy HL1 HL2.
  assert (V60 : 0 < 2 ^ 60) by lia.
  assert (HL0 : 0 <= L1 * L2 / 2 ^ 60) by (apply Z.div_pos; nia).
  assert (Hzero : L1 = 0 \/ L2 = 0 -> down (L1 * L2 / 2 ^ 60) <= 0).
  { intros [->| ->]; [rewrite Z.mul_0_l|rewrite Z.mul_0_r]; vm_compute; discriminate. }
  destruct x as [sx|sx| |[|] mx ex]; unfold fle in Hx; try contradiction;
    destruct y as [sy|sy| |[|] my ey]; unfold fle in Hy; try contradiction;
    simpl in Gx, Gy; simpl;
    try (apply Hzero; lia).
  destruct Hx as (Hvx & Hex & Hbx). destruct Hy as (Hvy & Hey & Hby).
  change (fge (down (L1 * L2 / 2 ^ 60))
              (mul (S754_finite false mx ex) (S754_finite false my ey))).
  unfold mul, SFmul. change (xorb false false) with false.
  destruct (valid_mantissa false mx ex Hvx) as (Hrx & _ & Hnx).
  destruct (valid_mantissa false my ey Hvy) as (Hry & _ & Hny).
  set (P := B1 * B2 / 2 ^ 60 + 1) in *.
  assert (HP0 : 0 <= P).
  { unfold P. assert (0 <= B1 * B2 / 2 ^ 60) by (apply Z.div_pos; nia). lia. }
  assert (HPlt : B1 * B2 < P * 2 ^ 60).
  { unfold P. pose proof (Z.mul_succ_div_gt (B1 * B2) (2 ^ 60) V60). lia. }
  pose proof (up_ge P HP0) as HPup.
  remember (mx * my)%positive as M eqn:HM.
  assert (HMz : Z.pos M = Z.pos mx * Z.pos my) by (rewrite HM; apply Pos2Z.inj_mul).
  clear HM.
  assert (Px : 0 < 2 ^ (- ex)) by (apply Z.pow_pos_nonneg; lia).
  assert (Py : 0 < 2 ^ (- ey)) by (apply Z.pow_pos_nonneg; lia).
  assert (EX : 2 ^ (- (ex + ey)) = 2 ^ (- ex) * 2 ^ (- ey)).
  { rewrite <- Z.pow_add_r by lia. f_equal; lia. }
  apply (binary_round_aux_fge P); try lia.
  - rewrite fexp_value.
    assert (Hor : ex + ey <= -1074 \/ 2 ^ 52 <= Z.pos M).
    { destruct (Z.eq_dec ex (-1074)) as [Hsx|Hsx].
      - destruct (Z.eq_dec ey (-1074)) as [Hsy|Hsy]; [left; lia|].
        right. specialize (Hny ltac:(lia)). rewrite HMz. nia.
      - right. specialize (Hnx ltac:(lia)). rewrite HMz. nia. }
    destruct Hor as [Hs|H52]; [lia|].
    pose proof (digits2_ge M 52 ltac:(lia) H52). lia.
  - unfold belowZ in *. rewrite EX.
    apply (mul_le_cancel_r _ _ (2 ^ 60)); [exact V60|].
    rewrite HMz.
    apply Z.le_trans with (B1 * 2 ^ (- ex) * (B2 * 2 ^ (- ey))).
    + replace (Z.pos mx * Z.pos my * 2 ^ 60 * 2 ^ 60)
        with (Z.pos mx * 2 ^ 60 * (Z.pos my * 2 ^ 60)) by ring.
      apply Z.mul_le_mono_nonneg; lia.
    + replace (B1 * 2 ^ (- ex) * (B2 * 2 ^ (- ey)))
        with (B1 * B2 * (2 ^ (- ex) * 2 ^ (- ey))) by ring.
      replace (P * (2 ^ (- ex) * 2 ^ (- ey)) * 2 ^ 60)
        with (P * 2 ^ 60 * (2 ^ (- ex) * 2 ^ (- ey))) by ring.
      apply Z.mul_le_mono_nonneg_r; nia.
  - rewrite EX, HMz.
    pose proof (Z.mul_div_le (L1 * L2) (2 ^ 60) V60) as Hfl.
    apply (mul_le_cancel_r _ _ (2 ^ 60)); [exact V60|].
    apply Z.le_trans with (L1 * 2 ^ (- ex) * (L2 * 2 ^ (- ey))).
    + replace (L1 * 2 ^ (- ex) * (L2 * 2 ^ (- ey)))
        with (L1 * L2 * (2 ^ (- ex) * 2 ^ (- ey))) by ring.
      replace (L1 * L2 / 2 ^ 60 * (2 ^ (- ex) * 2 ^ (- ey)) * 2 ^ 60)
        with (2 ^ 60 * (L1 * L2 / 2 ^ 60) * (2 ^ (- ex) * 2 ^ (- ey))) by ring.
      apply Z.mul_le_mono_nonneg_r; nia.
    + replace (Z.pos mx * Z.pos my * 2 ^ 60 * 2 ^ 60)
        with (Z.pos mx * 2 ^ 60 * (Z.pos my * 2 ^ 60)) by ring.
      apply Z.mul_le_mono_nonneg; nia.
Qed.

Lemma add_fge B1 B2 L1 L2 x y :
  fle B1 x -> fle B2 y -> 0 <= B1 -> 0 <= B2 ->
  up (B1 + B2) <= 2 ^ 112 ->
  fge L1 x -> fge L2 y -> 0 <= L1 -> 0 <= L2 ->
  fge (down (L1 + L2)) (add x y).
Proof.
  intros Hx Hy HB1 HB2 Hup Gx Gy HL1 HL2.
  pose proof (up_ge (B1 + B2) ltac:(lia)) as Hge.
  pose proof (down_le (L1 + L2) ltac:(lia)) as Hdl.
  destruct x as [sx|sx| |[|] mx ex]; pose proof Hx as Hx'; unfold fle in Hx'; try contradiction;
    destruct y as [sy|sy| |[|] my ey]; pose proof Hy as Hy'; unfold fle in Hy'; try contradiction.
  - simpl in Gx, Gy. destruct sx, sy; simpl; lia.
  - simpl in Gx. apply (fge_mono L2); [lia|exact Gy].
  - simpl in Gy. apply (fge_mono L1); [lia|exact Gx].
  - destruct Hx' as (Hvx & Hex & Hbx). destruct Hy' as (Hvy & Hey & Hby).
    simpl in Gx, Gy.
    unfold add, SFadd. cbn [cond_Zopp].
    set (ez := Z.min ex ey).
    destruct (shl_align_spec mx ex ez) as (_ & Hsx & Hmx).
    destruct (shl_align_spec my ey ez) as (_ & Hsy & Hmy).
    rewrite (Hsx ltac:(unfold ez; lia)) in Hmx.
    rewrite (Hsy ltac:(unfold ez; lia)) in Hmy.
    change (Z.pos (fst (shl_align mx ex ez)) + Z.pos (fst (shl_align my ey ez)))
      with (Z.pos (fst (shl_align mx ex ez) + fst (shl_align my ey ez))).
    cbn [binary_normalize].
    apply (binary_round_fge (B1 + B2)); try lia.
    + rewrite Pos2Z.inj_add, Hmx, Hmy.
      apply belowZ_add; apply belowZ_align; try assumption; unfold ez; lia.
    + rewrite Pos2Z.inj_add, Hmx, Hmy.
      assert (E1 : 2 ^ (- ez) = 2 ^ (- ex) * 2 ^ (ex - ez)).
      { rewrite <- Z.pow_add_r by (unfold ez; lia). f_equal; lia. }
      assert (E2 : 2 ^ (- ez) = 2 ^ (- ey) * 2 ^ (ey - ez)).
      { rewrite <- Z.pow_add_r by (unfold ez; lia). f_equal; lia. }
      assert (P1 : 0 <= 2 ^ (ex - ez)) by apply Z.pow_nonneg, Z.le_0_2.
      assert (P2 : 0 <= 2 ^ (ey - ez)) by apply Z.pow_nonneg, Z.le_0_2.
      rewrite Z.mul_add_distr_r, Z.mul_add_distr_r.
      apply Z.add_le_mono.
      * rewrite E1. nia.
      * rewrite E2. nia.
Qed.

(** A rate of at least [n] tokens per second. *)
Lemma rate_fge B r n :
  fle B r -> leb (of_Z n) r = true -> 0 < n < 2 ^ 53 ->
  fge (n * 2 ^ 60) r.
Proof.
  intros Hf Hn Hr.
  destruct (of_Z_exact n Hr) as (mn & en & Heq & Hvn & Hen & Hmn).
  rewrite Heq in Hn, Hvn.
  destruct r as [s|s| |[|] m e]; unfold fle in Hf; try contradiction.
  - discriminate Hn.
  - destruct Hf as (Hv & He & _).
    apply SFleb_iff in Hn; [|exact Hvn|exact Hv].
    simpl.
    assert (P0 : 0 < 2 ^ (e + 1074)).
    { destruct (valid_mantissa false m e Hv) as (Hr1 & _). apply Z.pow_pos_nonneg; lia. }
    assert (E1 : 2 ^ (- en) * 2 ^ (en + 1074) = 2 ^ 1074)
      by (rewrite <- Z.pow_add_r by lia; f_equal; lia).
    assert (E3 : 2 ^ 1074 = 2 ^ (- e) * 2 ^ (e + 1074)).
    { destruct (valid_mantissa false m e Hv) as (Hr1 & _).
      rewrite <- Z.pow_add_r by lia. f_equal; lia. }
    rewrite Hmn, <- Z.mul_assoc, E1, E3 in Hn.
    assert (H4 : n * 2 ^ (- e) <= Z.pos m).
    { apply (mul_le_cancel_r _ _ (2 ^ (e + 1074))); [exact P0|]. lia. }
    assert (V60 : 0 < 2 ^ 60) by lia. nia.
Qed.

Lemma candidate_lower_mono T T' d d' Lr :
  T <= T' -> d <= d' -> 0 <= Lr ->
  candidate_lower T d Lr <= candidate_lower T' d' Lr.
Proof.
  intros HT Hd HLr. unfold candidate_lower.
  assert (H1 : T * 2 ^ 60 / 1000000000 <= T' * 2 ^ 60 / 1000000000)
    by (apply Z.div_le_mono; lia).
  assert (H2 : d * 2 ^ 60 / 1000000000 <= d' * 2 ^ 60 / 1000000000)
    by (apply Z.div_le_mono; lia).
  apply down_mono. apply Z.add_le_mono.
  - apply Z.max_le_compat_l. now do 2 apply down_mono.
  - apply Z.max_le_compat_l. apply down_mono. apply Z.div_le_mono; [lia|].
    apply Z.mul_le_mono_nonneg_r; [exact HLr|].
    apply Z.max_le_compat_l. now do 2 apply down_mono.
Qed.

Lemma candidate_fge rl now Br Lr :
  fle Br (rate rl) -> 0 <= Br -> fge Lr (rate rl) -> 0 <= Lr ->
  0 <= tokens rl < 2 ^ 53 -> 0 <= now - lastUpdate rl < 2 ^ 53 ->
  candidate_bound (tokens rl) (now - lastUpdate rl) Br <= 2 ^ 112 ->
  fge (candidate_lower (tokens rl) (now - lastUpdate rl) Lr)
      (add (div (of_Z (tokens rl)) c1e9)
           (mul (div (of_Z (Int64.sub now (lastUpdate rl))) c1e9) (rate rl))).
Proof.
  intros Hr HBr Gr HLr HT Hd Hmax.
  assert (Hsub : Int64.sub now (lastUpdate rl) = now - lastUpdate rl).
  { unfold Int64.sub. apply wrap_small. unfold Int64.min_int, Int64.max_int.
    change (2 ^ 63) with 9223372036854775808.
    change (2 ^ 53) with 9007199254740992 in Hd. lia. }
  rewrite Hsub. unfold candidate_bound, candidate_lower in *.
  pose proof (div_bound_nonneg (tokens rl) ltac:(lia)) as N1.
  pose proof (div_bound_nonneg (now - lastUpdate rl) ltac:(lia)) as N2.
  pose proof (up_nonneg _ N1) as U1. pose proof (up_nonneg _ N2) as U2.
  pose proof (mul_bound_nonneg _ _ U2 HBr) as N3.
  pose proof (up_nonneg _ N3) as U3.
  pose proof (up_ge _ (Z.add_nonneg_nonneg _ _ U1 U3)) as G.
  pose proof (div_1e9_fle (tokens rl) HT) as F1.
  pose proof (div_1e9_fle (now - lastUpdate rl) Hd) as F2.
  pose proof (fge_nonneg _ _ _ F1 (div_1e9_fge (tokens rl) HT)) as G1.
  pose proof (fge_nonneg _ _ _ F2 (div_1e9_fge (now - lastUpdate rl) Hd)) as G2.
  assert (F3 : fle (up (up ((now - lastUpdate rl) * 2 ^ 60 / 1000000000 + 1) * Br / 2 ^ 60 + 1))
                   (mul (div (of_Z (now - lastUpdate rl)) c1e9) (rate rl))).
  { apply mul_fle; try assumption. lia. }
  assert (G3 : fge (down (Z.max 0 (down (down ((now - lastUpdate rl) * 2 ^ 60 / 1000000000)))
                          * Lr / 2 ^ 60))
                   (mul (div (of_Z (now - lastUpdate rl)) c1e9) (rate rl))).
  { apply (mul_fge (up ((now - lastUpdate rl) * 2 ^ 60 / 1000000000 + 1)) Br);
      try assumption; lia. }
  apply (fge_nonneg _ _ _ F3) in G3.
  apply (add_fge (up (tokens rl * 2 ^ 60 / 1000000000 + 1))
           (up (up ((now - lastUpdate rl) * 2 ^ 60 / 1000000000 + 1) * Br / 2 ^ 60 + 1)));
    try assumption; lia.
Qed.

(** ** Calls that arrive after the bucket has refilled *)

Lemma floor_ge i L k y :
  fbetween i (i + 1) y -> fge L y -> k * 2 ^ 60 <= L -> 1 <= k -> k <= i.
Proof.
  intros Hb Hg HL Hk.
  assert (V60 : 0 < 2 ^ 60) by lia.
  destruct y as [s|s| |[|] m e]; unfold fbetween in Hb; simpl in Hg; try contradiction.
  - nia.
  - destruct Hb as (_ & He & Hlo & Hhi).
    assert (PX : 0 < 2 ^ (- e)) by (apply Z.pow_pos_nonneg; lia).
    assert (H1 : k * 2 ^ (- e) <= Z.pos m).
    { apply (mul_le_cancel_r _ _ (2 ^ 60)); [exact V60|]. nia. }
    nia.
Qed.

Lemma down_small x : - 2 ^ 52 <= x < 2 ^ 61 -> x - 514 <= down x.
Proof.
  intros Hx. unfold down.
  change (2 ^ 52) with 4503599627370496 in *. change (2 ^ 61) with 2305843009213693952 in *.
  pose proof (Z.mul_div_le x 4503599627370496 ltac:(lia)) as H1.
  remember (x / 4503599627370496) as q. clear Heqq. lia.
Qed.

Lemma down_medium x : - 2 ^ 52 <= x < 2 ^ 82 -> x - 2 ^ 30 - 2 <= down x.
Proof.
  intros Hx. unfold down.
  change (2 ^ 52) with 4503599627370496 in *.
  change (2 ^ 82) with 4835703278458516698824704 in *.
  change (2 ^ 30) with 1073741824.
  pose proof (Z.mul_div_le x 4503599627370496 ltac:(lia)) as H1.
  remember (x / 4503599627370496) as q. clear Heqq. lia.
Qed.

Lemma lower_reduce T d n G :
  0 <= T -> 0 <= d -> 1 <= n -> 0 <= G -> G < T + d * n ->
  exists T' d', 0 <= T' <= T /\ 0 <= d' <= d /\ T' <= G + 1 /\
                G + 1 <= T' + d' * n <= G + n.
Proof.
  intros HT Hd Hn HG Hlt.
  destruct (Z.le_gt_cases (G + 1) T) as [Hbig|Hsmall].
  - exists (G + 1), 0. lia.
  - exists T, ((G - T) / n + 1).
    pose proof (Z.mul_div_le (G - T) n ltac:(lia)) as H1.
    pose proof (Z.mul_succ_div_gt (G - T) n ltac:(lia)) as H2.
    assert (H0 : 0 <= (G - T) / n) by (apply Z.div_pos; lia).
    remember ((G - T) / n) as q. clear Heqq.
    split; [lia|]. split; [nia|]. split; [lia|]. nia.
Qed.

Lemma admit_bound T d n :
  0 <= T <= 1000000001 -> 0 <= d -> 1 <= n <= 1000000 ->
  1000000001 <= T + d * n <= 1000000000 + n ->
  2 ^ 60 <= candidate_lower T d (n * 2 ^ 60).
Proof.
  intros HT Hd Hn Hsum. unfold candidate_lower.
  rewrite (Z.mul_assoc _ n (2 ^ 60)), Z.div_mul by lia.
  assert (V52 : 2 ^ 52 = 4503599627370496) by reflexivity.
  assert (V61 : 2 ^ 61 = 2305843009213693952) by reflexivity.
  change (2 ^ 60) with 1152921504606846976.
  remember (T * 1152921504606846976 / 1000000000) as A eqn:HA.
  remember (d * 1152921504606846976 / 1000000000) as C eqn:HC.
  assert (HA1 : T * 1152921504606846976 < 1000000000 * (A + 1))
    by (rewrite HA; pose proof (Z.mul_succ_div_gt (T * 1152921504606846976) 1000000000
                                  ltac:(lia)); lia).
  assert (HA2 : 1000000000 * A <= T * 1152921504606846976)
    by (rewrite HA; apply Z.mul_div_le; lia).
  assert (HC1 : d * 1152921504606846976 < 1000000000 * (C + 1))
    by (rewrite HC; pose proof (Z.mul_succ_div_gt (d * 1152921504606846976) 1000000000
                                  ltac:(lia)); lia).
  assert (HC2 : 1000000000 * C <= d * 1152921504606846976)
    by (rewrite HC; apply Z.mul_div_le; lia).
  assert (HA0 : 0 <= A) by (rewrite HA; apply Z.div_pos; lia).
  assert (HC0 : 0 <= C) by (rewrite HC; apply Z.div_pos; lia).
  clear HA HC.
  assert (Hdn : 0 <= d * n) by nia.
  assert (Hd9 : d <= 1000000000 + n) by nia.
  assert (HCn1 : d * n * 1152921504606846976 < 1000000000 * (C * n + n)) by nia.
  assert (HCn2 : 1000000000 * (C * n) <= d * n * 1152921504606846976) by nia.
  pose proof (down_small A ltac:(lia)) as D1.
  pose proof (down_small (down A) ltac:(pose proof (down_le A HA0); lia)) as D2.
  pose proof (down_small C ltac:(lia)) as D3.
  pose proof (down_small (down C) ltac:(pose proof (down_le C HC0); lia)) as D4.
  remember (Z.max 0 (down (down A))) as LA eqn:HLA.
  remember (Z.max 0 (down (down C))) as LC eqn:HLC.
  assert (HLA1 : A - 1028 <= LA /\ 0 <= LA <= A).
  { pose proof (down_le A HA0). pose proof (down_mono (down A) A ltac:(lia)).
    pose proof (down_le A HA0). lia. }
  assert (HLC1 : C - 1028 <= LC /\ 0 <= LC <= C).
  { pose proof (down_le C HC0). pose proof (down_mono (down C) C ltac:(lia)).
    pose proof (down_le C HC0). lia. }
  clear HLA HLC D1 D2 D3 D4.
  assert (HP1 : C * n - 1028 * n <= LC * n) by nia.
  assert (HP2 : 0 <= LC * n <= C * n) by nia.
  remember (LC * n) as P. remember (C * n) as Cn. remember (d * n) as Dn.
  clear HeqP HeqCn HeqDn.
  pose proof (down_small P ltac:(lia)) as D5.
  remember (Z.max 0 (down P)) as LP eqn:HLP.
  assert (HLP1 : P - 514 <= LP /\ 0 <= LP <= P).
  { pose proof (down_le P ltac:(lia)). lia. }
  clear HLP D5.
  pose proof (down_small (LA + LP) ltac:(lia)) as D6.
  lia.
Qed.

Lemma refill_bound T d n K :
  1 <= K -> K + 1 <= 2 ^ 20 ->
  0 <= T <= (K + 2) * 1000000000 + 1 -> 0 <= d -> 1 <= n <= 1000000 ->
  (K + 2) * 1000000000 + 1 <= T + d * n <= (K + 2) * 1000000000 + n ->
  (K + 1) * 2 ^ 60 <= candidate_lower T d (n * 2 ^ 60).
Proof.
  intros HK HK1 HT Hd Hn Hsum. unfold candidate_lower.
  rewrite (Z.mul_assoc _ n (2 ^ 60)), Z.div_mul by lia.
  assert (V52 : 2 ^ 52 = 4503599627370496) by reflexivity.
  assert (V82 : 2 ^ 82 = 4835703278458516698824704) by reflexivity.
  assert (V30 : 2 ^ 30 = 1073741824) by reflexivity.
  change (2 ^ 20) with 1048576 in HK1.
  change (2 ^ 60) with 1152921504606846976.
  remember (T * 1152921504606846976 / 1000000000) as A eqn:HA.
  remember (d * 1152921504606846976 / 1000000000) as C eqn:HC.
  assert (HA1 : T * 1152921504606846976 < 1000000000 * (A + 1))
    by (rewrite HA; pose proof (Z.mul_succ_div_gt (T * 1152921504606846976) 1000000000
                                  ltac:(lia)); lia).
  assert (HA2 : 1000000000 * A <= T * 1152921504606846976)
    by (rewrite HA; apply Z.mul_div_le; lia).
  assert (HC1 : d * 1152921504606846976 < 1000000000 * (C + 1))
    by (rewrite HC; pose proof (Z.mul_succ_div_gt (d * 1152921504606846976) 1000000000
                                  ltac:(lia)); lia).
  assert (HC2 : 1000000000 * C <= d * 1152921504606846976)
    by (rewrite HC; apply Z.mul_div_le; lia).
  assert (HA0 : 0 <= A) by (rewrite HA; apply Z.div_pos; lia).
  assert (HC0 : 0 <= C) by (rewrite HC; apply Z.div_pos; lia).
  clear HA HC.
  assert (Hdn : 0 <= d * n) by nia.
  assert (Hd9 : d <= (K + 2) * 1000000000 + n) by nia.
  assert (HCn1 : d * n * 1152921504606846976 < 1000000000 * (C * n + n)) by nia.
  assert (HCn2 : 1000000000 * (C * n) <= d * n * 1152921504606846976) by nia.
  pose proof (down_medium A ltac:(lia)) as D1.
  pose proof (down_medium (down A) ltac:(pose proof (down_le A HA0); lia)) as D2.
  pose proof (down_medium C ltac:(lia)) as D3.
  pose proof (down_medium (down C) ltac:(pose proof (down_le C HC0); lia)) as D4.
  remember (Z.max 0 (down (down A))) as LA eqn:HLA.
  remember (Z.max 0 (down (down C))) as LC eqn:HLC.
  assert (HLA1 : A - 2147483652 <= LA /\ 0 <= LA <= A).
  { pose proof (down_le A HA0). pose proof (down_mono (down A) A ltac:(lia)). lia. }
  assert (HLC1 : C - 2147483652 <= LC /\ 0 <= LC <= C).
  { pose proof (down_le C HC0). pose proof (down_mono (down C) C ltac:(lia)). lia. }
  clear HLA HLC D1 D2 D3 D4.
  assert (HP1 : C * n - 2147483652 * n <= LC * n) by nia.
  assert (HP2 : 0 <= LC * n <= C * n) by nia.
  remember (LC * n) as P. remember (C * n) as Cn. remember (d * n) as Dn.
  clear HeqP HeqCn HeqDn.
  pose proof (down_medium P ltac:(lia)) as D5.
  remember (Z.max 0 (down P)) as LP eqn:HLP.
  assert (HLP1 : P - 1073741826 <= LP /\ 0 <= LP <= P).
  { pose proof (down_le P ltac:(lia)). lia. }
  clear HLP D5.
  pose proof (down_medium (LA + LP) ltac:(lia)) as D6.
  lia.
Qed.

Lemma leb_zero_of_ge r n :
  leb (of_Z n) r = true -> 0 < n < 2 ^ 53 -> leb zero r = true.
Proof.
  intros Hn Hr.
  destruct (of_Z_exact n Hr) as (mn & en & Heq & _).
  rewrite Heq in Hn.
  destruct r as [s|s| |[|] m e]; try discriminate Hn; try reflexivity.
  destruct s; [discriminate Hn|reflexivity].
Qed.

(** The facts about a built limiter that the two theorems below share. *)
Lemma built_facts rl n :
  built rl -> valid (rate rl) = true ->
  leb (of_Z n) (rate rl) = true -> leb (rate rl) (of_Z 10000000) = true ->
  1 <= n <= 1000000 ->
  exists K, 10 <= K /\ K + 1 <= 2 ^ 20 /\
    fbetween K (K + 1) (capacity rl) /\
    K * 1000000000 <= tokens (NewRateLimiter (rate rl) 0) < (K + 1) * 1000000000 /\
    is_finite (rate rl) = true /\
    fle (10000000 * 2 ^ 60) (rate rl) /\ fge (n * 2 ^ 60) (rate rl).
Proof.
  intros Hb Hv Hn H7 Hn1.
  assert (V53 : 2 ^ 53 = 9007199254740992) by reflexivity.
  pose proof (leb_zero_of_ge _ _ Hn ltac:(lia)) as H0.
  destruct (capacity_between (rate rl) Hv H0 H7) as (Hfin & K & HK & HK1 & Hc).
  pose proof (rate_fle (rate rl) 10000000 Hv H0 H7 ltac:(lia)) as Hr.
  exists K. split; [exact HK|]. split; [exact HK1|]. split; [now rewrite Hb|]. split.
  - apply NewRateLimiter_tokens; [exact Hc|lia|exact HK1].
  - split; [exact Hfin|]. split; [exact Hr|].
    apply (rate_fge (10000000 * 2 ^ 60)); [exact Hr|exact Hn|lia].
Qed.

(** X16: Admission after a refill: when the stored balance [T] and the time
    elapsed [d] satisfy [T + d * n > 1e9] for a whole number [n] not
    above the rate, the call is admitted. With [Allow_starved] this
    settles every call except those at the exact boundary. *)
Theorem Allow_admits rl now n :
  built rl -> valid (rate rl) = true ->
  leb (of_Z n) (rate rl) = true -> leb (rate rl) (of_Z 10000000) = true ->
  1 <= n <= 1000000 ->
  0 <= tokens rl <= tokens (NewRateLimiter (rate rl) 0) ->
  0 <= now - lastUpdate rl < 2 ^ 53 ->
  1000000000 < tokens rl + (now - lastUpdate rl) * n ->
  snd (Allow rl now) = true.
Proof.
  intros Hb Hv Hn H7 Hn1 HT Hd Hgt.
  destruct (built_facts rl n Hb Hv Hn H7 Hn1) as (K & HK & HK1 & Hc & Htok & _ & Hr & Gr).
  assert (V20 : 2 ^ 20 = 1048576) by reflexivity.
  assert (V53 : 2 ^ 53 = 9007199254740992) by reflexivity.
  pose proof (general_bound (tokens rl) (now - lastUpdate rl) ltac:(lia) Hd) as Hmax.
  destruct (Allow_outcome rl now K (10000000 * 2 ^ 60) Hr ltac:(lia) Hc ltac:(lia) HK1
              ltac:(lia) Hd Hmax) as (i & Hi & _ & Hyi & _ & _ & Hpos).
  pose proof (candidate_fge rl now (10000000 * 2 ^ 60) (n * 2 ^ 60) Hr ltac:(lia) Gr
                ltac:(lia) ltac:(lia) Hd Hmax) as Hlow.
  destruct (lower_reduce (tokens rl) (now - lastUpdate rl) n 1000000000
              ltac:(lia) ltac:(lia) ltac:(lia) ltac:(lia) Hgt)
    as (T' & d' & HT' & Hd' & HT1 & Hsum).
  pose proof (admit_bound T' d' n ltac:(lia) ltac:(lia) Hn1 ltac:(lia)) as Hb1.
  pose proof (candidate_lower_mono T' (tokens rl) d' (now - lastUpdate rl) (n * 2 ^ 60)
                ltac:(lia) ltac:(lia) ltac:(lia)) as Hmono.
  pose proof (floor_ge i _ 1 _ Hyi Hlow ltac:(lia) ltac:(lia)) as Hi1.
  apply Hpos. lia.
Qed.

(** X17: A full refill: when [T + d * n] exceeds [(floor(capacity) + 2) * 1e9]
    the refilled balance is capped at the capacity, and the calls made at
    that instant are admitted exactly [floor(capacity)] times, however
    long the limiter has been idle. *)
Theorem Allow_full_refill rl now n K :
  built rl -> valid (rate rl) = true ->
  leb (of_Z n) (rate rl) = true -> leb (rate rl) (of_Z 10000000) = true ->
  1 <= n <= 1000000 ->
  0 <= tokens rl <= tokens (NewRateLimiter (rate rl) 0) ->
  0 <= now - lastUpdate rl < 2 ^ 53 ->
  trunc (capacity rl) = Some K ->
  (K + 2) * 1000000000 < tokens rl + (now - lastUpdate rl) * n ->
  burst rl now (Z.to_nat K).
Proof.
  intros Hb Hv Hn H7 Hn1 HT Hd HK0 Hgt.
  destruct (built_facts rl n Hb Hv Hn H7 Hn1) as (K' & HK & HK1 & Hc & Htok & Hfin & Hr & Gr).
  rewrite (trunc_between K' _ Hc) in HK0. injection HK0 as ->.
  assert (V20 : 2 ^ 20 = 1048576) by reflexivity.
  assert (V53 : 2 ^ 53 = 9007199254740992) by reflexivity.
  pose proof (general_bound (tokens rl) (now - lastUpdate rl) ltac:(lia) Hd) as Hmax.
  destruct (Allow_outcome rl now K (10000000 * 2 ^ 60) Hr ltac:(lia) Hc ltac:(lia) HK1
              ltac:(lia) Hd Hmax) as (i & Hi & _ & Hyi & Hlu & _ & Hpos).
  pose proof (candidate_fge rl now (10000000 * 2 ^ 60) (n * 2 ^ 60) Hr ltac:(lia) Gr
                ltac:(lia) ltac:(lia) Hd Hmax) as Hlow.
  destruct (lower_reduce (tokens rl) (now - lastUpdate rl) n ((K + 2) * 1000000000)
              ltac:(lia) ltac:(lia) ltac:(lia) ltac:(lia) Hgt)
    as (T' & d' & HT' & Hd' & HT1 & Hsum).
  pose proof (refill_bound T' d' n K ltac:(lia) HK1 ltac:(lia) ltac:(lia) Hn1 ltac:(lia))
    as Hb1.
  pose proof (candidate_lower_mono T' (tokens rl) d' (now - lastUpdate rl) (n * 2 ^ 60)
                ltac:(lia) ltac:(lia) ltac:(lia)) as Hmono.
  pose proof (floor_ge i _ (K + 1) _ Hyi Hlow ltac:(lia) ltac:(lia)) as Hi1.
  destruct (Hpos ltac:(lia)) as [Hok Htk].
  rewrite Z.min_r in Htk by lia.
  destruct (Allow_keeps_config rl now) as [Hrate Hcap].
  unfold burst.
  replace (Z.to_nat K) with (S (Z.to_nat (K - 1))) by lia.
  change (repeat now (S (S (Z.to_nat (K - 1)))))
    with (now :: repeat now (S (Z.to_nat (K - 1)))).
  cbn [Allow_seq].
  destruct (Allow rl now) as [rl1 ok] eqn:HA. cbn [fst snd] in *. subst ok.
  assert (Hinv : limiter_inv K now (Z.of_nat (Z.to_nat (K - 1))) rl1).
  { rewrite Z2Nat.id by lia. unfold limiter_inv. rewrite Hrate, Hcap, Hlu.
    replace (K - 1 + 1) with K by lia. tauto. }
  pose proof (burst_from K now ltac:(lia) HK1 (Z.to_nat (K - 1)) rl1 ltac:(lia) Hinv) as Hburst.
  unfold burst in Hburst.
  destruct (Allow_seq rl1 (repeat now (S (Z.to_nat (K - 1))))) as [rl2 oks].
  cbn [snd] in *. rewrite Hburst. reflexivity.
Qed.

(** ** What an admitted call takes out of the bucket *)

Lemma candidate_bound_mono_rate T d Br Br' :
  0 <= T -> 0 <= d -> 0 <= Br <= Br' ->
  candidate_bound T d Br <= candidate_bound T d Br'.
Proof.
  intros HT Hd HBr. unfold candidate_bound.
  pose proof (div_bound_nonneg T HT) as N1.
  pose proof (div_bound_nonneg d Hd) as N2.
  pose proof (up_nonneg _ N1) as U1. pose proof (up_nonneg _ N2) as U2.
  assert (H5 : up (d * 2 ^ 60 / 1000000000 + 1) * Br / 2 ^ 60
               <= up (d * 2 ^ 60 / 1000000000 + 1) * Br' / 2 ^ 60).
  { apply Z.div_le_mono; [lia|]. apply Z.mul_le_mono_nonneg_l; lia. }
  pose proof (mul_bound_nonneg _ _ U2 (proj1 HBr)) as N3.
  assert (H6 : up (up (d * 2 ^ 60 / 1000000000 + 1) * Br / 2 ^ 60 + 1)
               <= up (up (d * 2 ^ 60 / 1000000000 + 1) * Br' / 2 ^ 60 + 1))
    by (apply up_mono; lia).
  pose proof (up_nonneg _ N3) as U3.
  apply up_mono. lia.
Qed.

Lemma rate_bound T d n :
  0 <= T < 2 ^ 20 * 1000000000 -> 0 <= d < 2 ^ 53 -> 0 <= n <= 10000000 ->
  candidate_bound T d (n * 2 ^ 60) <= 2 ^ 112.
Proof.
  intros HT Hd Hn.
  apply Z.le_trans with (candidate_bound T d (10000000 * 2 ^ 60)).
  - apply candidate_bound_mono_rate; lia.
  - apply general_bound; assumption.
Qed.

Lemma fbetween_fle lo hi x : fbetween lo hi x -> fle (hi * 2 ^ 60) x.
Proof.
  destruct x as [s|s| |[|] m e]; unfold fbetween, fle; try contradiction; [tauto|].
  intros (Hv & He & _ & Hhi). split; [exact Hv|]. split; [exact He|].
  unfold belowZ.
  assert (P60 : 0 < 2 ^ 60) by reflexivity.
  assert (Pe : 0 < 2 ^ (- e)) by (apply Z.pow_pos_nonneg; lia).
  nia.
Qed.

Lemma fle_min B1 B2 x : fle B1 x -> fle B2 x -> fle (Z.min B1 B2) x.
Proof.
  intros H1 H2. destruct (Z.le_gt_cases B1 B2).
  - rewrite Z.min_l by lia. exact H1.
  - rewrite Z.min_r by lia. exact H2.
Qed.

(** [math.Min(capacity, y)] is at most [y]. *)
Lemma math_Min_fle B K cap y :
  1 <= K -> fbetween K (K + 1) cap -> fle B y -> fle B (math_Min cap y).
Proof.
  intros HK Hc Hy.
  destruct cap as [s|s| |[|] mc ec]; unfold fbetween in Hc; try contradiction; [lia|].
  destruct Hc as (Hvc & Hec & Hcl & Hch).
  destruct y as [s|s| |[|] my ey]; pose proof Hy as Hy'; unfold fle in Hy';
    try contradiction.
  - destruct s; exact I.
  - destruct Hy' as (Hvy & Hey & Hyb).
    unfold math_Min. cbn [is_inf is_nan orb eqb SFeqb SFcompare zero andb].
    unfold ltb.
    destruct (SFltb (S754_finite false mc ec) (S754_finite false my ey)) eqn:Hlt;
      [|exact Hy].
    apply SFltb_value in Hlt; try assumption.
    assert (Pc : 0 < 2 ^ (- ec)) by (apply Z.pow_pos_nonneg; lia).
    assert (Py : 0 < 2 ^ (- ey)) by (apply Z.pow_pos_nonneg; lia).
    assert (P60 : 0 < 2 ^ 60) by reflexivity.
    unfold fle. split; [exact Hvc|]. split; [exact Hec|].
    unfold belowZ in *.
    apply (Z.mul_le_mono_pos_r _ _ (2 ^ (- ey))); [exact Py|].
    apply Z.le_trans with (Z.pos my * 2 ^ 60 * 2 ^ (- ec)); nia.
Qed.

(** [x - 1] for [x >= 1]: the bound moves down by one. *)
Lemma sub_one_fle B i y :
  1 <= i -> i + 1 <= 2 ^ 21 -> fbetween i (i + 1) y -> fle B y ->
  2 ^ 60 <= B -> up (B - 2 ^ 60) <= 2 ^ 112 ->
  fle (up (B - 2 ^ 60)) (sub y one).
Proof.
  intros Hi Hi1 Hy HB HB1 HBmax. rewrite one_value.
  destruct y as [s|s| |[|] m e]; unfold fbetween in Hy; try contradiction; [lia|].
  destruct Hy as (Hv & He & Hlo & Hhi).
  unfold fle in HB. destruct HB as (_ & _ & HB). unfold belowZ in HB.
  destruct (valid_mantissa _ _ _ Hv) as (Hre & Hm53 & _).
  assert (Pe : 0 < 2 ^ (- e)) by (apply Z.pow_pos_nonneg; lia).
  assert (He52 : -52 <= e).
  { assert (H : 2 ^ (- e) < 2 ^ 53) by nia. apply pow2_lt_exp in H; lia. }
  unfold sub, SFsub. replace (Z.min e (-52)) with (-52) by lia.
  destruct (shl_align_spec m e (-52)) as (_ & Hs1 & Hf1).
  rewrite Hs1 in Hf1 by lia. clear Hs1.
  destruct (shl_align_spec 4503599627370496 (-52) (-52)) as (_ & Hs2 & Hf2).
  rewrite Hs2 in Hf2 by lia. clear Hs2.
  remember (fst (shl_align m e (-52))) as a1 eqn:Ha1. clear Ha1.
  remember (fst (shl_align 4503599627370496 (-52) (-52))) as a2 eqn:Ha2. clear Ha2.
  replace (e - -52) with (e + 52) in Hf1 by lia.
  change (Z.pos 4503599627370496 * 2 ^ (-52 - -52)) with (2 ^ 52) in Hf2.
  assert (P52 : 0 < 2 ^ (e + 52)) by (apply Z.pow_pos_nonneg; lia).
  assert (E52 : 2 ^ 52 = 2 ^ (- e) * 2 ^ (e + 52))
    by (rewrite <- pow2_split by lia; f_equal; lia).
  unfold cond_Zopp.
  assert (HAlo : 0 <= Z.pos a1 - Z.pos a2)
    by (rewrite Hf1, Hf2, E52; nia).
  assert (HAB : (Z.pos a1 - Z.pos a2) * 2 ^ 60 <= (B - 2 ^ 60) * 2 ^ 52).
  { rewrite Hf1, Hf2.
    assert (H : Z.pos m * 2 ^ 60 * 2 ^ (e + 52) <= B * 2 ^ (- e) * 2 ^ (e + 52))
      by (apply Z.mul_le_mono_nonneg_r; lia).
    replace (B * 2 ^ (- e) * 2 ^ (e + 52)) with (B * 2 ^ 52) in H by (rewrite E52; ring).
    lia. }
  clear Hf1 Hf2.
  destruct (Z.pos a1 - Z.pos a2) as [|a|a] eqn:HA.
  - exact I.
  - unfold binary_normalize.
    apply binary_round_fle; [lia|lia|exact HBmax|].
    unfold belowZ. change (- -52) with 52. exact HAB.
  - exfalso. lia.
Qed.

Lemma up_le B :
  0 <= B -> 4503599627370496 * up B <= 4503599627370497 * B + 9007199254740992.
Proof.
  intros HB. unfold up. change (2 ^ 52) with 4503599627370496.
  pose proof (Z.mul_div_le B 4503599627370496 ltac:(lia)). lia.
Qed.

(** The integer form of the bound on the balance an admitted call
    leaves: the balance read plus the refill, less one token, up to the
    rounding of the six float operations on the way. *)
Lemma consume_bound T d n M :
  0 <= T < 2 ^ 50 -> 0 <= d -> 1 <= n <= 10000000 ->
  2 ^ 60 <= M <= candidate_bound T d (n * 2 ^ 60) ->
  up (up (M - 2 ^ 60) * 1000000000 + 1) <
  (T + d * n + d * n / 2 ^ 49 + 6 - 1000000000 + 1) * 2 ^ 60.
Proof.
  intros HT Hd Hn HM.
  unfold candidate_bound in HM.
  rewrite Z.mul_assoc, Z.div_mul in HM by lia.
  change (2 ^ 60) with 1152921504606846976 in *.
  change (2 ^ 50) with 1125899906842624 in *.
  change (2 ^ 49) with 562949953421312 in *.
  pose proof (Z.mul_div_le (T * 1152921504606846976) 1000000000 ltac:(lia)) as Fa.
  pose proof (Z.div_pos (T * 1152921504606846976) 1000000000 ltac:(lia) ltac:(lia)) as Fa0.
  remember (T * 1152921504606846976 / 1000000000) as a eqn:Ea. clear Ea.
  pose proof (Z.mul_div_le (d * 1152921504606846976) 1000000000 ltac:(lia)) as Fb.
  pose proof (Z.div_pos (d * 1152921504606846976) 1000000000 ltac:(lia) ltac:(lia)) as Fb0.
  remember (d * 1152921504606846976 / 1000000000) as b eqn:Eb. clear Eb.
  pose proof (up_le (a + 1) ltac:(lia)) as U1.
  pose proof (up_ge (a + 1) ltac:(lia)) as U1'.
  remember (up (a + 1)) as A1 eqn:EA1. clear EA1.
  pose proof (up_le (b + 1) ltac:(lia)) as U2.
  pose proof (up_ge (b + 1) ltac:(lia)) as U2'.
  remember (up (b + 1)) as B1 eqn:EB1. clear EB1.
  assert (HP : 0 <= B1 * n) by nia.
  assert (HP1 : 4503599627370496 * (B1 * n) <=
                4503599627370497 * (b * n) + 4503599627370497 * n + 9007199254740992 * n)
    by nia.
  assert (HP2 : 1000000000 * (b * n) <= d * n * 1152921504606846976) by nia.
  assert (Hdn : 0 <= d * n) by nia.
  assert (Hbn : 0 <= b * n) by nia.
  remember (B1 * n) as P eqn:EP. clear EP.
  remember (b * n) as bn eqn:Ebn. clear Ebn.
  pose proof (Z.mul_succ_div_gt (d * n) 562949953421312 ltac:(lia)) as Fx.
  pose proof (Z.div_pos (d * n) 562949953421312 ltac:(lia) ltac:(lia)) as Fx0.
  remember (d * n / 562949953421312) as x49 eqn:Ex.
  remember (d * n) as dn eqn:Edn. clear Ex Edn.
  pose proof (up_le (P + 1) ltac:(lia)) as U3.
  pose proof (up_ge (P + 1) ltac:(lia)) as U3'.
  remember (up (P + 1)) as B2 eqn:EB2. clear EB2.
  pose proof (up_le (A1 + B2) ltac:(lia)) as U4.
  remember (up (A1 + B2)) as CB eqn:ECB. clear ECB.
  pose proof (up_le (M - 1152921504606846976) ltac:(lia)) as U5.
  pose proof (up_ge (M - 1152921504606846976) ltac:(lia)) as U5'.
  remember (up (M - 1152921504606846976)) as M1 eqn:EM1. clear EM1.
  pose proof (up_le (M1 * 1000000000 + 1) ltac:(lia)) as U6.
  remember (up (M1 * 1000000000 + 1)) as U eqn:EU. clear EU.
  clear U1' U2' U3' U5' HP Fa0 Fb0.
  lia.
Qed.

Lemma candidate_bound_nonneg T d Br :
  0 <= T -> 0 <= d -> 0 <= Br -> 0 <= candidate_bound T d Br.
Proof.
  intros HT Hd HBr. unfold candidate_bound. apply up_nonneg.
  pose proof (div_bound_nonneg T HT) as N1.
  pose proof (div_bound_nonneg d Hd) as N2.
  pose proof (up_nonneg _ N1) as U1. pose proof (up_nonneg _ N2) as U2.
  pose proof (mul_bound_nonneg _ _ U2 HBr) as N3.
  pose proof (up_nonneg _ N3) as U3. lia.
Qed.

(** An admitted call takes a whole token: the balance it stores plus one
    token is at most the balance read plus the refill at [n] tokens per
    second, up to rounding. *)
Lemma Allow_consumes rl now K n :
  valid (rate rl) = true -> leb zero (rate rl) = true ->
  leb (rate rl) (of_Z n) = true -> 1 <= n <= 10000000 ->
  fbetween K (K + 1) (capacity rl) -> 1 <= K -> K + 1 <= 2 ^ 20 ->
  0 <= tokens rl < (K + 1) * 1000000000 ->
  0 <= now - lastUpdate rl < 2 ^ 53 ->
  snd (Allow rl now) = true ->
  tokens (fst (Allow rl now)) + 1000000000 <=
  tokens rl + (now - lastUpdate rl) * n + (now - lastUpdate rl) * n / 2 ^ 49 + 6.
Proof.
  intros Hv H0 Hle Hn Hc HK HK1 HT Hd Hok.
  assert (V20 : 2 ^ 20 = 1048576) by reflexivity.
  assert (V21 : 2 ^ 21 = 2097152) by reflexivity.
  assert (V50 : 2 ^ 50 = 1125899906842624) by reflexivity.
  assert (V53 : 2 ^ 53 = 9007199254740992) by reflexivity.
  assert (V60 : 2 ^ 60 = 1152921504606846976) by reflexivity.
  assert (V63 : 2 ^ 63 = 9223372036854775808) by reflexivity.
  pose proof (rate_fle (rate rl) n Hv H0 Hle ltac:(lia)) as Hr.
  pose proof (rate_bound (tokens rl) (now - lastUpdate rl) n ltac:(nia) Hd ltac:(lia))
    as Hmax.
  pose proof (candidate_fle rl now (n * 2 ^ 60) Hr ltac:(lia) ltac:(nia) Hd Hmax) as Hy.
  pose proof (candidate_bound_nonneg (tokens rl) (now - lastUpdate rl) (n * 2 ^ 60)
                ltac:(lia) ltac:(lia) ltac:(lia)) as HB0.
  destruct (fle_floor _ _ HB0 Hy) as (i & Hi & HiB & Hyi).
  pose proof (math_Min_capped K i _ _ HK Hi Hc Hyi) as Hx.
  pose proof (math_Min_fle _ K _ _ HK Hc Hy) as Hxf.
  pose proof (consume_bound (tokens rl) (now - lastUpdate rl) n) as Hcb.
  remember (candidate_bound (tokens rl) (now - lastUpdate rl) (n * 2 ^ 60)) as CB eqn:ECB.
  clear ECB.
  unfold Allow in Hok |- *.
  remember (math_Min (capacity rl)
              (add (div (of_Z (tokens rl)) c1e9)
                   (mul (div (of_Z (Int64.sub now (lastUpdate rl))) c1e9) (rate rl)))) as x eqn:Hxe.
  clear Hxe Hy Hyi.
  remember (Z.min i K) as j eqn:Hj.
  assert (Hj0 : 0 <= j <= K) by lia.
  destruct (geb_one_between j x Hx) as [_ Hge0].
  destruct (geb x one) eqn:Hge; cbn [fst snd tokens lastUpdate] in *; [|discriminate Hok].
  assert (Hj1 : 1 <= j).
  { destruct (Z.le_gt_cases 1 j) as [H|H]; [exact H|].
    specialize (Hge0 ltac:(lia)). discriminate Hge0. }
  set (M := Z.min CB ((j + 1) * 2 ^ 60)).
  assert (HxM : fle M x) by (apply fle_min; [exact Hxf|exact (fbetween_fle _ _ _ Hx)]).
  assert (HM : 2 ^ 60 <= M <= CB) by (unfold M; nia).
  assert (HM80 : M - 2 ^ 60 <= 2 ^ 80).
  { unfold M. change (2 ^ 80) with (2 ^ 20 * 2 ^ 60). nia. }
  assert (Hup1 : up (M - 2 ^ 60) <= up (2 ^ 80)) by (apply up_mono; lia).
  assert (Hup0 : 0 <= up (M - 2 ^ 60)) by (apply up_nonneg; lia).
  assert (Hs : fle (up (M - 2 ^ 60)) (sub x one)).
  { apply (sub_one_fle M j); try assumption; try lia.
    apply Z.le_trans with (up (2 ^ 80)); [exact Hup1|]. vm_compute. discriminate. }
  assert (Hc9 : fle (1000000000 * 2 ^ 60) c1e9)
    by (apply of_Z_fle; vm_compute; split; [discriminate|reflexivity]).
  assert (Hdiv : up (M - 2 ^ 60) * (1000000000 * 2 ^ 60) / 2 ^ 60
                 = up (M - 2 ^ 60) * 1000000000)
    by (rewrite Z.mul_assoc, Z.div_mul by lia; reflexivity).
  assert (Hbig : up (up (M - 2 ^ 60) * (1000000000 * 2 ^ 60) / 2 ^ 60 + 1) <= 2 ^ 112).
  { rewrite Hdiv.
    apply Z.le_trans with (up (up (2 ^ 80) * 1000000000 + 1)).
    - apply up_mono. lia.
    - vm_compute. discriminate. }
  pose proof (mul_fle _ _ _ _ Hs Hc9 Hup0 ltac:(lia) Hbig) as Hm.
  rewrite Hdiv in Hm.
  assert (Hz0 : 0 <= up (up (M - 2 ^ 60) * 1000000000 + 1)) by (apply up_nonneg; lia).
  destruct (fle_floor _ _ Hz0 Hm) as (k & Hk & HkB & Hzk).
  specialize (Hcb M ltac:(lia) ltac:(lia) Hn HM).
  assert (Hk63 : k + 1 <= 2 ^ 63).
  { assert (k * 2 ^ 60 <= 2 ^ 112) by (rewrite Hdiv in Hbig; lia).
    change (2 ^ 112) with (2 ^ 52 * 2 ^ 60) in H.
    assert (k <= 2 ^ 52) by nia.
    assert (2 ^ 52 = 4503599627370496) by reflexivity. lia. }
  apply to_int64_between in Hzk; [|lia|exact Hk63].
  remember ((now - lastUpdate rl) * n / 2 ^ 49) as x49 eqn:Ex. clear Ex.
  remember ((now - lastUpdate rl) * n) as dn eqn:Edn. clear Edn.
  nia.
Qed.

Lemma div_superadd a b c : 0 < c -> a / c + b / c <= (a + b) / c.
Proof.
  intros Hc.
  pose proof (Z.mul_div_le a c Hc). pose proof (Z.mul_div_le b c Hc).
  apply Z.div_le_lower_bound; [exact Hc|]. lia.
Qed.

Lemma Allow_seq_throughput K n nows : forall rl,
  valid (rate rl) = true -> leb zero (rate rl) = true ->
  leb (rate rl) (of_Z n) = true -> 1 <= n <= 10000000 ->
  fbetween K (K + 1) (capacity rl) -> 1 <= K -> K + 1 <= 2 ^ 20 ->
  0 <= tokens rl < (K + 1) * 1000000000 ->
  clock_steps (lastUpdate rl) nows ->
  Z.of_nat (count_admitted (snd (Allow_seq rl nows))) * 1000000000
    + tokens (fst (Allow_seq rl nows)) <=
  tokens rl + (List.last nows (lastUpdate rl) - lastUpdate rl) * n
    + (List.last nows (lastUpdate rl) - lastUpdate rl) * n / 2 ^ 49
    + 6 * Z.of_nat (length nows).
Proof.
  induction nows as [|now nows IH]; intros rl Hv H0 Hle Hn Hc HK HK1 HT Hclock.
  - cbn [Allow_seq snd fst List.last length].
    change (count_admitted []) with 0%nat.
    rewrite Z.sub_diag. replace (0 * n) with 0 by lia. change (0 / 2 ^ 49) with 0. lia.
  - destruct Hclock as [Hd Hrest].
    assert (V20 : 2 ^ 20 = 1048576) by reflexivity.
    assert (H7 : leb (rate rl) (of_Z 10000000) = true).
    { apply (leb_of_Z_mono _ n); try assumption; [lia|reflexivity]. }
    pose proof (rate_fle (rate rl) 10000000 Hv H0 H7 ltac:(vm_compute; split; reflexivity))
      as Hr.
    pose proof (general_bound (tokens rl) (now - lastUpdate rl) ltac:(nia) Hd) as Hmax.
    destruct (Allow_balance_step rl now K (10000000 * 2 ^ 60) Hr ltac:(lia) Hc HK HK1
                HT Hd Hmax) as (Hlu & Hden & Hadm).
    pose proof (Allow_consumes rl now K n Hv H0 Hle Hn Hc HK HK1 HT Hd) as Hcons.
    destruct (Allow_keeps_config rl now) as [Hrate Hcap].
    rewrite last_cons.
    cbn [Allow_seq length].
    destruct (Allow rl now) as [rl1 ok] eqn:HA. cbn [fst snd] in *.
    assert (HT1 : 0 <= tokens rl1 < (K + 1) * 1000000000).
    { destruct ok.
      - destruct (Hadm eq_refl) as (j & Hj & _ & Htk). nia.
      - rewrite (Hden eq_refl). lia. }
    specialize (IH rl1). rewrite Hrate, Hcap, Hlu in IH.
    specialize (IH Hv H0 Hle Hn Hc HK HK1 HT1 Hrest).
    destruct (Allow_seq rl1 nows) as [rl2 oks]. cbn [fst snd] in *.
    rewrite count_admitted_cons.
    pose proof (div_superadd ((now - lastUpdate rl) * n) ((List.last nows now - now) * n)
                  (2 ^ 49) ltac:(reflexivity)) as Hsup.
    replace ((now - lastUpdate rl) * n + (List.last nows now - now) * n)
      with ((List.last nows now - lastUpdate rl) * n) in Hsup by ring.
    assert (Hdn : 0 <= (now - lastUpdate rl) * n) by nia.
    assert (Hq : 0 <= (now - lastUpdate rl) * n / 2 ^ 49)
      by (apply Z.div_pos; [exact Hdn|reflexivity]).
    assert (Hsplit : (List.last nows now - lastUpdate rl) * n
                     = (now - lastUpdate rl) * n + (List.last nows now - now) * n) by ring.
    remember ((now - lastUpdate rl) * n / 2 ^ 49) as q1 eqn:E1. clear E1.
    remember ((List.last nows now - now) * n / 2 ^ 49) as q2 eqn:E2. clear E2.
    remember ((List.last nows now - lastUpdate rl) * n / 2 ^ 49) as q eqn:E3. clear E3.
    remember ((now - lastUpdate rl) * n) as p1 eqn:E4. clear E4.
    remember ((List.last nows now - now) * n) as p2 eqn:E5. clear E5.
    remember ((List.last nows now - lastUpdate rl) * n) as p eqn:E6. clear E6.
    destruct ok.
    + specialize (Hcons eq_refl). lia.
    + rewrite (Hden eq_refl) in IH. lia.
Qed.

(** X18: The token-bucket guarantee: for a limiter built with a rate between
    0 and a whole number [n] of at most ten million tokens per second,
    called by one caller at a time on a clock that does not go back, the
    calls admitted over any history are at most the initial balance plus
    [n] tokens per second of elapsed time, up to the rounding of the
    float arithmetic: a fraction [2^-49] of the refill and six billionths
    of a token per call. *)
Theorem Allow_throughput_bounded rps t0 nows n :
  valid rps = true -> leb zero rps = true -> leb rps (of_Z n) = true ->
  1 <= n <= 10000000 ->
  clock_steps t0 nows ->
  Z.of_nat (count_admitted (snd (Allow_seq (NewRateLimiter rps t0) nows))) * 1000000000 <=
  tokens (NewRateLimiter rps t0) + (List.last nows t0 - t0) * n
    + (List.last nows t0 - t0) * n / 2 ^ 49
    + 6 * Z.of_nat (length nows).
Proof.
  intros Hv H0 Hle Hn Hclock.
  assert (H7 : leb rps (of_Z 10000000) = true).
  { apply (leb_of_Z_mono _ n); try assumption; [lia|reflexivity]. }
  destruct (capacity_between rps Hv H0 H7) as (_ & K & HK & HK1 & Hcap).
  change (math_Max (of_Z 10) (mul rps (dec 1 10)))
    with (capacity (NewRateLimiter rps t0)) in Hcap.
  pose proof (NewRateLimiter_tokens rps t0 K Hcap ltac:(lia) HK1) as Htok.
  destruct (Allow_seq_balance K (tokens (NewRateLimiter rps t0)) nows (NewRateLimiter rps t0))
    as (I1 & _); try assumption; try lia.
  pose proof (Allow_seq_throughput K n nows (NewRateLimiter rps t0) Hv H0 Hle Hn Hcap
                ltac:(lia) HK1 ltac:(lia) Hclock) as Hth.
  change (lastUpdate (NewRateLimiter rps t0)) with t0 in Hth.
  lia.
Qed.

Lemma count_not_429 resps : forall oks,
  map (has_code 429) resps = map negb oks ->
  count (fun r => negb (has_code 429 r)) resps = count_admitted oks.
Proof.
  induction resps as [|r resps IH]; intros [|ok oks] Hmap; try discriminate Hmap.
  - reflexivity.
  - cbn [map] in Hmap. injection Hmap as Hr Hrest.
    rewrite count_admitted_cons. unfold count in *. cbn [List.filter].
    rewrite Hr, Bool.negb_involutive.
    destruct ok; cbn [length]; rewrite (IH oks Hrest); reflexivity.
Qed.

(** X19: The gateway's throughput: a fresh default gateway, whatever the
    arrival times of its requests on a clock that does not go back,
    answers at most 100 requests plus 1000 per second of elapsed time
    with something else than 429, up to the rounding of the limiter's
    float arithmetic. *)
Theorem serve_throughput unixNow envs g' resps ms :
  clock_steps unixNow (map allowNow envs) ->
  serve (NewGateway unixNow) envs = Return (g', resps, ms) ->
  Z.of_nat (count (fun r => negb (has_code 429 r)) resps) * 1000000000 <=
  100 * 1000000000
    + (List.last (map allowNow envs) unixNow - unixNow) * 1000
    + (List.last (map allowNow envs) unixNow - unixNow) * 1000 / 2 ^ 49
    + 6 * Z.of_nat (length envs).
Proof.
  intros Hclock Hserve.
  rewrite (count_not_429 _ _ (serve_limiter _ _ _ _ _ Hserve)).
  change (limiter (NewGateway unixNow)) with (NewRateLimiter (of_Z 1000) unixNow).
  assert (Hcap : fbetween 100 101 (capacity (NewRateLimiter (of_Z 1000) unixNow)))
    by (vm_compute; repeat split; try reflexivity; discriminate).
  assert (Htok : tokens (NewRateLimiter (of_Z 1000) unixNow) = 100 * 1000000000)
    by (vm_compute; reflexivity).
  assert (Hv : valid (of_Z 1000) = true) by (vm_compute; reflexivity).
  assert (H0 : leb zero (of_Z 1000) = true) by (vm_compute; reflexivity).
  assert (Hle : leb (of_Z 1000) (of_Z 1000) = true) by (vm_compute; reflexivity).
  assert (H7 : leb (of_Z 1000) (of_Z 10000000) = true) by (vm_compute; reflexivity).
  assert (V20 : 100 + 1 <= 2 ^ 20) by (vm_compute; discriminate).
  assert (HT : 0 <= tokens (NewRateLimiter (of_Z 1000) unixNow) < (100 + 1) * 1000000000)
    by (rewrite Htok; lia).
  assert (HT0 : tokens (NewRateLimiter (of_Z 1000) unixNow) <= 100 * 1000000000)
    by (rewrite Htok; lia).
  destruct (Allow_seq_balance 100 (100 * 1000000000) (map allowNow envs)
              (NewRateLimiter (of_Z 1000) unixNow) Hv H0 H7 Hcap ltac:(lia) V20 HT HT0
              ltac:(lia) Hclock) as (I1 & _).
  pose proof (Allow_seq_throughput 100 1000 (map allowNow envs)
                (NewRateLimiter (of_Z 1000) unixNow) Hv H0 Hle ltac:(lia) Hcap
                ltac:(lia) V20 HT Hclock)
    as Hth.
  change (lastUpdate (NewRateLimiter (of_Z 1000) unixNow)) with unixNow in Hth.
  rewrite Htok in Hth. rewrite length_map in Hth. lia.
Qed.

(** ** The error counts *)

Lemma HandleRequest_ledger g env g' resp ms id h :
  HandleRequest g env = Return (g', resp, ms) ->
  health g !! id = Some h ->
  Int64.min_int <= ErrorCount h < Int64.max_int ->
  exists h', health g' !! id = Some h' /\
             ErrorCount h' = ErrorCount h + Z.of_nat (count (is_errorOf id) ms) /\
             (count (is_errorOf id) ms <= 1)%nat.
Proof.
  intros Hstep Hh Hrange. unfold HandleRequest in Hstep.
  destruct (snd (Allow (limiter g) (allowNow env))); cbn [negb] in Hstep.
  - destruct (SelectProvider _ _ _) as [|[p|]]; cbn [simulateProviderCall] in Hstep;
      try discriminate.
    destruct (ltb (failDraw env) (ErrorRate p)).
    + destruct (MarkFailure _ _ _ _ _) as [|g2] eqn:Hm; [discriminate|].
      injection Hstep as <- <- <-.
      unfold MarkFailure in Hm. cbn [health] in Hm.
      destruct (health g !! ID p) as [hp|] eqn:Hp; [|discriminate].
      injection Hm as <-. cbn [health].
      unfold count. cbn [List.filter is_errorOf].
      destruct (String.eqb_spec (ID p) id) as [Heq|Hne].
      * subst id. rewrite lookup_insert_eq. eexists. split; [reflexivity|].
        cbn [String.eqb ErrorCount length].
        assert (hp = h) by congruence. subst hp.
        unfold Int64.add. rewrite wrap_small by lia. split; lia.
      * rewrite lookup_insert_ne by exact Hne. exists h. cbn [length]. split; [exact Hh|].
        split; lia.
    + injection Hstep as <- <- <-. exists h. cbn. split; [exact Hh|]. split; lia.
  - injection Hstep as <- <- <-. exists h. cbn. split; [exact Hh|]. split; lia.
Qed.

(** X20: Every upstream error is counted and none is ever forgotten: over any
    run of [serve], the error count of a provider ends at its initial
    value plus the number of [providerErrors] increments made for that
    provider; a success never lowers it. *)
Theorem serve_error_ledger envs : forall g g' resps ms id h,
  serve g envs = Return (g', resps, ms) ->
  health g !! id = Some h ->
  Int64.min_int <= ErrorCount h ->
  ErrorCount h + Z.of_nat (length envs) <= Int64.max_int ->
  exists h', health g' !! id = Some h' /\
             ErrorCount h' = ErrorCount h + Z.of_nat (count (is_errorOf id) ms).
Proof.
  induction envs as [|env rest IH]; intros g g' resps ms id h; cbn [serve].
  - intros [= <- <- <-] Hh _ _. exists h. cbn. split; [exact Hh|lia].
  - destruct (HandleRequest g env) as [|[[g1 resp] ms1]] eqn:Hstep; [discriminate|].
    destruct (serve g1 rest) as [|[[g2 resps2] ms2]] eqn:Hserve; [discriminate|].
    intros [= <- <- <-] Hh Hmin Hmax. cbn [length] in Hmax.
    destruct (HandleRequest_ledger _ _ _ _ _ id h Hstep Hh ltac:(lia))
      as (h1 & Hh1 & He1 & Hc1).
    destruct (IH _ _ _ _ id h1 Hserve Hh1 ltac:(lia) ltac:(lia)) as (h2 & Hh2 & He2).
    exists h2. split; [exact Hh2|]. rewrite count_app. lia.
Qed.

(** ** Degenerate rates *)

Lemma elapsed_shape d :
  0 <= d < 2 ^ 53 ->
  div (of_Z d) c1e9 = S754_zero false \/
  exists m e, div (of_Z d) c1e9 = S754_finite false m e.
Proof.
  intros Hd.
  pose proof (div_1e9_fle d Hd) as Hf.
  pose proof (div_1e9_not_negative _ (of_Z_not_negative d ltac:(lia))) as Hn.
  destruct (div (of_Z d) c1e9) as [s|s| |s m e]; unfold fle in Hf; cbn in Hn;
    try contradiction.
  - left. now subst s.
  - right. subst s. now exists m, e.
Qed.

Lemma Allow_zero_rate rl now s :
  rate rl = S754_zero s -> 0 <= now - lastUpdate rl < 2 ^ 53 ->
  Allow rl now = Allow (at_instant rl now) now.
Proof.
  intros Hr Hd.
  assert (V53 : 2 ^ 53 = 9007199254740992) by reflexivity.
  unfold Allow, at_instant. cbn [rate capacity tokens lastUpdate].
  unfold Int64.sub. rewrite Z.sub_diag.
  change (div (of_Z (Int64.wrap 0)) c1e9) with (S754_zero false).
  rewrite wrap_small by (unfold Int64.min_int, Int64.max_int; lia).
  rewrite Hr.
  destruct (elapsed_shape _ Hd) as [->|(m & e & ->)]; reflexivity.
Qed.

Lemma zero_rate_seq K s nows : forall (i : nat) rl,
  rate rl = S754_zero s ->
  fbetween K (K + 1) (capacity rl) -> 1 <= K -> K + 1 <= 2 ^ 20 ->
  Z.of_nat i <= K ->
  Z.of_nat i * 1000000000 <= tokens rl < (Z.of_nat i + 1) * 1000000000 ->
  clock_steps (lastUpdate rl) nows ->
  snd (Allow_seq rl nows) =
  repeat true (Nat.min i (length nows)) ++ repeat false (length nows - i).
Proof.
  induction nows as [|now nows IH]; intros i rl Hr Hc HK HK1 Hi HT Hclock.
  - cbn. rewrite Nat.min_0_r. reflexivity.
  - destruct Hclock as [Hd Hrest].
    cbn [Allow_seq length].
    rewrite (Allow_zero_rate rl now s Hr Hd).
    assert (Hinv : limiter_inv K now (Z.of_nat i) (at_instant rl now)).
    { unfold limiter_inv, at_instant. cbn [rate capacity tokens lastUpdate].
      rewrite Hr. repeat split; try assumption; lia. }
    destruct (Allow_step K now (Z.of_nat i) (at_instant rl now) HK HK1 ltac:(lia) Hinv)
      as [H1 H0].
    pose proof (Allow_denied_state (at_instant rl now) now) as Hden.
    destruct (Allow_keeps_config (at_instant rl now) now) as [Hrate _].
    destruct (Allow (at_instant rl now) now) as [rl1 ok] eqn:HA. cbn [fst snd] in *.
    destruct i as [|i'].
    + rewrite (H0 eq_refl) in *. specialize (Hden eq_refl). subst rl1.
      specialize (IH 0%nat (at_instant (at_instant rl now) now)).
      cbn [at_instant rate capacity tokens lastUpdate] in IH.
      specialize (IH Hr Hc HK HK1 Hi HT Hrest).
      destruct (Allow_seq _ nows) as [rl2 oks]. cbn [snd] in *.
      rewrite IH. cbn [Nat.min repeat app Nat.sub]. rewrite Nat.sub_0_r. reflexivity.
    + destruct (H1 ltac:(lia)) as [-> Hinv1].
      destruct Hinv1 as (_ & Hc1 & Hlu1 & HT1).
      replace (Z.of_nat (S i') - 1) with (Z.of_nat i') in HT1 by lia.
      specialize (IH i' rl1). rewrite Hlu1 in IH.
      specialize (IH ltac:(rewrite Hrate; exact Hr) Hc1 HK HK1 ltac:(lia) HT1 Hrest).
      destruct (Allow_seq rl1 nows) as [rl2 oks]. cbn [snd] in *.
      rewrite IH. reflexivity.
Qed.

(** X21: A rate of zero: a limiter built with the rate 0 (of either sign)
    admits the first 10 calls made on a clock that does not go back and
    no call after them, however much time passes between the calls. *)
Theorem zero_rate_budget s t0 nows :
  clock_steps t0 nows ->
  snd (Allow_seq (NewRateLimiter (S754_zero s) t0) nows) =
  repeat true (Nat.min 10 (length nows)) ++ repeat false (length nows - 10).
Proof.
  intros Hclock.
  apply (zero_rate_seq 10 s nows 10 (NewRateLimiter (S754_zero s) t0)).
  - reflexivity.
  - destruct s; vm_compute; repeat split; try reflexivity; discriminate.
  - lia.
  - vm_compute. discriminate.
  - reflexivity.
  - destruct s; vm_compute; (split; [discriminate|reflexivity]).
  - exact Hclock.
Qed.

Lemma Allow_nan_capacity rl now :
  capacity rl = nan -> Allow rl now = (at_instant rl now, false).
Proof.
  intros Hc. unfold Allow, at_instant. rewrite Hc.
  unfold math_Min. cbn [nan is_inf is_nan orb].
  match goal with |- context [is_inf ?y true] => destruct (is_inf y true) end;
    reflexivity.
Qed.

(** X22: A rate that is not a number: a limiter built with a NaN rate has a
    NaN capacity and denies every call, whatever the clock reads. *)
Theorem nan_rate_denies t0 nows :
  snd (Allow_seq (NewRateLimiter nan t0) nows) = repeat false (length nows).
Proof.
  assert (H : forall rl, capacity rl = nan ->
                         snd (Allow_seq rl nows) = repeat false (length nows)).
  { induction nows as [|now nows IH]; intros rl Hc; [reflexivity|].
    cbn [Allow_seq length repeat]. rewrite (Allow_nan_capacity rl now Hc).
    specialize (IH (at_instant rl now) Hc).
    destruct (Allow_seq (at_instant rl now) nows) as [rl2 oks]. cbn [snd] in *.
    now rewrite IH. }
  apply H. reflexivity.
Qed.

(** ** Concrete runs of the further properties *)

Lemma gw_far_deadlines_health p :
  In p (providers gw_far_deadlines) -> is_Some (health gw_far_deadlines !! ID p).
Proof. intros [<-|[<-|[<-|[]]]]; vm_compute; eauto. Qed.

Lemma SelectProvider_nil_iff_witness :
  SelectProvider gw_far_deadlines clock0 0 = Return None <->
  forall p, In p (providers gw_far_deadlines) ->
            clock0 + 24 * Hour <= Expiry gw_far_deadlines p.
Proof. apply SelectProvider_nil_iff. exact gw_far_deadlines_health. Defined.

Lemma SelectProvider_weight_intervals_witness :
  (sum_weights [provider2] <= 25 < sum_weights [provider2] + Weight provider3 ->
   SelectProvider gw_one_down (clock0 + Second) 25 = Return (Some provider3)) /\
  (sum_weights ([provider2] ++ provider3 :: []) <= 25 ->
   SelectProvider gw_one_down (clock0 + Second) 25 = Return (Some (hd provider3 [provider2]))).
Proof.
  apply (SelectProvider_weight_intervals [provider1; provider2; provider3]
           clock0 gw_one_down (clock0 + Second) 25 [provider2] provider3 []).
  - exact gw_one_down_reachable.
  - exact (proj1 default_weights).
  - exact (proj2 default_weights).
  - vm_compute. reflexivity.
Defined.

Lemma fresh_gateway_reachable :
  reachable [provider1; provider2; provider3] clock0 (NewGateway unix0).
Proof. apply reach_new. vm_compute. discriminate. Qed.

Lemma requests_clock_ordered : clock_ordered clock0 [request1; request2].
Proof. vm_compute. repeat split; discriminate. Qed.

Lemma serve_never_panics_witness :
  exists g' resps ms t',
    serve (NewGateway unix0) [request1; request2] = Return (g', resps, ms) /\
    length resps = length [request1; request2] /\
    Forall (fun r => code r = 200 \/ code r = 429 \/ code r = 502) resps /\
    clock0 <= t' /\ reachable [provider1; provider2; provider3] t' g'.
Proof.
  apply (serve_never_panics [provider1; provider2; provider3] [request1; request2]
           clock0 (NewGateway unix0)).
  - exact fresh_gateway_reachable.
  - discriminate.
  - exact (proj1 default_weights).
  - exact (proj2 default_weights).
  - exact requests_clock_ordered.
Defined.

Lemma served_run :
  serve (NewGateway unix0) [request1; request2] =
  Return (fst (fst served), snd (fst served), snd served).
Proof. vm_compute. reflexivity. Qed.

Example served_responses :
  map code (snd (fst served)) = [502; 200] /\
  snd served = [providerErrors_Inc "provider1" "rate_limit";
                requestsTotal_Inc "provider1" "error";
                requestDuration_Observe "provider2" (dec 1 2);
                requestsTotal_Inc "provider2" "success"].
Proof. vm_compute. split; reflexivity. Qed.

Lemma serve_metrics_witness :
  length (snd (fst served)) = length [request1; request2] /\
  count (has_code 429) (snd (fst served)) = count is_rateLimitHit (snd served) /\
  count (has_code 502) (snd (fst served)) = count (is_requestsTotal "error") (snd served) /\
  count (has_code 502) (snd (fst served)) = count is_providerError (snd served) /\
  count (has_code 200) (snd (fst served)) = count (is_requestsTotal "success") (snd served) /\
  count (has_code 200) (snd (fst served)) = count is_observation (snd served).
Proof.
  apply (serve_metrics [request1; request2] (NewGateway unix0) (fst (fst served))).
  exact served_run.
Defined.

Lemma serve_frame_witness :
  providers (fst (fst served)) = providers (NewGateway unix0) /\
  totalWeight (fst (fst served)) = totalWeight (NewGateway unix0) /\
  rate (limiter (fst (fst served))) = rate (limiter (NewGateway unix0)) /\
  capacity (limiter (fst (fst served))) = capacity (limiter (NewGateway unix0)) /\
  (forall i, DisabledUntil <$> health (fst (fst served)) !! i =
             DisabledUntil <$> health (NewGateway unix0) !! i) /\
  (count (has_code 502) (snd (fst served)) = 0%nat ->
   health (fst (fst served)) = health (NewGateway unix0)).
Proof.
  apply (serve_frame [request1; request2] (NewGateway unix0) (fst (fst served))
           (snd (fst served)) (snd served)).
  exact served_run.
Defined.

Lemma health_keys_witness :
  is_Some (health gw_one_down !! "provider2"%string) <->
  exists p, In p [provider1; provider2; provider3] /\ ID p = "provider2"%string.
Proof.
  apply (health_keys [provider1; provider2; provider3] clock0 gw_one_down "provider2").
  exact gw_one_down_reachable.
Defined.



Lemma failed_provider_skipped_witness : ID provider2 <> "provider1"%string.
Proof.
  apply (failed_provider_skipped (NewGateway unix0) "provider1" "rate_limit" clock0
           (dec 1 2) zeroHealth gw_one_down (clock0 + Second) 10 provider2).
  - vm_compute. reflexivity.
  - vm_compute. split; [discriminate|reflexivity].
  - vm_compute. reflexivity.
  - vm_compute. reflexivity.
  - vm_compute. reflexivity.
  - vm_compute. reflexivity.
  - vm_compute. split; [discriminate|reflexivity].
  - exists provider2. split; [right; now left|vm_compute; reflexivity].
  - vm_compute. reflexivity.
Defined.

Lemma NewGateway_split_witness :
  SelectProvider (NewGateway unix0) clock0 75 =
    Return (Some (if 75 <? 70 then provider1
                  else if 75 <? 90 then provider2 else provider3)).
Proof.
  apply (NewGateway_split unix0 clock0 75).
  - vm_compute. discriminate.
  - vm_compute. split; [discriminate|reflexivity].
Defined.

Lemma AllowMutex_agrees_witness :
  AllowMutex half_rate_limiter (unix0 + 500) = Allow half_rate_limiter (unix0 + 500).
Proof.
  apply (AllowMutex_agrees half_rate_limiter (unix0 + 500)).
  vm_compute. split; [discriminate|reflexivity].
Defined.

Lemma exhausted_built : built (exhausted unix0).
Proof. vm_compute. reflexivity. Qed.

Lemma Allow_starved_witness :
  snd (Allow_seq (exhausted unix0)
         (arrivals (lastUpdate (exhausted unix0)) [500000; 999999; 1]))
    = repeat false (length [500000; 999999; 1]) /\
  tokens (fst (Allow_seq (exhausted unix0)
                 (arrivals (lastUpdate (exhausted unix0)) [500000; 999999; 1])))
    = tokens (exhausted unix0).
Proof.
  apply (Allow_starved (exhausted unix0) 1000 [500000; 999999; 1]).
  - exact exhausted_built.
  - vm_compute. reflexivity.
  - vm_compute. reflexivity.
  - vm_compute. reflexivity.
  - lia.
  - vm_compute. discriminate.
  - repeat (constructor; [vm_compute; split; [discriminate|reflexivity]|]). constructor.
Defined.

Lemma overload_served :
  serve (NewGateway unix0) overload_requests =
  Return (fst (fst overload_run), snd (fst overload_run), snd overload_run).
Proof. vm_compute. reflexivity. Qed.

Lemma serve_overload_witness :
  map (has_code 429) (snd (fst overload_run)) =
  repeat false 100 ++ repeat true (length [400000; 999999]).
Proof.
  apply (serve_overload unix0 overload_requests [400000; 999999]
           (fst (fst overload_run)) (snd (fst overload_run)) (snd overload_run)).
  - vm_compute. reflexivity.
  - repeat (constructor; [vm_compute; split; discriminate|]). constructor.
  - exact overload_served.
Defined.

Lemma Allow_balance_bounded_witness :
  0 <= tokens (fst (Allow_seq (NewRateLimiter (of_Z 1000) unix0)
                      [unix0; unix0 + 5; unix0 + 2000000000]))
    <= tokens (NewRateLimiter (of_Z 1000) unix0).
Proof.
  apply (Allow_balance_bounded (of_Z 1000) unix0 [unix0; unix0 + 5; unix0 + 2000000000]).
  - vm_compute. reflexivity.
  - vm_compute. reflexivity.
  - vm_compute. reflexivity.
  - vm_compute. repeat split; try discriminate; reflexivity.
Defined.

Lemma instant_admissions_bounded_witness :
  match trunc (capacity (NewRateLimiter (of_Z 1000) unix0)) with
  | Some K =>
      Z.of_nat (count_admitted
                  (snd (Allow_seq (fst (Allow_seq (NewRateLimiter (of_Z 1000) unix0)
                                          [unix0 + 1000]))
                                  (repeat (unix0 + Second) 150%nat)))) <= K
  | None => False
  end.
Proof.
  apply (instant_admissions_bounded (of_Z 1000) unix0 [unix0 + 1000] (unix0 + Second) 150).
  - vm_compute. reflexivity.
  - vm_compute. reflexivity.
  - vm_compute. reflexivity.
  - vm_compute. repeat split; try discriminate; reflexivity.
Defined.

Lemma exhausted_within_bounds :
  0 <= tokens (exhausted unix0) <= tokens (NewRateLimiter (rate (exhausted unix0)) 0).
Proof. vm_compute. split; discriminate. Qed.

Lemma Allow_admits_witness :
  snd (Allow (exhausted unix0) (unix0 + 1000001)) = true.
Proof.
  apply (Allow_admits (exhausted unix0) (unix0 + 1000001) 1000).
  - exact exhausted_built.
  - vm_compute. reflexivity.
  - vm_compute. reflexivity.
  - vm_compute. reflexivity.
  - lia.
  - exact exhausted_within_bounds.
  - vm_compute. split; [discriminate|reflexivity].
  - vm_compute. reflexivity.
Defined.

Lemma Allow_full_refill_witness :
  burst (exhausted unix0) (unix0 + Second) (Z.to_nat 100).
Proof.
  apply (Allow_full_refill (exhausted unix0) (unix0 + Second) 1000 100).
  - exact exhausted_built.
  - vm_compute. reflexivity.
  - vm_compute. reflexivity.
  - vm_compute. reflexivity.
  - lia.
  - exact exhausted_within_bounds.
  - vm_compute. split; [discriminate|reflexivity].
  - vm_compute. reflexivity.
  - vm_compute. reflexivity.
Defined.

Lemma Allow_throughput_bounded_witness :
  Z.of_nat (count_admitted
              (snd (Allow_seq (NewRateLimiter (of_Z 1000) unix0)
                      [unix0; unix0 + 5; unix0 + 2000000000]))) * 1000000000 <=
  tokens (NewRateLimiter (of_Z 1000) unix0)
    + (List.last [unix0; unix0 + 5; unix0 + 2000000000] unix0 - unix0) * 1000
    + (List.last [unix0; unix0 + 5; unix0 + 2000000000] unix0 - unix0) * 1000 / 2 ^ 49
    + 6 * Z.of_nat (length [unix0; unix0 + 5; unix0 + 2000000000]).
Proof.
  apply (Allow_throughput_bounded (of_Z 1000) unix0
           [unix0; unix0 + 5; unix0 + 2000000000] 1000).
  - vm_compute. reflexivity.
  - vm_compute. reflexivity.
  - vm_compute. reflexivity.
  - lia.
  - vm_compute. repeat split; try discriminate; reflexivity.
Defined.

Lemma overload_clock : clock_steps unix0 (map allowNow overload_requests).
Proof. vm_compute. repeat split; try discriminate; reflexivity. Qed.

Lemma serve_throughput_witness :
  Z.of_nat (count (fun r => negb (has_code 429 r)) (snd (fst overload_run))) * 1000000000 <=
  100 * 1000000000
    + (List.last (map allowNow overload_requests) unix0 - unix0) * 1000
    + (List.last (map allowNow overload_requests) unix0 - unix0) * 1000 / 2 ^ 49
    + 6 * Z.of_nat (length overload_requests).
Proof.
  apply (serve_throughput unix0 overload_requests
           (fst (fst overload_run)) (snd (fst overload_run)) (snd overload_run)).
  - exact overload_clock.
  - exact overload_served.
Defined.

Lemma fresh_provider1 :
  health (NewGateway unix0) !! "provider1"%string = Some zeroHealth.
Proof. vm_compute. reflexivity. Qed.

Lemma serve_error_ledger_witness :
  exists h', health (fst (fst served)) !! "provider1"%string = Some h' /\
             ErrorCount h' =
             ErrorCount zeroHealth
               + Z.of_nat (count (is_errorOf "provider1") (snd served)).
Proof.
  apply (serve_error_ledger [request1; request2] (NewGateway unix0)
           (fst (fst served)) (snd (fst served)) (snd served) "provider1" zeroHealth).
  - exact served_run.
  - exact fresh_provider1.
  - vm_compute. discriminate.
  - vm_compute. discriminate.
Defined.

Lemma zero_rate_budget_witness :
  snd (Allow_seq (NewRateLimiter (S754_zero false) unix0)
         (repeat unix0 11 ++ [unix0 + Hour])) =
  repeat true (Nat.min 10 (length (repeat unix0 11 ++ [unix0 + Hour])))
    ++ repeat false (length (repeat unix0 11 ++ [unix0 + Hour]) - 10).
Proof.
  apply (zero_rate_budget false unix0 (repeat unix0 11 ++ [unix0 + Hour])).
  vm_compute. repeat split; try discriminate; reflexivity.
Defined.
